(** * The program image, its garbage collector and the breakpoint table

  A shallow embedding of [src/vm/program.cc] and [src/vm/debug_info.cc]
  together with the properties the specification states about them.

  Conventions.
  - Pointers and machine words are integers ([Z]).  A pointer to a heap
    object is the object's address plus [kHeapObjectTag]; [NULL] is [0].
  - Objects of the process heap live in a store indexed by pointer value;
    code that dereferences a pointer looks the store up.
  - An [ASSERT] is a run-time check of debug builds only; the build is a
    parameter ([Build]), and a failed check is the outcome
    [AssertionFailure].
  - Calls into collaborators whose code is not part of the two files are
    recorded in a log of [Event]s, in call order. *)

From Stdlib Require Import ZArith Lia String Ascii.
From stdpp Require Import base option list gmap fin_maps functions.

Local Open Scope Z_scope.

(** ** Globals: word size, tags, build configuration *)

Module Globals.

Inductive WordWidth := W32 | W64.

(** What the preprocessor decides: the word width ([DARTINO64]) and whether
    [ASSERT] is compiled in ([DEBUG]). *)
Class Build := {
  width : WordWidth;
  debug : bool
}.

Definition kBitsPerWord `{Build} : Z :=
  match width with W32 => 32 | W64 => 64 end.

Definition kWordSize `{Build} : Z :=
  match width with W32 => 4 | W64 => 8 end.

Definition kPointerSize `{Build} : Z := kWordSize.
Global Arguments kBitsPerWord : simpl never.
Global Arguments kWordSize : simpl never.
Global Arguments kPointerSize : simpl never.

(** [uword] arithmetic wraps around. *)
Definition wrap_uword `{Build} (z : Z) : Z := z mod 2 ^ kBitsPerWord.

(** [word] is the signed integer of pointer width. *)
Definition wrap_word `{Build} (z : Z) : Z :=
  (z + 2 ^ (kBitsPerWord - 1)) mod 2 ^ kBitsPerWord - 2 ^ (kBitsPerWord - 1).

(** [int] is 32 bits wide on every supported target. *)
Definition wrap_int (z : Z) : Z := (z + 2 ^ 31) mod 2 ^ 32 - 2 ^ 31.

Definition NULL : Z := 0.

(** Constants of headers that are not part of the two files.  They are
    parameters of the development. *)
Class Headers := {
  (** [Instance::kSize]: size of an instance without fields. *)
  Instance_kSize : Z;
  (** [Function::kSize]: size of the function header; the bytecodes
      follow it. *)
  Function_kSize : Z;
  (** [Stack::kSize]: size of the stack header; the slots follow it. *)
  Stack_kSize : Z;
  (** [Class::kSize], [Array::kSize], [OneByteString::kSize]: sizes of the
      headers of classes, arrays and strings. *)
  Class_kSize : Z;
  Array_kSize : Z;
  OneByteString_kSize : Z;
  (** [LargeInteger::kSize]: size of a boxed integer. *)
  LargeInteger_kSize : Z;
  (** [DebugInfo::kNoBreakpointId]. *)
  kNoBreakpointId : Z;
  (** The failure value an allocation returns when the space is full. *)
  Failure_retry_after_gc : Z
}.

(** Modelled from the spec: the tagging of values.  "A machine word is
    either an immediate small integer (low bit clear convention) or a heap
    pointer": the tag of a heap pointer is the low bit set, an immediate
    integer carries its value in the remaining bits. *)
Definition kHeapObjectTag : Z := 1.
Definition kSmiTagSize : Z := 1.

Definition IsSmi (object : Z) : bool := negb (Z.testbit object 0).
Definition Smi_value (smi : Z) : Z := Z.shiftr smi kSmiTagSize.
Definition Smi_FromWord (value : Z) : Z := Z.shiftl value kSmiTagSize.
Definition Smi_zero : Z := Smi_FromWord 0.

Definition HeapObject_FromAddress (address : Z) : Z := address + kHeapObjectTag.
Definition HeapObject_address (object : Z) : Z := object - kHeapObjectTag.

(** Modelled from the spec: the portable range of immediate integers,
    "the range valid on 32-bit targets": one tag bit and one sign bit
    leave 30 bits of magnitude. *)
Definition Smi_kMinPortableValue : Z := - 2 ^ 30.
Definition Smi_kMaxPortableValue : Z := 2 ^ 30 - 1.
Definition Smi_IsValidAsPortable (value : Z) : bool :=
  (Smi_kMinPortableValue <=? value) && (value <=? Smi_kMaxPortableValue).

(** [Function::bytecode_address_for]: an interior pointer into the
    function object. *)
Definition bytecode_address_for `{Headers} (function : Z) (offset : Z) : Z :=
  HeapObject_address function + Function_kSize + offset.

(** Outcome of code that may trip an [ASSERT] or dereference a pointer
    that designates no object of the expected kind. *)
Inductive Result (A : Type) :=
| Ok (a : A)
| AssertionFailure
| BadPointer.
Global Arguments Ok {A} a.
Global Arguments AssertionFailure {A}.
Global Arguments BadPointer {A}.

Global Instance Result_ret : MRet Result := fun A a => Ok a.
Global Instance Result_bind : MBind Result := fun A B k r =>
  match r with
  | Ok a => k a
  | AssertionFailure => AssertionFailure
  | BadPointer => BadPointer
  end.

(** [ASSERT(c)]: checked in debug builds, absent otherwise. *)
Definition ASSERT `{Build} (c : bool) : Result unit :=
  if debug then (if c then Ok tt else AssertionFailure) else Ok tt.

Definition deref {A} (o : option A) : Result A :=
  match o with Some a => Ok a | None => BadPointer end.

End Globals.
Export Globals.

(** ** Objects of the process heap that the two files look into *)

Module ProcessHeap.

(** A stack.  The frame walker ([Frame], not part of the two files)
    enumerates the frames from the top one backwards; [frames] holds the
    bytecode-pointer slot of each frame in that order. *)
Record Stack := {
  length_ : Z;
  frames_ : list Z;
  next_ : Z
}.

Record Coroutine := {
  stack_ : Z
}.

Inductive HeapObject :=
| StackObject (s : Stack)
| CoroutineObject (c : Coroutine).

Definition Stack_cast (heap : gmap Z HeapObject) (p : Z) : Result Stack :=
  match heap !! p with
  | Some (StackObject s) => Ok s
  | _ => BadPointer
  end.

Definition Coroutine_cast (heap : gmap Z HeapObject) (p : Z) : Result Coroutine :=
  match heap !! p with
  | Some (CoroutineObject c) => Ok c
  | _ => BadPointer
  end.

(** [Stack::Pointer(index)]: the address of slot [index]. *)
Definition Stack_Pointer `{Build, Headers} (stack : Z) (index : Z) : Z :=
  HeapObject_address stack + Stack_kSize + index * kPointerSize.

End ProcessHeap.
Export ProcessHeap.

(** ** The breakpoint table ([debug_info.cc]) *)

Module DebugInfo.

Record Breakpoint := {
  function_ : Z;
  bytecode_index_ : Z;
  id_ : Z;
  is_one_shot_ : bool;
  coroutine_ : Z;
  stack_height_ : Z
}.

(** [Breakpoint::stack()] of the header: the stack of the coroutine, [NULL]
    without a coroutine. *)
Definition Breakpoint_stack (heap : gmap Z HeapObject) (b : Breakpoint) : Result Z :=
  if decide (coroutine_ b = NULL) then Ok NULL
  else c ← Coroutine_cast heap (coroutine_ b); Ok (stack_ c).

Record DebugInfo := {
  is_stepping_ : bool;
  is_at_breakpoint_ : bool;
  current_breakpoint_id_ : Z;
  next_breakpoint_id_ : Z;
  breakpoints_ : gmap Z Breakpoint
}.

(** [DebugInfo::DebugInfo()]. *)
Definition DebugInfo_new `{Headers} : DebugInfo :=
  {| is_stepping_ := false;
     is_at_breakpoint_ := false;
     current_breakpoint_id_ := kNoBreakpointId;
     next_breakpoint_id_ := 0;
     breakpoints_ := ∅ |}.

(** Modelled from the spec: [set_current_breakpoint] of the header, "mark
    the interpreter as at breakpoint", and remember which one. *)
Definition set_current_breakpoint (id : Z) (d : DebugInfo) : DebugInfo :=
  {| is_stepping_ := is_stepping_ d;
     is_at_breakpoint_ := true;
     current_breakpoint_id_ := id;
     next_breakpoint_id_ := next_breakpoint_id_ d;
     breakpoints_ := breakpoints_ d |}.

Definition set_breakpoints (m : gmap Z Breakpoint) (d : DebugInfo) : DebugInfo :=
  {| is_stepping_ := is_stepping_ d;
     is_at_breakpoint_ := is_at_breakpoint_ d;
     current_breakpoint_id_ := current_breakpoint_id_ d;
     next_breakpoint_id_ := next_breakpoint_id_ d;
     breakpoints_ := m |}.

(** [next_breakpoint_id()] of the header hands out the counter and
    advances it; the counter is an [int]. *)
Definition next_breakpoint_id (d : DebugInfo) : Z * DebugInfo :=
  (next_breakpoint_id_ d,
   {| is_stepping_ := is_stepping_ d;
      is_at_breakpoint_ := is_at_breakpoint_ d;
      current_breakpoint_id_ := current_breakpoint_id_ d;
      next_breakpoint_id_ := wrap_int (next_breakpoint_id_ d + 1);
      breakpoints_ := breakpoints_ d |}).

(** [BreakpointMap::Insert]: the entry is added unless the key is taken. *)
Definition Insert (key : Z) (b : Breakpoint) (m : gmap Z Breakpoint) : gmap Z Breakpoint :=
  match m !! key with
  | Some _ => m
  | None => <[key := b]> m
  end.

(** [DebugInfo::DeleteBreakpoint]: iterate the table up to the first entry
    with the id, erase that entry. *)
Definition DeleteBreakpoint (id : Z) (d : DebugInfo) : bool * DebugInfo :=
  match List.find (fun e : Z * Breakpoint => bool_decide (id_ e.2 = id))
                  (map_to_list (breakpoints_ d)) with
  | Some it => (true, set_breakpoints (delete it.1 (breakpoints_ d)) d)
  | None => (false, d)
  end.

(** [DebugInfo::ShouldBreak]. *)
Definition ShouldBreak `{Build, Headers} (heap : gmap Z HeapObject)
    (bcp sp : Z) (d : DebugInfo) : Result (bool * DebugInfo) :=
  match breakpoints_ d !! bcp with
  | Some breakpoint =>
      breakpoint_stack ← Breakpoint_stack heap breakpoint;
      if decide (breakpoint_stack ≠ NULL) then
        s ← Stack_cast heap breakpoint_stack;
        let index := wrap_word (length_ s - stack_height_ breakpoint) in
        let expected_sp := Stack_Pointer breakpoint_stack index in
        ASSERT (sp <=? expected_sp);;
        if decide (expected_sp ≠ sp) then Ok (false, d)
        else
          let d := set_current_breakpoint (id_ breakpoint) d in
          let d := if is_one_shot_ breakpoint
                   then (DeleteBreakpoint (id_ breakpoint) d).2 else d in
          Ok (true, d)
      else
        let d := set_current_breakpoint (id_ breakpoint) d in
        let d := if is_one_shot_ breakpoint
                 then (DeleteBreakpoint (id_ breakpoint) d).2 else d in
        Ok (true, d)
  | None =>
      if is_stepping_ d
      then Ok (true, set_current_breakpoint kNoBreakpointId d)
      else Ok (false, d)
  end.

(** [DebugInfo::SetBreakpoint]. *)
Definition SetBreakpoint `{Headers} (function : Z) (bytecode_index : Z)
    (one_shot : bool) (coroutine : Z) (stack_height : Z) (d : DebugInfo)
    : Z * DebugInfo :=
  let '(id, d) := next_breakpoint_id d in
  let breakpoint :=
    {| function_ := function;
       bytecode_index_ := bytecode_index;
       id_ := id;
       is_one_shot_ := one_shot;
       coroutine_ := coroutine;
       stack_height_ := stack_height |} in
  let bcp := bytecode_address_for function 0 + bytecode_index in
  match breakpoints_ d !! bcp with
  | Some it => (id_ it, d)
  | None => (id_ breakpoint, set_breakpoints (<[bcp := breakpoint]> (breakpoints_ d)) d)
  end.

(** [DebugInfo::UpdateBreakpoints]: a new table is filled from the entries
    of the old one, each under the key computed from its function and
    index, and takes the old one's place. *)
Definition UpdateBreakpoints `{Headers} (d : DebugInfo) : DebugInfo :=
  let new_breakpoints :=
    foldl (fun (acc : gmap Z Breakpoint) (it : Z * Breakpoint) =>
             let function := function_ it.2 in
             let bcp := bytecode_address_for function 0 + bytecode_index_ it.2 in
             Insert bcp it.2 acc)
          ∅ (map_to_list (breakpoints_ d)) in
  set_breakpoints new_breakpoints d.

(** The pointer visitor of a program GC rewrites a slot in place. *)
Definition Breakpoint_VisitProgramPointers (visit : Z → Z) (b : Breakpoint) : Breakpoint :=
  {| function_ := visit (function_ b);
     bytecode_index_ := bytecode_index_ b;
     id_ := id_ b;
     is_one_shot_ := is_one_shot_ b;
     coroutine_ := coroutine_ b;
     stack_height_ := stack_height_ b |}.

(** [DebugInfo::VisitProgramPointers]: every entry's function slot is
    visited; the keys stay as they are. *)
Definition VisitProgramPointers (visit : Z → Z) (d : DebugInfo) : DebugInfo :=
  set_breakpoints (Breakpoint_VisitProgramPointers visit <$> breakpoints_ d) d.

(** [Breakpoint::VisitPointers]: the coroutine slot is visited if it holds
    a coroutine. *)
Definition Breakpoint_VisitPointers (visit : Z → Z) (b : Breakpoint) : Breakpoint :=
  if decide (coroutine_ b ≠ NULL) then
    {| function_ := function_ b;
       bytecode_index_ := bytecode_index_ b;
       id_ := id_ b;
       is_one_shot_ := is_one_shot_ b;
       coroutine_ := visit (coroutine_ b);
       stack_height_ := stack_height_ b |}
  else b.

(** [DebugInfo::VisitPointers]. *)
Definition VisitPointers (visit : Z → Z) (d : DebugInfo) : DebugInfo :=
  set_breakpoints (Breakpoint_VisitPointers visit <$> breakpoints_ d) d.

End DebugInfo.

(** ** The program ([program.cc]): state *)

Module Program.
Import DebugInfo.

(** Run-time flags. *)
Class Flags := {
  validate_heaps : bool;
  print_heap_statistics : bool;
  print_program_statistics : bool
}.

(** The methods whose calls the log records: methods of collaborators, and
    the phases of the program's own collections. *)
Inductive Callee :=
| Heap_CreateMetaClass | Heap_CreateClass | Heap_CreateArray
| Heap_CreateOneByteString | Heap_CreateOneByteStringUninitialized
| Heap_CreateBooleanObject | Heap_CreateInstance
| Class_set_super_class | Class_set_methods
| HeapObject_set_class | HeapObject_set_immutable
| HeapObject_InitializeIdentityHashCode | Instance_Initialize
| OneByteString_set_char_code
| LookupCache_Clear
| DispatchTableEntry_set_code
| Process_new | Process_SetupExecutionStack | Process_Cleanup | Process_delete
| Process_IterateRoots | Process_UpdateStackLimit | Process_set_ports
| Process_IterateProgramPointers | Process_UpdateBreakpoints
| MarkingStack_Process
| OldSpace_EvaluatePointlessness | OldSpace_clear_hard_limit_hit
| OldSpace_ProcessWeakPointers | OldSpace_IterateObjects
| OldSpace_ComputeCompactionDestinations | OldSpace_ClearFreeList
| OldSpace_ZapObjectStarts | OldSpace_ClearMarkBits
| OldSpace_MarkChunkEndsFree | OldSpace_Flush | OldSpace_Verify
| OldSpace_VisitRememberedSet | OldSpace_StartScavenge | OldSpace_EndScavenge
| OldSpace_CompleteScavengeGenerational | OldSpace_ReportNewSpaceProgress
| SemiSpace_ClearMarkBits | SemiSpace_IterateObjects | SemiSpace_Flush
| SemiSpace_StartScavenge | SemiSpace_CompleteScavengeGenerational
| SemiSpace_ProcessWeakPointers | SemiSpace_CompleteScavenge
| TwoSpaceHeap_AdjustOldAllocationBudget | TwoSpaceHeap_SwapSemiSpaces
| Heap_ReplaceSpace | Session_IteratePointers
| ProgramHeapPointerValidator | HeapPointerValidator
| Program_ClearCache | Program_ClearDispatchTableIntrinsics
| Program_PerformSharedGarbageCollection | Program_CollectNewSpace
| Program_CollectMutableGarbageAndChainStacks | Program_CookStacks
| Program_PerformProgramGC | Program_UncookAndUnchainStacks
| OldSpace_set_compacting | OldSpace_set_used
| OldSpace_needs_garbage_collection | OldSpace_Used
| TwoSpaceHeap_HasEmptyNewSpace | SemiSpace_set_used
| SemiSpace_UpdateBaseAndLimit | SemiSpace_Used
| GenerationalScavengeVisitor_trigger_old_space_gc
| Heap_IterateObjects | PopularityCounter_FindMostPopular
| PopularityCounter_VisitMostPopular | Print_Error
| DebugInfo_UpdateBreakpoints.

Inductive Event := Call (callee : Callee) (args : list Z).

Global Instance Callee_eq_dec : EqDecision Callee.
Proof. solve_decision. Defined.
Global Instance Event_eq_dec : EqDecision Event.
Proof. solve_decision. Defined.

(** The roots that [Initialize] fills in. *)
Inductive Root :=
| null_object_ | false_object_ | true_object_ | meta_class_ | array_class_
| empty_array_ | object_class_ | num_class_ | int_class_ | smi_class_
| large_integer_class_ | double_class_ | boxed_class_ | stack_class_
| coroutine_class_ | port_class_ | process_class_ | process_death_class_
| foreign_memory_class_ | initializer_class_ | dispatch_table_entry_class_
| constant_list_class_ | constant_byte_list_class_ | constant_map_class_
| no_such_method_error_class_ | one_byte_string_class_
| two_byte_string_class_ | empty_string_ | function_class_
| byte_array_class_ | closure_class_ | bool_class_
| stack_overflow_error_class_ | stack_overflow_error_ | raw_retry_after_gc_
| raw_wrong_argument_type_ | raw_index_out_of_bounds_ | raw_illegal_state_
| native_failure_result_.

Global Instance Root_eq_dec : EqDecision Root.
Proof. solve_decision. Defined.

(** Modelled from the spec: a semi-space is a "bump allocator; resizable by
    appending chunks".  [top_] and [limit_] bound the free part of the
    current chunk; the nesting count tells whether a no-allocation-failure
    scope is open. *)
Record SemiSpace := {
  top_ : Z;
  limit_ : Z;
  no_allocation_failure_nesting_ : nat
}.

(** Where the platform places a chunk that a space claims: from the size
    asked for and the limit of the current chunk to the bounds of the new
    chunk. *)
Class Platform := {
  AllocateChunk : Z → Z → Z * Z
}.

Record FunctionObject := {
  bytecode_size : Z
}.

(** The program heap: its space, the words of its objects by address, the
    slot range of every object as the object iteration delivers them, and
    the functions by pointer. *)
Record Heap := {
  space_ : SemiSpace;
  memory_ : gmap Z Z;
  objects_ : list (Z * Z);
  functions_ : gmap Z FunctionObject
}.

(** Answers of the process heap to the queries of the collections. *)
Record OldSpace := {
  compacting_ : bool;
  hard_limit_hit_ : bool
}.

Record TwoSpaceHeap := {
  old_space_ : OldSpace;
  heap_objects_ : gmap Z HeapObject;
  (** what the collaborators will answer, query by query *)
  answers_ : list bool
}.

Record Process := {
  parent_ : Z;
  process_triangle_count_ : Z;
  allocation_failed_ : bool;
  process_debug_info_ : option DebugInfo
}.

(** [new Process(...)]: where the allocator places a process, given the
    processes that live. *)
Class ProcessAllocator := {
  operator_new : gmap Z Process → Z
}.

Record DispatchTableEntry := {
  target_ : Z;
  code_ : Z
}.

Record Program := {
  roots_ : Root → Z;
  dispatch_table_ : option (list DispatchTableEntry);
  entry_ : Z;
  heap_ : Heap;
  process_heap_ : TwoSpaceHeap;
  process_list_ : list Z;
  processes_ : gmap Z Process;
  session_ : Z;
  stack_chain_ : Z;
  cooked_stack_deltas_ : list (list Z);
  cache_ : option (gmap Z Z);
  debug_info_ : option DebugInfo;
  log_ : list Event
}.

(** *** Field updates *)

Definition set_roots (v : Root → Z) (p : Program) : Program :=
  {| roots_ := v; dispatch_table_ := dispatch_table_ p; entry_ := entry_ p;
     heap_ := heap_ p; process_heap_ := process_heap_ p;
     process_list_ := process_list_ p; processes_ := processes_ p;
     session_ := session_ p; stack_chain_ := stack_chain_ p;
     cooked_stack_deltas_ := cooked_stack_deltas_ p; cache_ := cache_ p;
     debug_info_ := debug_info_ p; log_ := log_ p |}.

Definition set_dispatch_table (v : option (list DispatchTableEntry)) (p : Program) : Program :=
  {| roots_ := roots_ p; dispatch_table_ := v; entry_ := entry_ p;
     heap_ := heap_ p; process_heap_ := process_heap_ p;
     process_list_ := process_list_ p; processes_ := processes_ p;
     session_ := session_ p; stack_chain_ := stack_chain_ p;
     cooked_stack_deltas_ := cooked_stack_deltas_ p; cache_ := cache_ p;
     debug_info_ := debug_info_ p; log_ := log_ p |}.

Definition set_entry (v : Z) (p : Program) : Program :=
  {| roots_ := roots_ p; dispatch_table_ := dispatch_table_ p; entry_ := v;
     heap_ := heap_ p; process_heap_ := process_heap_ p;
     process_list_ := process_list_ p; processes_ := processes_ p;
     session_ := session_ p; stack_chain_ := stack_chain_ p;
     cooked_stack_deltas_ := cooked_stack_deltas_ p; cache_ := cache_ p;
     debug_info_ := debug_info_ p; log_ := log_ p |}.

Definition set_heap (v : Heap) (p : Program) : Program :=
  {| roots_ := roots_ p; dispatch_table_ := dispatch_table_ p;
     entry_ := entry_ p; heap_ := v; process_heap_ := process_heap_ p;
     process_list_ := process_list_ p; processes_ := processes_ p;
     session_ := session_ p; stack_chain_ := stack_chain_ p;
     cooked_stack_deltas_ := cooked_stack_deltas_ p; cache_ := cache_ p;
     debug_info_ := debug_info_ p; log_ := log_ p |}.

Definition set_process_heap (v : TwoSpaceHeap) (p : Program) : Program :=
  {| roots_ := roots_ p; dispatch_table_ := dispatch_table_ p;
     entry_ := entry_ p; heap_ := heap_ p; process_heap_ := v;
     process_list_ := process_list_ p; processes_ := processes_ p;
     session_ := session_ p; stack_chain_ := stack_chain_ p;
     cooked_stack_deltas_ := cooked_stack_deltas_ p; cache_ := cache_ p;
     debug_info_ := debug_info_ p; log_ := log_ p |}.

Definition set_process_list (v : list Z) (p : Program) : Program :=
  {| roots_ := roots_ p; dispatch_table_ := dispatch_table_ p;
     entry_ := entry_ p; heap_ := heap_ p; process_heap_ := process_heap_ p;
     process_list_ := v; processes_ := processes_ p; session_ := session_ p;
     stack_chain_ := stack_chain_ p;
     cooked_stack_deltas_ := cooked_stack_deltas_ p; cache_ := cache_ p;
     debug_info_ := debug_info_ p; log_ := log_ p |}.

Definition set_processes (v : gmap Z Process) (p : Program) : Program :=
  {| roots_ := roots_ p; dispatch_table_ := dispatch_table_ p;
     entry_ := entry_ p; heap_ := heap_ p; process_heap_ := process_heap_ p;
     process_list_ := process_list_ p; processes_ := v;
     session_ := session_ p; stack_chain_ := stack_chain_ p;
     cooked_stack_deltas_ := cooked_stack_deltas_ p; cache_ := cache_ p;
     debug_info_ := debug_info_ p; log_ := log_ p |}.

Definition set_session (v : Z) (p : Program) : Program :=
  {| roots_ := roots_ p; dispatch_table_ := dispatch_table_ p;
     entry_ := entry_ p; heap_ := heap_ p; process_heap_ := process_heap_ p;
     process_list_ := process_list_ p; processes_ := processes_ p;
     session_ := v; stack_chain_ := stack_chain_ p;
     cooked_stack_deltas_ := cooked_stack_deltas_ p; cache_ := cache_ p;
     debug_info_ := debug_info_ p; log_ := log_ p |}.

Definition set_stack_chain (v : Z) (p : Program) : Program :=
  {| roots_ := roots_ p; dispatch_table_ := dispatch_table_ p;
     entry_ := entry_ p; heap_ := heap_ p; process_heap_ := process_heap_ p;
     process_list_ := process_list_ p; processes_ := processes_ p;
     session_ := session_ p; stack_chain_ := v;
     cooked_stack_deltas_ := cooked_stack_deltas_ p; cache_ := cache_ p;
     debug_info_ := debug_info_ p; log_ := log_ p |}.

Definition set_cooked_stack_deltas (v : list (list Z)) (p : Program) : Program :=
  {| roots_ := roots_ p; dispatch_table_ := dispatch_table_ p;
     entry_ := entry_ p; heap_ := heap_ p; process_heap_ := process_heap_ p;
     process_list_ := process_list_ p; processes_ := processes_ p;
     session_ := session_ p; stack_chain_ := stack_chain_ p;
     cooked_stack_deltas_ := v; cache_ := cache_ p;
     debug_info_ := debug_info_ p; log_ := log_ p |}.

Definition set_cache (v : option (gmap Z Z)) (p : Program) : Program :=
  {| roots_ := roots_ p; dispatch_table_ := dispatch_table_ p;
     entry_ := entry_ p; heap_ := heap_ p; process_heap_ := process_heap_ p;
     process_list_ := process_list_ p; processes_ := processes_ p;
     session_ := session_ p; stack_chain_ := stack_chain_ p;
     cooked_stack_deltas_ := cooked_stack_deltas_ p; cache_ := v;
     debug_info_ := debug_info_ p; log_ := log_ p |}.

Definition set_debug_info (v : option DebugInfo) (p : Program) : Program :=
  {| roots_ := roots_ p; dispatch_table_ := dispatch_table_ p;
     entry_ := entry_ p; heap_ := heap_ p; process_heap_ := process_heap_ p;
     process_list_ := process_list_ p; processes_ := processes_ p;
     session_ := session_ p; stack_chain_ := stack_chain_ p;
     cooked_stack_deltas_ := cooked_stack_deltas_ p; cache_ := cache_ p;
     debug_info_ := v; log_ := log_ p |}.

Definition set_log (v : list Event) (p : Program) : Program :=
  {| roots_ := roots_ p; dispatch_table_ := dispatch_table_ p;
     entry_ := entry_ p; heap_ := heap_ p; process_heap_ := process_heap_ p;
     process_list_ := process_list_ p; processes_ := processes_ p;
     session_ := session_ p; stack_chain_ := stack_chain_ p;
     cooked_stack_deltas_ := cooked_stack_deltas_ p; cache_ := cache_ p;
     debug_info_ := debug_info_ p; log_ := v |}.

Definition set_space (v : SemiSpace) (h : Heap) : Heap :=
  {| space_ := v; memory_ := memory_ h; objects_ := objects_ h;
     functions_ := functions_ h |}.

Definition set_memory (v : gmap Z Z) (h : Heap) : Heap :=
  {| space_ := space_ h; memory_ := v; objects_ := objects_ h;
     functions_ := functions_ h |}.

(** *** Code over the program's state *)

Definition M (A : Type) : Type := Program → Result (A * Program).

Global Instance M_ret : MRet M := fun A a p => Ok (a, p).
Global Instance M_bind : MBind M := fun A B k m p =>
  match m p with
  | Ok (a, p') => k a p'
  | AssertionFailure => AssertionFailure
  | BadPointer => BadPointer
  end.

Definition get {A} (f : Program → A) : M A := fun p => Ok (f p, p).
Definition modify (f : Program → Program) : M unit := fun p => Ok (tt, f p).
Definition lift {A} (r : Result A) : M A := fun p => (a ← r; Ok (a, p)).

Definition emit (callee : Callee) (args : list Z) : M unit :=
  modify (fun p => set_log (log_ p ++ [Call callee args]) p).

Definition assert `{Build} (c : bool) : M unit := lift (ASSERT c).

Definition root (r : Root) : M Z := get (fun p => roots_ p r).
Definition set_root (r : Root) (v : Z) : M unit :=
  modify (fun p => set_roots (<[r := v]> (roots_ p)) p).

(** ** The program: construction of the roots *)

Inductive Marker :=
| NO_MARKER | NULL_MARKER | FALSE_MARKER | TRUE_MARKER
| COROUTINE_MARKER | PORT_MARKER.

Inductive InstanceFormat :=
| instance_format (number_of_fields : Z) (marker : Marker)
| array_format | num_format | smi_format | heap_integer_format
| double_format | boxed_format | stack_format | initializer_format
| dispatch_table_entry_format | one_byte_string_format
| two_byte_string_format | function_format | byte_array_format.

(** [InstanceFormat::fixed_size()]: the header of an instance and one word
    per field; formats of variable-size objects have none. *)
Definition fixed_size `{Build, Headers} (format : InstanceFormat) : Z :=
  match format with
  | instance_format number_of_fields _ =>
      Instance_kSize + number_of_fields * kPointerSize
  | _ => 0
  end.

Definition RoundUp (x n : Z) : Z := (x + n - 1) / n * n.

Definition enter_scope (s : SemiSpace) : SemiSpace :=
  {| top_ := top_ s; limit_ := limit_ s;
     no_allocation_failure_nesting_ := S (no_allocation_failure_nesting_ s) |}.

Definition leave_scope (s : SemiSpace) : SemiSpace :=
  {| top_ := top_ s; limit_ := limit_ s;
     no_allocation_failure_nesting_ := Nat.pred (no_allocation_failure_nesting_ s) |}.

(** Modelled from the spec: [SemiSpace::Allocate].  "Allocation returns a
    sentinel failure value when no chunk has room and no new chunk can be
    claimed; callers either retry after GC or, if inside a
    no-allocation-failure scope, append a chunk unconditionally."  The
    sentinel of the space is the address [0]. *)
Definition SemiSpace_Allocate `{Platform} (size : Z) (s : SemiSpace) : Z * SemiSpace :=
  if top_ s + size <=? limit_ s then
    (top_ s,
     {| top_ := top_ s + size; limit_ := limit_ s;
        no_allocation_failure_nesting_ := no_allocation_failure_nesting_ s |})
  else
    match no_allocation_failure_nesting_ s with
    | O => (0, s)
    | S _ =>
        let chunk := AllocateChunk size (limit_ s) in
        (chunk.1,
         {| top_ := chunk.1 + size; limit_ := chunk.2;
            no_allocation_failure_nesting_ := no_allocation_failure_nesting_ s |})
    end.

(** [NoAllocationFailureScope scope(heap_.space())] around a block. *)
Definition NoAllocationFailureScope {A} (body : M A) : M A :=
  modify (fun p => set_heap (set_space (enter_scope (space_ (heap_ p))) (heap_ p)) p);;
  a ← body;
  modify (fun p => set_heap (set_space (leave_scope (space_ (heap_ p))) (heap_ p)) p);;
  mret a.

(** [Heap::Allocate]: the object at the address the space hands out, or the
    failure value. *)
Definition Heap_Allocate `{Platform, Headers} (size : Z) : M Z := fun p =>
  let r := SemiSpace_Allocate size (space_ (heap_ p)) in
  Ok (if decide (r.1 = 0) then Failure_retry_after_gc
      else HeapObject_FromAddress r.1,
      set_heap (set_space r.2 (heap_ p)) p).

Definition IsFailure `{Headers} (object : Z) : bool :=
  bool_decide (object = Failure_retry_after_gc).

(** The constructors of the heap allocate the object and fill it in; the
    filling is theirs and shows as the call in the log. *)
Definition Heap_create `{Platform, Headers} (callee : Callee) (size : Z)
    (args : list Z) : M Z :=
  object ← Heap_Allocate size;
  emit callee (object :: args);;
  mret object.

Definition CreateMetaClass `{Platform, Headers} : M Z :=
  Heap_create Heap_CreateMetaClass Class_kSize [].

Definition CreateClass `{Platform, Headers} (format : InstanceFormat)
    (meta_class null : Z) : M Z :=
  Heap_create Heap_CreateClass Class_kSize [meta_class; null].

(** [Program::CreateArray(capacity)] with the null object as filler. *)
Definition CreateArray `{Build, Platform, Headers} (capacity : Z) : M Z :=
  array_class ← root array_class_;
  null ← root null_object_;
  Heap_create Heap_CreateArray (Array_kSize + capacity * kPointerSize)
    [array_class; capacity; null].

Definition CreateInstance `{Build, Platform, Headers} (format : InstanceFormat)
    (klass null immutable : Z) : M Z :=
  Heap_create Heap_CreateInstance (fixed_size format) [klass; null; immutable].

(** [Heap::CreateBooleanObject] builds the object at the address it is
    given; nothing is allocated. *)
Definition CreateBooleanObject (address klass null : Z) : M Z :=
  emit Heap_CreateBooleanObject [address; klass; null];;
  mret (HeapObject_FromAddress address).

Definition char_codes (str : string) : list Z :=
  (fun c => Z.of_nat (nat_of_ascii c)) <$> list_ascii_of_string str.

Fixpoint set_char_codes (result : Z) (i : Z) (codes : list Z) : M unit :=
  match codes with
  | [] => mret tt
  | c :: codes =>
      emit OneByteString_set_char_code [result; i; c];;
      set_char_codes result (i + 1) codes
  end.

(** [Program::CreateStringFromAscii]. *)
Definition CreateStringFromAscii `{Build, Platform, Headers} (str : string) : M Z :=
  klass ← root one_byte_string_class_;
  let length := Z.of_nat (String.length str) in
  raw_result ← Heap_create Heap_CreateOneByteStringUninitialized
                 (RoundUp (OneByteString_kSize + length) kPointerSize)
                 [klass; length];
  if IsFailure raw_result then mret raw_result
  else set_char_codes raw_result 0 (char_codes str);; mret raw_result.

(** [Program::VerifyObjectPlacements]. *)
Definition VerifyObjectPlacements `{Build} : M unit :=
  n ← root null_object_;
  f ← root false_object_;
  t ← root true_object_;
  assert (wrap_uword (f - n) =? 2 * kWordSize);;
  assert (wrap_uword (t - f) =? 2 * kWordSize).

(** The recurring step of [Initialize]: a class of the given format, made
    with the meta class and the null object of the roots. *)
Definition new_class `{Platform, Headers} (format : InstanceFormat) : M Z :=
  meta_class ← root meta_class_;
  null ← root null_object_;
  CreateClass format meta_class null.

Definition new_root_class `{Platform, Headers} (r : Root) (format : InstanceFormat)
    (super : option Root) : M unit :=
  klass ← new_class format;
  set_root r klass;;
  match super with
  | Some super_root =>
      super_class ← root super_root;
      emit Class_set_super_class [klass; super_class]
  | None => mret tt
  end.

(** [Program::Initialize]. *)
Definition Initialize `{Build, Platform, Headers} : M unit :=
  NoAllocationFailureScope (
    let null_format := instance_format 0 NULL_MARKER in
    null ← Heap_Allocate (fixed_size null_format);
    set_root null_object_ null;;
    let false_format := instance_format 0 FALSE_MARKER in
    false ← Heap_Allocate (fixed_size false_format);
    let false_address := HeapObject_address false in
    let true_format := instance_format 0 TRUE_MARKER in
    true ← Heap_Allocate (fixed_size true_format);
    let true_address := HeapObject_address true in
    meta_class ← CreateMetaClass;
    set_root meta_class_ meta_class;;
    new_root_class array_class_ array_format None;;
    empty_array ← CreateArray 0;
    set_root empty_array_ empty_array;;
    new_root_class object_class_ (instance_format 0 NO_MARKER) None;;
    new_root_class num_class_ num_format (Some object_class_);;
    new_root_class int_class_ num_format (Some num_class_);;
    new_root_class smi_class_ smi_format (Some int_class_);;
    new_root_class large_integer_class_ heap_integer_format (Some int_class_);;
    new_root_class double_class_ double_format (Some num_class_);;
    new_root_class boxed_class_ boxed_format None;;
    new_root_class stack_class_ stack_format None;;
    new_root_class coroutine_class_ (instance_format 2 COROUTINE_MARKER) None;;
    new_root_class port_class_ (instance_format 1 PORT_MARKER) None;;
    new_root_class process_class_ (instance_format 1 NO_MARKER) None;;
    new_root_class process_death_class_ (instance_format 2 NO_MARKER) None;;
    new_root_class foreign_memory_class_ (instance_format 4 NO_MARKER) None;;
    new_root_class initializer_class_ initializer_format None;;
    new_root_class dispatch_table_entry_class_ dispatch_table_entry_format None;;
    new_root_class constant_list_class_ (instance_format 1 NO_MARKER) None;;
    new_root_class constant_byte_list_class_ (instance_format 1 NO_MARKER) None;;
    new_root_class constant_map_class_ (instance_format 2 NO_MARKER) None;;
    new_root_class no_such_method_error_class_ (instance_format 3 NO_MARKER) None;;
    new_root_class one_byte_string_class_ one_byte_string_format (Some object_class_);;
    new_root_class two_byte_string_class_ two_byte_string_format (Some object_class_);;
    one_byte_string_class ← root one_byte_string_class_;
    empty_string ← Heap_create Heap_CreateOneByteString
                     (RoundUp OneByteString_kSize kPointerSize)
                     [one_byte_string_class; 0];
    set_root empty_string_ empty_string;;
    new_root_class function_class_ function_format None;;
    new_root_class byte_array_class_ byte_array_format None;;
    new_root_class closure_class_ (instance_format 0 NO_MARKER) None;;
    (* the null class and the null singleton *)
    null_class ← new_class null_format;
    object_class ← root object_class_;
    emit Class_set_super_class [null_class; object_class];;
    null_object ← root null_object_;
    emit HeapObject_set_class [null_object; null_class];;
    emit HeapObject_set_immutable [null_object; 1];;
    emit HeapObject_InitializeIdentityHashCode [null_object];;
    emit Instance_Initialize [null_object; fixed_size null_format; null_object];;
    (* the bool class *)
    new_root_class bool_class_ (instance_format 0 NO_MARKER) (Some object_class_);;
    (* the False class and the false object *)
    false_class ← new_class false_format;
    bool_class ← root bool_class_;
    emit Class_set_super_class [false_class; bool_class];;
    empty_array ← root empty_array_;
    emit Class_set_methods [false_class; empty_array];;
    null_object ← root null_object_;
    false_object ← CreateBooleanObject false_address false_class null_object;
    set_root false_object_ false_object;;
    (* the True class and the true object *)
    true_class ← new_class true_format;
    bool_class ← root bool_class_;
    emit Class_set_super_class [true_class; bool_class];;
    empty_array ← root empty_array_;
    emit Class_set_methods [true_class; empty_array];;
    null_object ← root null_object_;
    true_object ← CreateBooleanObject true_address true_class null_object;
    set_root true_object_ true_object;;
    (* the stack overflow error *)
    new_root_class stack_overflow_error_class_ (instance_format 0 NO_MARKER) None;;
    stack_overflow_error_class ← root stack_overflow_error_class_;
    null_object ← root null_object_;
    stack_overflow_error ← CreateInstance (instance_format 0 NO_MARKER)
                             stack_overflow_error_class null_object 1;
    set_root stack_overflow_error_ stack_overflow_error;;
    (* the payloads of the failure objects *)
    s ← CreateStringFromAscii "Retry after GC.";
    set_root raw_retry_after_gc_ s;;
    s ← CreateStringFromAscii "Wrong argument type.";
    set_root raw_wrong_argument_type_ s;;
    s ← CreateStringFromAscii "Index out of bounds.";
    set_root raw_index_out_of_bounds_ s;;
    s ← CreateStringFromAscii "Illegal state.";
    set_root raw_illegal_state_ s;;
    null_object ← root null_object_;
    set_root native_failure_result_ null_object;;
    VerifyObjectPlacements).

(** ** The program: collections of the process heap *)

Definition set_old_space (v : OldSpace) (h : TwoSpaceHeap) : TwoSpaceHeap :=
  {| old_space_ := v; heap_objects_ := heap_objects_ h; answers_ := answers_ h |}.

Definition set_heap_objects (v : gmap Z HeapObject) (h : TwoSpaceHeap) : TwoSpaceHeap :=
  {| old_space_ := old_space_ h; heap_objects_ := v; answers_ := answers_ h |}.

Definition set_answers (v : list bool) (h : TwoSpaceHeap) : TwoSpaceHeap :=
  {| old_space_ := old_space_ h; heap_objects_ := heap_objects_ h; answers_ := v |}.

(** A query whose answer is the collaborator's: the call is logged and the
    next answer taken; once the answers are used up the answer is no. *)
Definition ask (callee : Callee) : M bool :=
  emit callee [];;
  answers ← get (fun p => answers_ (process_heap_ p));
  match answers with
  | [] => mret false
  | answer :: answers =>
      modify (fun p => set_process_heap (set_answers answers (process_heap_ p)) p);;
      mret answer
  end.

Definition when (c : bool) (body : M unit) : M unit :=
  if c then body else mret tt.

(** [for (auto process : process_list_) body(process)]. *)
Fixpoint for_each (processes : list Z) (body : Z → M unit) : M unit :=
  match processes with
  | [] => mret tt
  | process :: processes => body process;; for_each processes body
  end.

(** [Program::VisitProcesses]. *)
Definition VisitProcesses (visitor : Z → M unit) : M unit :=
  processes ← get process_list_;
  for_each processes visitor.

(** [Program::ValidateHeapsAreConsistent], with
    [ValidateGlobalHeapsAreConsistent] and [ValidateSharedHeap]: the
    validators are collaborators. *)
Definition ValidateHeapsAreConsistent : M unit :=
  emit ProgramHeapPointerValidator [];;
  emit HeapPointerValidator [].

(** [Program::IterateSharedHeapRoots].  The visitors of the collections of
    the process heap are collaborators; objects of the process heap are
    named by pointer throughout, so the visit of [stack_chain_] shows as
    the call only. *)
Definition IterateSharedHeapRoots : M unit :=
  VisitProcesses (fun process => emit Process_IterateRoots [process]).

(** [Program::UpdateStackLimits]. *)
Definition UpdateStackLimits : M unit :=
  VisitProcesses (fun process => emit Process_UpdateStackLimit [process]).

Definition set_compacting (b : bool) : M unit :=
  emit OldSpace_set_compacting [if b then 1 else 0];;
  modify (fun p =>
    let h := process_heap_ p in
    set_process_heap
      (set_old_space {| compacting_ := b;
                        hard_limit_hit_ := hard_limit_hit_ (old_space_ h) |} h) p).

Definition clear_hard_limit_hit : M unit :=
  emit OldSpace_clear_hard_limit_hit [];;
  modify (fun p =>
    let h := process_heap_ p in
    set_process_heap
      (set_old_space {| compacting_ := compacting_ (old_space_ h);
                        hard_limit_hit_ := false |} h) p).

Definition CleanupPorts : M unit :=
  VisitProcesses (fun process => emit Process_set_ports [process]).

(** [Program::SweepSharedHeap]. *)
Definition SweepSharedHeap : M unit :=
  set_compacting false;;
  emit OldSpace_ProcessWeakPointers [];;
  CleanupPorts;;
  emit OldSpace_IterateObjects [];;
  emit SemiSpace_ClearMarkBits [];;
  UpdateStackLimits;;
  emit OldSpace_set_used [];;
  emit TwoSpaceHeap_AdjustOldAllocationBudget [].

(** [Program::CompactSharedHeap]. *)
Definition CompactSharedHeap : M unit :=
  set_compacting true;;
  emit OldSpace_ComputeCompactionDestinations [];;
  emit OldSpace_ClearFreeList [];;
  emit OldSpace_ProcessWeakPointers [];;
  CleanupPorts;;
  emit OldSpace_ZapObjectStarts [];;
  emit OldSpace_IterateObjects [];;
  emit OldSpace_set_used [];;
  emit SemiSpace_IterateObjects [];;
  IterateSharedHeapRoots;;
  emit SemiSpace_ClearMarkBits [];;
  emit OldSpace_ClearMarkBits [];;
  emit OldSpace_MarkChunkEndsFree [].

(** [Program::PerformSharedGarbageCollection]. *)
Definition PerformSharedGarbageCollection `{Build, Flags} : M unit :=
  emit Program_PerformSharedGarbageCollection [];;
  IterateSharedHeapRoots;;
  emit MarkingStack_Process [];;
  compacting ← get (fun p => compacting_ (old_space_ (process_heap_ p)));
  ((if (compacting : bool) then
      emit OldSpace_EvaluatePointlessness [];;
      clear_hard_limit_hit;;
      SweepSharedHeap
    else
      clear_hard_limit_hit;;
      CompactSharedHeap) : M unit);;
  emit TwoSpaceHeap_AdjustOldAllocationBudget [];;
  when (debug && validate_heaps) (emit OldSpace_Verify []).

(** [Program::CollectOldSpace]. *)
Definition CollectOldSpace `{Build, Flags} : M unit :=
  when validate_heaps ValidateHeapsAreConsistent;;
  PerformSharedGarbageCollection;;
  when print_heap_statistics (emit Print_Error []);;
  when validate_heaps ValidateHeapsAreConsistent.

(** [Program::CollectOldSpaceIfNeeded]. *)
Definition CollectOldSpaceIfNeeded `{Build, Flags} (force : bool) : M unit :=
  needed ← (if force then (mret true : M bool)
            else ask OldSpace_needs_garbage_collection);
  when needed (
    emit OldSpace_Flush [];;
    CollectOldSpace;;
    when (debug && validate_heaps) (emit OldSpace_Verify [])).

(** The loop of [CollectNewSpace] that runs the scavenge to its end: it goes
    on as long as one of the two spaces reports work.  Every round takes
    answers, and with the answers used up the report is no work, so one
    round more than there are answers is enough. *)
Fixpoint CompleteScavenge_loop (rounds : nat) : M unit :=
  match rounds with
  | O => mret tt
  | S rounds =>
      work_found ← ask SemiSpace_CompleteScavengeGenerational;
      more ← ask OldSpace_CompleteScavengeGenerational;
      if work_found || more then CompleteScavenge_loop rounds else mret tt
  end.

(** [Program::CollectNewSpace]. *)
Definition CollectNewSpace `{Build, Flags} : M unit :=
  emit Program_CollectNewSpace [];;
  empty ← ask TwoSpaceHeap_HasEmptyNewSpace;
  if (empty : bool) then CollectOldSpaceIfNeeded false
  else
    emit OldSpace_Flush [];;
    emit SemiSpace_Flush [];;
    when (debug && validate_heaps) (emit OldSpace_Verify []);;
    emit SemiSpace_set_used [];;
    emit SemiSpace_UpdateBaseAndLimit [];;
    emit SemiSpace_StartScavenge [];;
    emit OldSpace_StartScavenge [];;
    IterateSharedHeapRoots;;
    emit OldSpace_VisitRememberedSet [];;
    rounds ← get (fun p => S (List.length (answers_ (process_heap_ p))));
    CompleteScavenge_loop rounds;;
    emit OldSpace_EndScavenge [];;
    emit SemiSpace_ProcessWeakPointers [];;
    CleanupPorts;;
    emit TwoSpaceHeap_SwapSemiSpaces [];;
    when print_heap_statistics (emit Print_Error []);;
    when (debug && validate_heaps) (emit OldSpace_Verify []);;
    (* [progress > 0], computed from what the spaces report as used *)
    progress ← ask SemiSpace_Used;
    when progress (emit OldSpace_ReportNewSpaceProgress []);;
    trigger ← ask GenerationalScavengeVisitor_trigger_old_space_gc;
    CollectOldSpaceIfNeeded trigger;;
    UpdateStackLimits.

(** ** The program: collection of the program heap *)

(** What a program collection is given from outside: the pointer visitor
    of the scavenger, as the map from the value of a slot to the value the
    visit leaves there, and the to-space once the scavenge is complete.
    The scopes [NoAllocationFailureScope scope(to)] of [CollectGarbage] and
    of [PerformProgramGC] cover the allocations of the scavenger in the
    to-space and nothing else: [to] is the space as the collection leaves
    it, with these scopes closed. *)
Record ScavengeVisitor := {
  Visit : Z → Z;
  to : Heap
}.

Definition set_frames (frames : list Z) (s : Stack) : Stack :=
  {| length_ := length_ s; frames_ := frames; next_ := next_ s |}.

Definition set_next (next : Z) (s : Stack) : Stack :=
  {| length_ := length_ s; frames_ := frames_ s; next_ := next |}.

Definition set_stack (pointer : Z) (s : Stack) : M unit :=
  modify (fun p =>
    let h := process_heap_ p in
    set_process_heap
      (set_heap_objects (<[pointer := StackObject s]> (heap_objects_ h)) h) p).

(** [Program::ClearCache]. *)
Definition ClearCache : M unit :=
  emit Program_ClearCache [];;
  cache ← get cache_;
  match cache with
  | Some _ => emit LookupCache_Clear [];; modify (set_cache (Some ∅))
  | None => mret tt
  end.

(** [Program::ClearDispatchTableIntrinsics]. *)
Definition ClearDispatchTableIntrinsics : M unit :=
  emit Program_ClearDispatchTableIntrinsics [];;
  table ← get dispatch_table_;
  match table with
  | None => mret tt
  | Some table =>
      modify (set_dispatch_table
        (Some ((fun entry => {| target_ := target_ entry; code_ := NULL |}) <$> table)))
  end.

(** Modelled from the spec: the marking visitor of
    [CollectMutableGarbageAndChainStacks], which is to "chain all stacks
    across processes into a singly-linked list rooted at the program's
    [stack_chain_] field, using the stack's [next] slot; terminate with a
    sentinel immediate-zero".  The stacks of the process heap are met in
    the order of the heap's iteration; each becomes the head of the chain
    and points to the head before it. *)
Definition chain_step (acc : Z * nat * gmap Z HeapObject) (it : Z * HeapObject)
    : Z * nat * gmap Z HeapObject :=
  match it.2 with
  | StackObject s => (it.1, S acc.1.2, <[it.1 := StackObject (set_next acc.1.1 s)]> acc.2)
  | CoroutineObject _ => acc
  end.

Definition ChainStacks : M Z := fun p =>
  let heap := heap_objects_ (process_heap_ p) in
  let r := foldl chain_step (stack_chain_ p, O, heap) (map_to_list heap) in
  Ok (Z.of_nat r.1.2,
      set_stack_chain r.1.1
        (set_process_heap (set_heap_objects r.2 (process_heap_ p)) p)).

(** [Program::CollectMutableGarbageAndChainStacks]. *)
Definition CollectMutableGarbageAndChainStacks `{Build, Flags} : M Z :=
  emit Program_CollectMutableGarbageAndChainStacks [];;
  stack_chain ← get stack_chain_;
  assert (bool_decide (stack_chain = NULL));;
  IterateSharedHeapRoots;;
  emit MarkingStack_Process [];;
  number_of_stacks ← ChainStacks;
  CompactSharedHeap;;
  UpdateStackLimits;;
  when (debug && validate_heaps) (emit OldSpace_Verify []);;
  mret number_of_stacks.

(** Modelled from the spec: [Frame::FunctionFromByteCodePointer], the
    "function-from-bcp lookup that succeeds because every function's
    bytecode region is contained in a uniquely addressable chunk of program
    space".  A frame without bytecode pointer has no function; otherwise
    the function is the one whose bytecodes the pointer points into. *)
Definition FunctionFromByteCodePointer `{Headers}
    (functions : gmap Z FunctionObject) (bcp : Z) : Z :=
  if decide (bcp = NULL) then NULL
  else
    match List.find
            (fun f : Z * FunctionObject =>
               (bytecode_address_for f.1 0 <=? bcp) &&
               (bcp <? bytecode_address_for f.1 0 + bytecode_size f.2))
            (map_to_list functions) with
    | Some f => f.1
    | None => NULL
    end.

(** The loop of [CookStacks] over the frames of one stack: [index] counts
    the frames that have a function, [deltas] is [cooked_stack_deltas_[i]]. *)
Fixpoint cook_frames `{Headers} (functions : gmap Z FunctionObject)
    (frames : list Z) (index : nat) (deltas : list Z) : list Z * list Z :=
  match frames with
  | [] => ([], deltas)
  | bcp :: frames =>
      let function := FunctionFromByteCodePointer functions bcp in
      if decide (function = NULL) then
        let r := cook_frames functions frames index deltas in
        (bcp :: r.1, r.2)
      else
        let start := bytecode_address_for function 0 in
        let delta := wrap_int (bcp - start) in
        let r := cook_frames functions frames (S index) (<[index := delta]> deltas) in
        (function :: r.1, r.2)
  end.

(** The loop of [CookStacks] over the chain. *)
Fixpoint CookStacks_loop `{Headers} (count : nat) (i : nat) (raw_current : Z) : M Z :=
  match count with
  | O => mret raw_current
  | S count =>
      heap ← get (fun p => heap_objects_ (process_heap_ p));
      current ← lift (Stack_cast heap raw_current);
      let number_of_frames := List.length (frames_ current) in
      functions ← get (fun p => functions_ (heap_ p));
      let r := cook_frames functions (frames_ current) O
                 (replicate number_of_frames 0) in
      modify (fun p => set_cooked_stack_deltas
                         (<[i := r.2]> (cooked_stack_deltas_ p)) p);;
      set_stack raw_current (set_frames r.1 current);;
      CookStacks_loop count (S i) (next_ current)
  end.

(** [Program::CookStacks]. *)
Definition CookStacks `{Build, Headers} (number_of_stacks : Z) : M unit :=
  emit Program_CookStacks [number_of_stacks];;
  modify (set_cooked_stack_deltas (replicate (Z.to_nat number_of_stacks) []));;
  raw_current ← get stack_chain_;
  raw_current ← CookStacks_loop (Z.to_nat number_of_stacks) O raw_current;
  assert (bool_decide (raw_current = Smi_zero)).

(** The loop of [UncookAndUnchainStacks] over the frames of one stack. *)
Fixpoint uncook_frames `{Headers} (frames : list Z) (index : nat)
    (deltas : list Z) : Result (list Z) :=
  match frames with
  | [] => Ok []
  | value :: frames =>
      if decide (value = NULL) then
        r ← uncook_frames frames index deltas;
        Ok (value :: r)
      else
        delta ← deref (deltas !! index);
        let bcp := bytecode_address_for value 0 + delta in
        r ← uncook_frames frames (S index) deltas;
        Ok (bcp :: r)
  end.

(** The loop of [UncookAndUnchainStacks] over the chain. *)
Fixpoint UncookAndUnchainStacks_loop `{Headers} (count : nat) (i : nat)
    (raw_current : Z) : M Z :=
  match count with
  | O => mret raw_current
  | S count =>
      heap ← get (fun p => heap_objects_ (process_heap_ p));
      current ← lift (Stack_cast heap raw_current);
      cooked_stack_deltas ← get cooked_stack_deltas_;
      deltas ← lift (deref (cooked_stack_deltas !! i));
      frames ← lift (uncook_frames (frames_ current) O deltas);
      modify (fun p => set_cooked_stack_deltas
                         (<[i := []]> (cooked_stack_deltas_ p)) p);;
      set_stack raw_current (set_next (Smi_FromWord 0) (set_frames frames current));;
      UncookAndUnchainStacks_loop count (S i) (next_ current)
  end.

(** [Program::UncookAndUnchainStacks]. *)
Definition UncookAndUnchainStacks `{Build, Headers} : M unit :=
  emit Program_UncookAndUnchainStacks [];;
  raw_current ← get stack_chain_;
  cooked_stack_deltas ← get cooked_stack_deltas_;
  raw_current ← UncookAndUnchainStacks_loop
                  (List.length cooked_stack_deltas) O raw_current;
  assert (bool_decide (raw_current = Smi_zero));;
  modify (set_cooked_stack_deltas []);;
  modify (set_stack_chain NULL).

(** [Program::PrepareProgramGC]. *)
Definition PrepareProgramGC `{Build, Flags, Headers} : M unit :=
  when validate_heaps ValidateHeapsAreConsistent;;
  PerformSharedGarbageCollection;;
  CollectNewSpace;;
  number_of_stacks ← CollectMutableGarbageAndChainStacks;
  CookStacks number_of_stacks.

Definition set_process_debug_info (v : option DebugInfo) (process : Process) : Process :=
  {| parent_ := parent_ process;
     process_triangle_count_ := process_triangle_count_ process;
     allocation_failed_ := allocation_failed_ process;
     process_debug_info_ := v |}.

Definition update_process (pointer : Z) (f : Process → Process) : M unit :=
  processes ← get processes_;
  process ← lift (deref (processes !! pointer));
  modify (set_processes (<[pointer := f process]> processes)).

(** [Program::IterateRootsIgnoringSession]. *)
Definition IterateRootsIgnoringSession (visitor : Z → Z) : M unit :=
  modify (fun p => set_roots (fun r => visitor (roots_ p r)) p);;
  modify (fun p => set_entry (visitor (entry_ p)) p).

(** [Program::IterateRoots]. *)
Definition IterateRoots (visitor : Z → Z) : M unit :=
  IterateRootsIgnoringSession visitor;;
  modify (fun p => set_debug_info (VisitProgramPointers visitor <$> debug_info_ p) p);;
  session ← get session_;
  when (bool_decide (session ≠ NULL)) (emit Session_IteratePointers [session]).

(** Modelled from the spec: [Process::IterateProgramPointers], the visit
    of "the program-space pointers held by every process": of these the
    development follows the functions of the process's breakpoints. *)
Definition Process_IterateProgramPointers_ (visitor : Z → Z) (process : Z) : M unit :=
  emit Process_IterateProgramPointers [process];;
  update_process process (fun r =>
    set_process_debug_info (VisitProgramPointers visitor <$> process_debug_info_ r) r).

(** Modelled from the spec: the visit of "every pointer stored inside
    process-heap objects" while the stacks are cooked. *)
Definition CookedHeapObjectPointerVisitor (visitor : Z → Z) (object : HeapObject)
    : HeapObject :=
  match object with
  | StackObject s =>
      StackObject {| length_ := length_ s;
                     frames_ := visitor <$> frames_ s;
                     next_ := visitor (next_ s) |}
  | CoroutineObject c => CoroutineObject {| stack_ := visitor (stack_ c) |}
  end.

Definition is_empty (space : Heap) : bool := bool_decide (objects_ space = []).

(** [Program::PerformProgramGC].  The completion of the scavenge reaches the
    objects of the program heap, among them the entries of the dispatch
    table, whose targets it visits. *)
Definition PerformProgramGC `{Build} (to : Heap) (visitor : Z → Z) : M unit :=
  emit Program_PerformProgramGC [];;
  IterateRoots visitor;;
  VisitProcesses (Process_IterateProgramPointers_ visitor);;
  modify (fun p =>
    let h := process_heap_ p in
    set_process_heap
      (set_heap_objects (CookedHeapObjectPointerVisitor visitor <$> heap_objects_ h) h) p);;
  assert (negb (is_empty to));;
  emit SemiSpace_CompleteScavenge [];;
  modify (fun p =>
    set_dispatch_table
      ((fun table : list DispatchTableEntry =>
          (fun entry => {| target_ := visitor (target_ entry);
                           code_ := code_ entry |}) <$> table)
         <$> dispatch_table_ p) p);;
  emit Heap_ReplaceSpace [];;
  modify (set_heap to).

(** Modelled from the spec: [Process::UpdateBreakpoints], the rekeying of
    the breakpoints of the process's own debug info. *)
Definition Process_UpdateBreakpoints_ `{Headers} (process : Z) : M unit :=
  emit Process_UpdateBreakpoints [process];;
  update_process process (fun r =>
    set_process_debug_info (UpdateBreakpoints <$> process_debug_info_ r) r).

(** [Program::FinishProgramGC]. *)
Definition FinishProgramGC `{Build, Flags, Headers} : M unit :=
  UncookAndUnchainStacks;;
  VisitProcesses Process_UpdateBreakpoints_;;
  debug_info ← get debug_info_;
  match debug_info with
  | Some d =>
      emit DebugInfo_UpdateBreakpoints [];;
      modify (set_debug_info (Some (UpdateBreakpoints d)))
  | None => mret tt
  end;;
  VerifyObjectPlacements;;
  when validate_heaps ValidateHeapsAreConsistent.

(** [Program::CollectGarbage]. *)
Definition CollectGarbage `{Build, Flags, Headers} (scavenger : ScavengeVisitor) : M unit :=
  ClearCache;;
  PrepareProgramGC;;
  PerformProgramGC (to scavenger) (Visit scavenger);;
  FinishProgramGC.

(** ** The program: re-boxing of the integers that are not portable *)

Definition load (address : Z) : M Z :=
  memory ← get (fun p => memory_ (heap_ p));
  lift (deref (memory !! address)).

Definition store (address value : Z) : M unit :=
  modify (fun p =>
    set_heap (set_memory (<[address := value]> (memory_ (heap_ p))) (heap_ p)) p).

(** [to_->Allocate(size)] on the space of the program heap. *)
Definition space_Allocate `{Platform} (size : Z) : M Z := fun p =>
  let r := SemiSpace_Allocate size (space_ (heap_ p)) in
  Ok (r.1, set_heap (set_space r.2 (heap_ p)) p).

(** The slots [p] of [for (Object** p = start; p < end; p++)]. *)
Definition block `{Build} (start end_ : Z) : list Z :=
  (fun i => start + i * kPointerSize)
    <$> seqZ 0 ((end_ - start + kPointerSize - 1) / kPointerSize).

(** The body of the loop of [BigSmiFixer::VisitBlock]. *)
Definition BigSmiFixer_visit `{Build, Platform, Headers}
    (large_integer_class : Z) (p : Z) : M unit :=
  object ← load p;
  if negb (IsSmi object) then mret tt
  else if Smi_IsValidAsPortable (Smi_value object) then mret tt
  else
    new_address ← space_Allocate LargeInteger_kSize;
    assert (negb (bool_decide (new_address = 0)));;
    store new_address large_integer_class;;
    store (new_address + kPointerSize) (Smi_value object);;
    assert (bool_decide (LargeInteger_kSize = kPointerSize + kWordSize));;
    store p (HeapObject_FromAddress new_address).

(** [BigSmiFixer::VisitBlock]. *)
Definition BigSmiFixer_VisitBlock `{Build, Platform, Headers}
    (large_integer_class : Z) (start end_ : Z) : M unit :=
  for_each (block start end_) (BigSmiFixer_visit large_integer_class).

(** Modelled from the spec: [HeapObject::IterateEverything], the iteration
    that "includes immediates, for integer rewriting": the visitor is handed
    the slots of the object, from the first to the last, as one block. *)
Definition HeapObject_IterateEverything (object : Z * Z)
    (VisitBlock : Z → Z → M unit) : M unit :=
  VisitBlock object.1 object.2.

(** [FindOversizedSmiVisitor::Visit]. *)
Definition FindOversizedSmiVisitor_Visit `{Build, Platform, Headers}
    (large_integer_class : Z) (object : Z * Z) : M unit :=
  HeapObject_IterateEverything object (BigSmiFixer_VisitBlock large_integer_class).

(** Modelled from the spec: [Heap::IterateObjects], by which "the space is
    iterated by walking chunk by chunk, reading the size from each object's
    header to advance": the visitor sees the objects of the space one after
    the other. *)
Fixpoint IterateObjects_loop (objects : list (Z * Z))
    (visitor : Z * Z → M unit) : M unit :=
  match objects with
  | [] => mret tt
  | object :: objects => visitor object;; IterateObjects_loop objects visitor
  end.

Definition Heap_IterateObjects_ (visitor : Z * Z → M unit) : M unit :=
  objects ← get (fun p => objects_ (heap_ p));
  IterateObjects_loop objects visitor.

(** The block at the start of [Program::SnapshotGC] that is compiled on
    64-bit targets ([DARTINO64]) and runs before the collections. *)
Definition SnapshotGC_FixOversizedSmis `{Build, Platform, Headers} : M unit :=
  match width with
  | W64 =>
      NoAllocationFailureScope (
        large_integer_class ← root large_integer_class_;
        Heap_IterateObjects_ (FindOversizedSmiVisitor_Visit large_integer_class))
  | W32 => mret tt
  end.

(** [scavenger.Visit(slot)] on the slot of a root: the visitor rewrites the
    slot in place. *)
Definition visit_root_slot (visitor : Z → Z) (r : Root) : M unit :=
  value ← root r;
  set_root r (visitor value).

(** [Program::SnapshotGC].  Each of its two collections has a scavenger of
    its own, given from outside as for [CollectGarbage]: [first] is the
    scavenger of the call of [CollectGarbage], [second] the one that
    [SnapshotGC] makes itself.  The walk of [FindDoubleVisitor] over the
    heap hands the boxed doubles to the second scavenger and the pointers
    of every object to the popularity counter; both are collaborators, and
    the walk shows as the call, as do the calls of the popularity
    counter. *)
Definition SnapshotGC `{Build, Flags, Platform, Headers}
    (first second : ScavengeVisitor) : M unit :=
  SnapshotGC_FixOversizedSmis;;
  CollectGarbage first;;
  PrepareProgramGC;;
  emit Heap_IterateObjects [];;
  emit PopularityCounter_FindMostPopular [];;
  visit_root_slot (Visit second) double_class_;;
  visit_root_slot (Visit second) null_object_;;
  visit_root_slot (Visit second) false_object_;;
  visit_root_slot (Visit second) true_object_;;
  emit PopularityCounter_VisitMostPopular [];;
  PerformProgramGC (to second) (Visit second);;
  FinishProgramGC.

(** ** The program: processes *)

Definition set_allocation_failed (v : bool) (process : Process) : Process :=
  {| parent_ := parent_ process;
     process_triangle_count_ := process_triangle_count_ process;
     allocation_failed_ := v;
     process_debug_info_ := process_debug_info_ process |}.

Definition set_process_triangle_count (v : Z) (process : Process) : Process :=
  {| parent_ := parent_ process;
     process_triangle_count_ := v;
     allocation_failed_ := allocation_failed_ process;
     process_debug_info_ := process_debug_info_ process |}.

(** Modelled from the spec: [new Process(program, parent)].  The process
    knows its parent and counts itself among its living descendants;
    whether its allocations in the process heap failed is the heap's
    answer. *)
Definition Process_new_ `{ProcessAllocator} (parent : Z) : M Z :=
  failed ← ask Process_new;
  process ← get (fun p => operator_new (processes_ p));
  modify (fun p =>
    set_processes
      (<[process := {| parent_ := parent; process_triangle_count_ := 1;
                       allocation_failed_ := failed;
                       process_debug_info_ := None |}]> (processes_ p)) p);;
  mret process.

(** [Process::AllocationFailed]. *)
Definition Process_AllocationFailed (process : Z) : M bool :=
  processes ← get processes_;
  r ← lift (deref (processes !! process));
  mret (allocation_failed_ r).

(** Modelled from the spec: [Process::SetupExecutionStack] allocates the
    stack of the process in the process heap, and the heap's answer says
    whether that failed. *)
Definition Process_SetupExecutionStack_ (process : Z) : M unit :=
  failed ← ask Process_SetupExecutionStack;
  when failed (update_process process (set_allocation_failed true)).

(** [process->Cleanup(Signal::kTerminated); delete process]: the cleanup
    is the process's own and shows as the call. *)
Definition Process_Cleanup_and_delete (process : Z) : M unit :=
  emit Process_Cleanup [process];;
  emit Process_delete [process];;
  modify (fun p => set_processes (delete process (processes_ p)) p).

(** [Program::AddToProcessList]. *)
Definition AddToProcessList `{Build} (process : Z) : M unit :=
  failed ← Process_AllocationFailed process;
  assert (negb failed);;
  modify (fun p => set_process_list (process_list_ p ++ [process]) p).

(** [Program::SpawnProcess]. *)
Definition SpawnProcess `{Build, ProcessAllocator} (parent : Z) : M Z :=
  process ← Process_new_ parent;
  failed ← Process_AllocationFailed process;
  if (failed : bool) then
    Process_Cleanup_and_delete process;;
    mret NULL
  else
    Process_SetupExecutionStack_ process;;
    failed ← Process_AllocationFailed process;
    if (failed : bool) then
      Process_Cleanup_and_delete process;;
      mret NULL
    else
      when (negb (bool_decide (parent = NULL)))
        (update_process parent (fun r =>
           set_process_triangle_count
             (wrap_int (process_triangle_count_ r + 1)) r));;
      AddToProcessList process;;
      mret process.

(** An allocation of [SpawnProcess] fails: the first answer of the heap
    is a failure, or the first is not and the second is. *)
Definition allocation_fails (answers : list bool) : bool :=
  match answers with
  | true :: _ => true
  | false :: true :: _ => true
  | _ => false
  end.

(** ** The program: the intrinsics of the dispatch table *)

(** The loop of [SetupDispatchTableIntrinsics] over the entries of the
    table; [hits] counts the entries that have their code already or whose
    target is not the trampoline.  [ComputeIntrinsic target] stands for
    [target->ComputeIntrinsic(intrinsics)]. *)
Fixpoint setup_entries (ComputeIntrinsic : Z → Z) (method_entry trampoline : Z)
    (hits : Z) (table : list DispatchTableEntry) : Z * list DispatchTableEntry :=
  match table with
  | [] => (hits, [])
  | entry :: table =>
      if decide (code_ entry ≠ NULL) then
        let r := setup_entries ComputeIntrinsic method_entry trampoline
                   (wrap_int (hits + 1)) table in
        (r.1, entry :: r.2)
      else
        let target := target_ entry in
        let hits := if decide (target ≠ trampoline)
                    then wrap_int (hits + 1) else hits in
        let code := ComputeIntrinsic target in
        let code := if decide (code = NULL) then method_entry else code in
        let r := setup_entries ComputeIntrinsic method_entry trampoline
                   hits table in
        (r.1, {| target_ := target; code_ := code |} :: r.2)
  end.

(** [Program::SetupDispatchTableIntrinsics].  The entries of the table are
    objects of their own, as in [ClearDispatchTableIntrinsics].  The result
    is what the function prints: the hits and the length of the table, when
    the statistics of the program are asked for. *)
Definition SetupDispatchTableIntrinsics `{Flags} (ComputeIntrinsic : Z → Z)
    (method_entry : Z) : M (option (Z * Z)) :=
  table ← get dispatch_table_;
  match table with
  | None => mret None
  | Some table =>
      let length := Z.of_nat (List.length table) in
      entry ← lift (deref (table !! O));
      let trampoline := target_ entry in
      let r := setup_entries ComputeIntrinsic method_entry trampoline 0 table in
      modify (set_dispatch_table (Some r.2));;
      mret (if print_program_statistics then Some (r.1, length) else None)
  end.

(** ** The program: the end of a process *)

(** [Signal::Kind]. *)
Inductive Signal_Kind :=
| kTerminated | kCompileTimeError | kUncaughtException
| kUnhandledSignal | kKilled | kShouldKill.

(** What a deletion reads of the processes and does not change: whether
    the state of a process is [Process::kWaitingForChildren], and the exit
    signal of its links. *)
Class ProcessViews := {
  waiting_for_children : Z → bool;
  exit_signal : Z → Signal_Kind
}.

(** [Program::RemoveFromProcessList]: the process is unlinked from the
    list. *)
Definition RemoveFromProcessList (process : Z) : M unit :=
  modify (fun p =>
    set_process_list (filter (fun x => x ≠ process) (process_list_ p)) p).

(** The loop of [ScheduleProcessForDeletion] up the hierarchy of the
    processes.  [exit_kind] is the field [exit_kind_] of the program, which
    the loop may write.  Every round but the last deletes a process, so the
    loop makes at most one round more than there are processes; a round
    without [fuel] has no result. *)
Fixpoint ScheduleProcessForDeletion_loop `{Build, ProcessViews} (fuel : nat)
    (current : Z) (exit_kind : Signal_Kind) : M (option (bool * Signal_Kind)) :=
  if decide (current = NULL) then mret (Some (true, exit_kind))
  else
    match fuel with
    | O => mret None
    | S fuel =>
        processes ← get processes_;
        r ← lift (deref (processes !! current));
        let parent := parent_ r in
        let new_count := wrap_int (process_triangle_count_ r - 1) in
        modify (set_processes
                  (<[current := set_process_triangle_count new_count r]> processes));;
        assert (0 <=? new_count);;
        if 0 <? new_count then mret (Some (false, exit_kind))
        else
          let exit_kind :=
            if decide (parent = NULL) then exit_signal current else exit_kind in
          RemoveFromProcessList current;;
          emit Process_delete [current];;
          modify (fun p => set_processes (delete current (processes_ p)) p);;
          ScheduleProcessForDeletion_loop fuel parent exit_kind
    end.

(** [Program::ScheduleProcessForDeletion].  The kind goes to the cleanup of
    the process, which is the process's own and shows as the call.  The
    result is the answer together with [exit_kind_] as the function leaves
    it. *)
Definition ScheduleProcessForDeletion `{Build, ProcessViews} (process : Z)
    (kind : Signal_Kind) (exit_kind : Signal_Kind)
    : M (option (bool * Signal_Kind)) :=
  assert (waiting_for_children process);;
  emit Process_Cleanup [process];;
  fuel ← get (fun p => S (size (processes_ p)));
  ScheduleProcessForDeletion_loop fuel process exit_kind.

(** ** Reading the log *)

(** The phases of a program collection, and the calls that mark them. *)
Inductive Phase :=
| ClearLookupCache | ClearDispatchTableCode | SharedOldSpaceGC
| NewSpaceScavenge | ChainStacksPhase | CookStacksPhase
| ProgramSpaceScavenge | UncookAndUnchain | BreakpointUpdate.

Definition phase_of (e : Event) : option Phase :=
  match e with
  | Call Program_ClearCache _ => Some ClearLookupCache
  | Call Program_ClearDispatchTableIntrinsics _ => Some ClearDispatchTableCode
  | Call Program_PerformSharedGarbageCollection _ => Some SharedOldSpaceGC
  | Call SemiSpace_StartScavenge _ => Some NewSpaceScavenge
  | Call Program_CollectMutableGarbageAndChainStacks _ => Some ChainStacksPhase
  | Call Program_CookStacks _ => Some CookStacksPhase
  | Call Program_PerformProgramGC _ => Some ProgramSpaceScavenge
  | Call Program_UncookAndUnchainStacks _ => Some UncookAndUnchain
  | Call Process_UpdateBreakpoints _ => Some BreakpointUpdate
  | Call DebugInfo_UpdateBreakpoints _ => Some BreakpointUpdate
  | _ => None
  end.

Definition phases (events : list Event) : list Phase := omap phase_of events.

(** The order of the phases as the specification lists them. *)
Definition specified_order : list Phase :=
  [ClearDispatchTableCode; SharedOldSpaceGC; NewSpaceScavenge;
   ChainStacksPhase; CookStacksPhase; ProgramSpaceScavenge;
   UncookAndUnchain; BreakpointUpdate].

(** The calls by which a shared collection of the old space is judged:
    the evaluation of pointlessness, the reset of the hard limit, the
    choice between sweeping ([set_compacting(false)], with which
    [SweepSharedHeap] starts) and compacting ([set_compacting(true)], with
    which [CompactSharedHeap] starts), the computing of the destinations,
    which only a compaction does, and the walk over the old space. *)
Inductive CycleStep :=
| Evaluate | ClearHardLimit | SetCompacting (compacting : bool)
| ComputeDestinations | Walk.

Definition cycle_step_of (e : Event) : option CycleStep :=
  match e with
  | Call OldSpace_EvaluatePointlessness _ => Some Evaluate
  | Call OldSpace_clear_hard_limit_hit _ => Some ClearHardLimit
  | Call OldSpace_set_compacting [flag] =>
      Some (SetCompacting (negb (bool_decide (flag = 0))))
  | Call OldSpace_ComputeCompactionDestinations _ => Some ComputeDestinations
  | Call OldSpace_IterateObjects _ => Some Walk
  | _ => None
  end.

(** What the collections of the process heap leave alone. *)
Definition core (p : Program) :=
  (roots_ p, dispatch_table_ p, entry_ p, heap_ p,
   heap_objects_ (process_heap_ p), process_list_ p, processes_ p,
   session_ p, stack_chain_ p, cooked_stack_deltas_ p, debug_info_ p).

End Program.

(** ** The statistics of the program heap *)

Module Statistics.

(** What the visitor asks of an object. *)
Record HeapObjectView := {
  Size : Z;
  IsClass : bool;
  IsArray : bool;
  IsOneByteString : bool;
  IsTwoByteString : bool;
  IsFunction : bool;
  ArraySize : Z;
  StringSize : Z;
  FunctionSize : Z;
  bytecode_size : Z
}.

(** [StatisticsVisitor]: its counters, all of type [int]. *)
Record StatisticsVisitor := {
  object_count_ : Z;
  class_count_ : Z;
  array_count_ : Z;
  array_size_ : Z;
  string_count_ : Z;
  string_size_ : Z;
  function_count_ : Z;
  function_size_ : Z;
  bytecode_size_ : Z
}.

(** [StatisticsVisitor::StatisticsVisitor()]. *)
Definition StatisticsVisitor_new : StatisticsVisitor :=
  {| object_count_ := 0; class_count_ := 0; array_count_ := 0;
     array_size_ := 0; string_count_ := 0; string_size_ := 0;
     function_count_ := 0; function_size_ := 0; bytecode_size_ := 0 |}.

Definition VisitClass (clazz : HeapObjectView) (v : StatisticsVisitor)
    : StatisticsVisitor :=
  {| object_count_ := object_count_ v;
     class_count_ := wrap_int (class_count_ v + 1);
     array_count_ := array_count_ v; array_size_ := array_size_ v;
     string_count_ := string_count_ v; string_size_ := string_size_ v;
     function_count_ := function_count_ v; function_size_ := function_size_ v;
     bytecode_size_ := bytecode_size_ v |}.

Definition VisitArray (array : HeapObjectView) (v : StatisticsVisitor)
    : StatisticsVisitor :=
  {| object_count_ := object_count_ v; class_count_ := class_count_ v;
     array_count_ := wrap_int (array_count_ v + 1);
     array_size_ := wrap_int (array_size_ v + ArraySize array);
     string_count_ := string_count_ v; string_size_ := string_size_ v;
     function_count_ := function_count_ v; function_size_ := function_size_ v;
     bytecode_size_ := bytecode_size_ v |}.

(** [VisitOneByteString] and [VisitTwoByteString] do the same. *)
Definition VisitString (str : HeapObjectView) (v : StatisticsVisitor)
    : StatisticsVisitor :=
  {| object_count_ := object_count_ v; class_count_ := class_count_ v;
     array_count_ := array_count_ v; array_size_ := array_size_ v;
     string_count_ := wrap_int (string_count_ v + 1);
     string_size_ := wrap_int (string_size_ v + StringSize str);
     function_count_ := function_count_ v; function_size_ := function_size_ v;
     bytecode_size_ := bytecode_size_ v |}.

Definition VisitFunction (function : HeapObjectView) (v : StatisticsVisitor)
    : StatisticsVisitor :=
  {| object_count_ := object_count_ v; class_count_ := class_count_ v;
     array_count_ := array_count_ v; array_size_ := array_size_ v;
     string_count_ := string_count_ v; string_size_ := string_size_ v;
     function_count_ := wrap_int (function_count_ v + 1);
     function_size_ := wrap_int (function_size_ v + FunctionSize function);
     bytecode_size_ := wrap_int (bytecode_size_ v + bytecode_size function) |}.

(** [StatisticsVisitor::Visit]: the size of the object, and the visitor
    with the object counted. *)
Definition Visit (object : HeapObjectView) (v : StatisticsVisitor)
    : Z * StatisticsVisitor :=
  let size := Size object in
  let v := {| object_count_ := wrap_int (object_count_ v + 1);
              class_count_ := class_count_ v;
              array_count_ := array_count_ v; array_size_ := array_size_ v;
              string_count_ := string_count_ v; string_size_ := string_size_ v;
              function_count_ := function_count_ v;
              function_size_ := function_size_ v;
              bytecode_size_ := bytecode_size_ v |} in
  let v :=
    if IsClass object then VisitClass object v
    else if IsArray object then VisitArray object v
    else if IsOneByteString object then VisitString object v
    else if IsTwoByteString object then VisitString object v
    else if IsFunction object then VisitFunction object v
    else v in
  (size, v).

(** [function_header_size()]. *)
Definition function_header_size `{Headers} (v : StatisticsVisitor) : Z :=
  wrap_int (function_count_ v * Function_kSize).

(** [heap_.space()->IterateObjects(&statistics)] of [PrintStatistics]: the
    visitor sees the objects of the space one after the other. *)
Definition IterateObjects (objects : list HeapObjectView)
    (v : StatisticsVisitor) : StatisticsVisitor :=
  foldl (fun v object => (Visit object v).2) v objects.

End Statistics.

(** ** A small program, for the examples *)

Module Example.
Import DebugInfo Program.

(** A 64-bit debug build that validates its heaps. *)
Definition build : Build := {| width := W64; debug := true |}.

(** The same target built without assertions. *)
Definition release_build : Build := {| width := W64; debug := false |}.

Definition flags : Flags :=
  {| validate_heaps := true;
     print_heap_statistics := false;
     print_program_statistics := false |}.

Definition headers : Headers :=
  {| Instance_kSize := 16;
     Function_kSize := 32;
     Stack_kSize := 32;
     Class_kSize := 64;
     Array_kSize := 16;
     OneByteString_kSize := 24;
     LargeInteger_kSize := 16;
     kNoBreakpointId := -1;
     Failure_retry_after_gc := 3 |}.

(** Chunks are pages: the next one starts at a multiple of the page size
    above the chunk in use. *)
Definition platform : Platform :=
  {| AllocateChunk := fun size limit =>
       let base := RoundUp (limit + 4096) 4096 in
       (base, base + Z.max size 4096) |}.

Definition process_allocator : ProcessAllocator :=
  {| operator_new := fun processes => fresh (dom processes) |}.

(** A function at address 256 with 40 bytes of bytecodes, which start at
    address 288. *)
Definition F : Z := 257.

(** A stack whose top frame is at offset 12 in [F]; the frame below has no
    bytecode pointer. *)
Definition S : Z := 4097.
Definition stack : Stack :=
  {| length_ := 16; frames_ := [288 + 12; NULL]; next_ := 0 |}.

Definition C : Z := 4129.
Definition coroutine : Coroutine := {| stack_ := S |}.

Definition process_heap : gmap Z HeapObject :=
  <[S := StackObject stack]> (<[C := CoroutineObject coroutine]> ∅).

(** A one-shot breakpoint at offset 7 in [F], and a breakpoint at offset 9
    that is taken at stack height 3 of the coroutine's stack only. *)
Definition one_shot_breakpoint : Breakpoint :=
  {| function_ := F; bytecode_index_ := 7; id_ := 0; is_one_shot_ := true;
     coroutine_ := NULL; stack_height_ := 0 |}.

Definition step_over_breakpoint : Breakpoint :=
  {| function_ := F; bytecode_index_ := 9; id_ := 1; is_one_shot_ := false;
     coroutine_ := C; stack_height_ := 3 |}.

Definition debug_info : DebugInfo :=
  {| is_stepping_ := false;
     is_at_breakpoint_ := false;
     current_breakpoint_id_ := -1;
     next_breakpoint_id_ := 2;
     breakpoints_ := <[295 := one_shot_breakpoint]>
                       (<[297 := step_over_breakpoint]> ∅) |}.

Definition roots (r : Root) : Z :=
  match r with
  | null_object_ => 17
  | false_object_ => 33
  | true_object_ => 49
  | _ => 0
  end.

Definition main_process : Process :=
  {| parent_ := NULL; process_triangle_count_ := 1;
     allocation_failed_ := false; process_debug_info_ := None |}.

Definition program : Program :=
  {| roots_ := roots;
     dispatch_table_ := Some [{| target_ := F; code_ := 7777 |}];
     entry_ := F;
     heap_ := {| space_ := {| top_ := 512; limit_ := 4096;
                              no_allocation_failure_nesting_ := O |};
                 memory_ := ∅;
                 objects_ := [(16, 32); (32, 48); (48, 64); (256, 328)];
                 functions_ := <[F := {| bytecode_size := 40 |}]> ∅ |};
     process_heap_ := {| old_space_ := {| compacting_ := false;
                                          hard_limit_hit_ := false |};
                         heap_objects_ := process_heap;
                         answers_ := [] |};
     process_list_ := [9001];
     processes_ := <[9001 := main_process]> ∅;
     session_ := NULL;
     stack_chain_ := NULL;
     cooked_stack_deltas_ := [];
     cache_ := Some ∅;
     debug_info_ := Some debug_info;
     log_ := [] |}.

(** A scavenger that moves every object of the program heap up by 64
    bytes. *)
Definition scavenger : ScavengeVisitor :=
  {| Visit := fun v => if IsSmi v then v else if v <? 4096 then v + 64 else v;
     to := {| space_ := {| top_ := 8192 + 392; limit_ := 8192 + 4096;
                           no_allocation_failure_nesting_ := O |};
              memory_ := ∅;
              objects_ := [(80, 96); (96, 112); (112, 128); (320, 392)];
              functions_ := <[F + 64 := {| bytecode_size := 40 |}]> ∅ |} |}.

(** A heap of one object with three fields: the first and the last hold
    integers that 32-bit targets cannot hold as immediates, the second the
    integer 7.  The chunk in use has room for no box. *)
Definition snapshot_program : Program :=
  set_roots (<[large_integer_class_ := 4129]> roots)
    (set_heap
       {| space_ := {| top_ := 512; limit_ := 520;
                       no_allocation_failure_nesting_ := O |};
          memory_ := <[256 := 4193]> (<[264 := Smi_FromWord (2 ^ 40)]>
                       (<[272 := Smi_FromWord 7]>
                          (<[280 := Smi_FromWord (- 2 ^ 31)]> ∅)));
          objects_ := [(256, 288)];
          functions_ := ∅ |}
       program).

(** The process heap fails the allocation of the stack of the next
    process. *)
Definition starved_program : Program :=
  set_process_heap (set_answers [false; true] (process_heap_ program)) program.

(** A program heap for [SnapshotGC]: the three singletons, a class at
    address 64 that is the class of every object and the large integer
    class, an object at 256 that the entry of the program points to and
    whose fields hold an integer that 32-bit targets cannot hold as an
    immediate and the integer 7, and an object at 320 that nothing points
    to, with a field that holds such an integer as well. *)
Definition reshape_program : Program :=
  set_roots (<[large_integer_class_ := 65]> roots)
    (set_debug_info None
       (set_process_heap (set_heap_objects ∅ (process_heap_ program))
          (set_heap
             {| space_ := {| top_ := 512; limit_ := 4096;
                             no_allocation_failure_nesting_ := O |};
                memory_ :=
                  list_to_map
                    [(16, 65); (24, Smi_FromWord 0);
                     (32, 65); (40, Smi_FromWord 0);
                     (48, 65); (56, Smi_FromWord 0);
                     (64, 65); (72, Smi_FromWord 0);
                     (256, 65); (264, Smi_FromWord (2 ^ 40));
                     (272, Smi_FromWord 7);
                     (320, 65); (328, Smi_FromWord (2 ^ 41))];
                objects_ := [(16, 32); (32, 48); (48, 64); (64, 80);
                             (256, 280); (320, 336)];
                functions_ := ∅ |}
             program))).

(** The scavenger of the first collection of [SnapshotGC] on this heap.
    The pass over the integers has put the box of the object at 256 at
    address 512 and the box of the object at 320 at address 528.  The
    collection copies what the roots and the entry reach to the space at
    8192, in the order of the addresses: the singletons, the class, the
    object at 256 and its box.  The object at 320 and its box are not
    reached and not copied. *)
Definition first_forwarding : gmap Z Z :=
  list_to_map [(17, 8209); (33, 8225); (49, 8241); (65, 8257);
               (257, 8273); (513, 8297)].

Definition first_scavenger : ScavengeVisitor :=
  {| Visit := fun v => if IsSmi v then v else default v (first_forwarding !! v);
     to := {| space_ := {| top_ := 8312; limit_ := 8192 + 4096;
                           no_allocation_failure_nesting_ := O |};
              memory_ :=
                list_to_map
                  [(8208, 8257); (8216, Smi_FromWord 0);
                   (8224, 8257); (8232, Smi_FromWord 0);
                   (8240, 8257); (8248, Smi_FromWord 0);
                   (8256, 8257); (8264, Smi_FromWord 0);
                   (8272, 8257); (8280, 8297); (8288, Smi_FromWord 7);
                   (8296, 8257); (8304, 2 ^ 40)];
              objects_ := [(8208, 8224); (8224, 8240); (8240, 8256);
                           (8256, 8272); (8272, 8296); (8296, 8312)];
              functions_ := ∅ |} |}.

(** The scavenger of the second collection copies the space at 8192 to the
    space at 16384, every object 8192 bytes up. *)
Definition second_scavenger : ScavengeVisitor :=
  {| Visit := fun v => if IsSmi v then v
                       else if (8192 <=? v) && (v <? 12288) then v + 8192
                       else v;
     to := {| space_ := {| top_ := 16504; limit_ := 16384 + 4096;
                           no_allocation_failure_nesting_ := O |};
              memory_ :=
                list_to_map
                  [(16400, 16449); (16408, Smi_FromWord 0);
                   (16416, 16449); (16424, Smi_FromWord 0);
                   (16432, 16449); (16440, Smi_FromWord 0);
                   (16448, 16449); (16456, Smi_FromWord 0);
                   (16464, 16449); (16472, 16489); (16480, Smi_FromWord 7);
                   (16488, 16449); (16496, 2 ^ 40)];
              objects_ := [(16400, 16416); (16416, 16432); (16432, 16448);
                           (16448, 16464); (16464, 16488); (16488, 16504)];
              functions_ := ∅ |} |}.

End Example.

(** * Properties *)

(** ** The breakpoint table *)

Section DebugInfoProperties.
Import DebugInfo.
Context `{Build, Headers}.

(** The ids of the table's entries are pairwise different and older than
    the counter.  [SetBreakpoint] numbers its entries with the counter, so
    the tables it builds are of this kind. *)
Definition ids_unique (d : DebugInfo) : Prop :=
  ∀ k1 k2 b1 b2,
    breakpoints_ d !! k1 = Some b1 → breakpoints_ d !! k2 = Some b2 →
    id_ b1 = id_ b2 → k1 = k2.

Definition ids_below_counter (d : DebugInfo) : Prop :=
  ∀ k b, breakpoints_ d !! k = Some b → id_ b < next_breakpoint_id_ d.

Lemma ids_unique_new : ids_unique DebugInfo_new ∧ ids_below_counter DebugInfo_new.
Proof. split; repeat intro; simpl in *; by simplify_map_eq. Qed.

Lemma wrap_int_small z : - 2 ^ 31 ≤ z < 2 ^ 31 → wrap_int z = z.
Proof.
  intros Hz. unfold wrap_int.
  rewrite Z.mod_small by lia. lia.
Qed.

(** As long as the counter has not reached the end of the range of [int],
    a new breakpoint keeps the ids apart. *)
Lemma ids_unique_SetBreakpoint F o one_shot c h d :
  ids_unique d → ids_below_counter d →
  - 2 ^ 31 ≤ next_breakpoint_id_ d < 2 ^ 31 - 1 →
  ids_unique (SetBreakpoint F o one_shot c h d).2 ∧
  ids_below_counter (SetBreakpoint F o one_shot c h d).2.
Proof.
  intros Hu Hb Hrange. unfold SetBreakpoint. simpl.
  rewrite wrap_int_small by lia.
  destruct (breakpoints_ d !! _) as [it|] eqn:E; simpl.
  - split; [exact Hu|]. intros k b Hk. specialize (Hb k b Hk). simpl. lia.
  - split.
    + intros k1 k2 b1 b2 H1 H2 Hid.
      destruct (decide (k1 = bytecode_address_for F 0 + o)) as [->|N1];
        destruct (decide (k2 = bytecode_address_for F 0 + o)) as [->|N2];
        simplify_map_eq; try done.
      * specialize (Hb _ _ H2). simpl in *. lia.
      * specialize (Hb _ _ H1). simpl in *. lia.
      * eauto.
    + intros k b Hk.
      destruct (decide (k = bytecode_address_for F 0 + o)) as [->|N];
        simplify_map_eq; simpl; [lia|].
      specialize (Hb _ _ Hk). lia.
Qed.

(** The entry [DeleteBreakpoint] erases is the one stored under the id. *)
Lemma DeleteBreakpoint_unique d bcp b :
  ids_unique d → breakpoints_ d !! bcp = Some b →
  DeleteBreakpoint (id_ b) d = (true, set_breakpoints (delete bcp (breakpoints_ d)) d).
Proof.
  intros Hu Hb. unfold DeleteBreakpoint.
  destruct (List.find _ _) as [[k b']|] eqn:E.
  - apply find_some in E as [Hin Hid].
    apply list_elem_of_In, elem_of_map_to_list in Hin.
    apply bool_decide_eq_true in Hid. simpl in *.
    by rewrite (Hu _ _ _ _ Hin Hb Hid).
  - exfalso.
    assert (Hin : In (bcp, b) (map_to_list (breakpoints_ d))).
    { by apply list_elem_of_In, elem_of_map_to_list. }
    pose proof (find_none _ _ E _ Hin) as Hf. simpl in Hf.
    by apply bool_decide_eq_false in Hf.
Qed.

(** C8.  [SetBreakpoint] on a key that already holds a breakpoint leaves
    the table as it is and returns the id of the breakpoint found there. *)
Theorem SetBreakpoint_existing F o one_shot c h d b :
  breakpoints_ d !! (bytecode_address_for F 0 + o) = Some b →
  breakpoints_ (SetBreakpoint F o one_shot c h d).2 = breakpoints_ d ∧
  (SetBreakpoint F o one_shot c h d).1 = id_ b.
Proof.
  intros Hb. unfold SetBreakpoint. simpl. by rewrite Hb.
Qed.

(** C6.  A one-shot breakpoint without coroutine, stepping off: the first
    [ShouldBreak] at its key answers true and erases it, and afterwards
    [ShouldBreak] at that key answers false. *)
Theorem ShouldBreak_one_shot heap bcp sp d b :
  ids_unique d →
  breakpoints_ d !! bcp = Some b →
  is_one_shot_ b = true → coroutine_ b = NULL → is_stepping_ d = false →
  ∃ d', ShouldBreak heap bcp sp d = Ok (true, d') ∧
        breakpoints_ d' = delete bcp (breakpoints_ d) ∧
        ShouldBreak heap bcp sp d' = Ok (false, d').
Proof.
  intros Hu Hb Hone Hco Hstep.
  unfold ShouldBreak at 1. rewrite Hb. unfold Breakpoint_stack.
  destruct (decide (coroutine_ b = NULL)); [simpl|done].
  rewrite Hone.
  rewrite (DeleteBreakpoint_unique (set_current_breakpoint (id_ b) d) bcp b Hu Hb).
  simpl. eexists. split; [reflexivity|]. split; [done|].
  unfold ShouldBreak. simpl. rewrite lookup_delete_eq. by rewrite Hstep.
Qed.

(** C7.  A breakpoint with a stack filter is not taken when [sp] is not the
    expected stack pointer: the call answers false and changes nothing,
    whether [sp] is below the expected stack pointer or, in a build without
    assertions, above it.  The breakpoint is taken at the expected stack
    pointer only.  The only call that is not legal is the one with [sp]
    above the expected stack pointer, which the assertion of a debug build
    rejects, and no other call ends in an error. *)
Theorem ShouldBreak_stack_height_mismatch heap bcp sp d b c s :
  breakpoints_ d !! bcp = Some b →
  coroutine_ b ≠ NULL →
  heap !! coroutine_ b = Some (CoroutineObject c) →
  stack_ c ≠ NULL →
  heap !! stack_ c = Some (StackObject s) →
  let expected_sp :=
    Stack_Pointer (stack_ c) (wrap_word (length_ s - stack_height_ b)) in
  (sp ≠ expected_sp → (debug = true → sp ≤ expected_sp) →
     ShouldBreak heap bcp sp d = Ok (false, d)) ∧
  (∀ d', ShouldBreak heap bcp sp d = Ok (true, d') → sp = expected_sp) ∧
  (ShouldBreak heap bcp sp d = AssertionFailure ↔
     debug = true ∧ expected_sp < sp) ∧
  ShouldBreak heap bcp sp d ≠ BadPointer.
Proof.
  intros Hb Hco Hc Hst Hs expected_sp.
  unfold ShouldBreak. rewrite Hb. unfold Breakpoint_stack.
  destruct (decide (coroutine_ b = NULL)); [done|].
  unfold Coroutine_cast. rewrite Hc. simpl.
  destruct (decide (stack_ c ≠ NULL)); [|done].
  unfold Stack_cast. rewrite Hs. simpl. fold expected_sp.
  unfold ASSERT. split_and!.
  - intros Hne Hlegal.
    destruct debug; simpl.
    + specialize (Hlegal eq_refl).
      destruct (Z.leb_spec sp expected_sp); [|lia]. simpl.
      by destruct (decide (expected_sp ≠ sp)).
    + by destruct (decide (expected_sp ≠ sp)).
  - intros d'.
    destruct debug; simpl.
    + destruct (Z.leb_spec sp expected_sp); simpl; [|done].
      destruct (decide (expected_sp ≠ sp)) as [|Heq]; [done|].
      intros _. apply dec_stable in Heq. done.
    + destruct (decide (expected_sp ≠ sp)) as [|Heq]; [done|].
      intros _. apply dec_stable in Heq. done.
  - destruct debug; simpl.
    + destruct (Z.leb_spec sp expected_sp); simpl.
      * split; [|intros [_ ?]; lia].
        destruct (decide (expected_sp ≠ sp)); [done|].
        by destruct (is_one_shot_ b).
      * done.
    + split; [|by intros [? _]].
      destruct (decide (expected_sp ≠ sp)); [done|].
      by destruct (is_one_shot_ b).
  - destruct debug; simpl.
    + destruct (Z.leb_spec sp expected_sp); simpl; [|done].
      destruct (decide (expected_sp ≠ sp)); [done|].
      by destruct (is_one_shot_ b).
    + destruct (decide (expected_sp ≠ sp)); [done|].
      by destruct (is_one_shot_ b).
Qed.

End DebugInfoProperties.

(** ** Reasoning about code over the program's state *)

Section WeakestPrecondition.
Import Program.

(** [wp m Q p]: from [p], [m] ends normally, in a result and a state that
    satisfy [Q]. *)
Definition wp {A} (m : M A) (Q : A → Program → Prop) (p : Program) : Prop :=
  ∃ a p', m p = Ok (a, p') ∧ Q a p'.

Lemma wp_bind {A B} (m : M A) (k : A → M B) Q p :
  wp m (fun a p' => wp (k a) Q p') p → wp (m ≫= k) Q p.
Proof.
  intros (a & p' & Hm & (b & p'' & Hk & HQ)).
  exists b, p''. split; [|done].
  unfold mbind, M_bind. by rewrite Hm.
Qed.

Lemma wp_ret {A} (a : A) (Q : A → Program → Prop) p : Q a p → wp (mret a) Q p.
Proof. intros HQ. by exists a, p. Qed.

Lemma wp_get {A} (f : Program → A) (Q : A → Program → Prop) p :
  Q (f p) p → wp (get f) Q p.
Proof. intros HQ. by exists (f p), p. Qed.

Lemma wp_modify (f : Program → Program) (Q : unit → Program → Prop) p :
  Q tt (f p) → wp (modify f) Q p.
Proof. intros HQ. by exists tt, (f p). Qed.

Lemma wp_mono {A} (m : M A) (Q Q' : A → Program → Prop) p :
  wp m Q p → (∀ a p', Q a p' → Q' a p') → wp m Q' p.
Proof. intros (a & p' & Hm & HQ) HQQ. exists a, p'. eauto. Qed.

Lemma wp_assert `{Build} (c : bool) (Q : unit → Program → Prop) p :
  c = true → Q tt p → wp (assert c) Q p.
Proof.
  intros -> HQ. exists tt, p. split; [|done].
  unfold assert, lift, ASSERT. by destruct debug.
Qed.

End WeakestPrecondition.

(** ** Construction of the roots *)

Section InitializeProperties.
Import Program.
Context `{Build, Platform, Headers}.

(** The three singletons of the roots are [n], [f] and [t]. *)
Definition singletons (n f t : Z) (p : Program) : Prop :=
  roots_ p null_object_ = n ∧ roots_ p false_object_ = f ∧
  roots_ p true_object_ = t.

(** A step that ends normally and leaves the three singletons alone. *)
Definition steady {A} (m : M A) : Prop :=
  ∀ n f t p, singletons n f t p → wp m (fun _ p' => singletons n f t p') p.

Lemma steady_bind {A B} (m : M A) (k : A → M B) :
  steady m → (∀ a, steady (k a)) → steady (m ≫= k).
Proof.
  intros Hm Hk n f t p Hp. apply wp_bind.
  eapply wp_mono; [by apply Hm|]. intros a p' Hp'. by apply Hk.
Qed.

Lemma steady_ret {A} (a : A) : steady (mret a : M A).
Proof. intros n f t p Hp. by apply wp_ret. Qed.

Lemma steady_get {A} (g : Program → A) : steady (get g).
Proof. intros n f t p Hp. by apply wp_get. Qed.

Lemma steady_emit callee args : steady (emit callee args).
Proof. intros n f t p Hp. by apply wp_modify. Qed.

Lemma steady_Heap_Allocate size : steady (Heap_Allocate size).
Proof. intros n f t p Hp. eexists _, _. split; [reflexivity|done]. Qed.

Lemma steady_set_root r v :
  r ≠ null_object_ → r ≠ false_object_ → r ≠ true_object_ →
  steady (set_root r v).
Proof.
  intros Hn Hf Ht n f t p (Hpn & Hpf & Hpt). apply wp_modify.
  unfold singletons. simpl. by rewrite !fn_lookup_insert_ne.
Qed.

Lemma steady_set_char_codes result codes i : steady (set_char_codes result i codes).
Proof.
  revert i. induction codes as [|c codes IH]; intros i; simpl.
  - apply steady_ret.
  - apply steady_bind; [apply steady_emit|]. intros _. apply IH.
Qed.

Local Ltac steady_step :=
  first
    [ apply steady_ret | apply steady_get | apply steady_emit
    | apply steady_Heap_Allocate | apply steady_set_char_codes
    | apply steady_set_root; discriminate
    | apply steady_bind; [|intros ?] ].

Lemma steady_Heap_create callee size args : steady (Heap_create callee size args).
Proof. unfold Heap_create. repeat steady_step. Qed.

Lemma steady_new_class format : steady (new_class format).
Proof.
  unfold new_class, CreateClass, Heap_create, root.
  repeat steady_step.
Qed.

Lemma steady_new_root_class r format super :
  r ≠ null_object_ → r ≠ false_object_ → r ≠ true_object_ →
  steady (new_root_class r format super).
Proof.
  intros Hn Hf Ht. unfold new_root_class, root.
  apply steady_bind; [apply steady_new_class|]. intros klass.
  apply steady_bind; [by apply steady_set_root|]. intros _.
  destruct super; repeat steady_step.
Qed.

Lemma steady_CreateStringFromAscii str : steady (CreateStringFromAscii str).
Proof.
  unfold CreateStringFromAscii, root.
  apply steady_bind; [steady_step|]. intros klass.
  apply steady_bind; [apply steady_Heap_create|]. intros raw.
  destruct (IsFailure raw); repeat steady_step.
Qed.

Lemma steady_CreateArray capacity : steady (CreateArray capacity).
Proof.
  unfold CreateArray, Heap_create, root.
  repeat steady_step.
Qed.

Lemma steady_CreateInstance format klass null immutable :
  steady (CreateInstance format klass null immutable).
Proof. apply steady_Heap_create. Qed.

Lemma steady_CreateBooleanObject address klass null :
  steady (CreateBooleanObject address klass null).
Proof. unfold CreateBooleanObject. repeat steady_step. Qed.

Lemma wp_steady {A B} (m : M A) (k : A → M B) Q n f t p :
  steady m → singletons n f t p →
  (∀ a p', singletons n f t p' → wp (k a) Q p') →
  wp (m ≫= k) Q p.
Proof.
  intros Hm Hp Hk. apply wp_bind.
  eapply wp_mono; [by apply Hm|]. intros a p' Hp'. by apply Hk.
Qed.

Lemma wp_Heap_Allocate_fits size (Q : Z → Program → Prop) p :
  top_ (space_ (heap_ p)) ≠ 0 →
  top_ (space_ (heap_ p)) + size ≤ limit_ (space_ (heap_ p)) →
  Q (HeapObject_FromAddress (top_ (space_ (heap_ p))))
    (set_heap (set_space
       {| top_ := top_ (space_ (heap_ p)) + size;
          limit_ := limit_ (space_ (heap_ p));
          no_allocation_failure_nesting_ :=
            no_allocation_failure_nesting_ (space_ (heap_ p)) |}
       (heap_ p)) p) →
  wp (Heap_Allocate size) Q p.
Proof.
  intros Htop Hfits HQ. eexists _, _. split; [reflexivity|].
  unfold SemiSpace_Allocate.
  destruct (Z.leb_spec (top_ (space_ (heap_ p)) + size) (limit_ (space_ (heap_ p))));
    [|lia].
  simpl. by destruct (decide (top_ (space_ (heap_ p)) = 0)).
Qed.

Local Ltac steady_lemma :=
  lazymatch goal with
  | |- steady (new_root_class _ _ _) => apply steady_new_root_class; discriminate
  | |- steady (new_class _) => apply steady_new_class
  | |- steady (CreateArray _) => apply steady_CreateArray
  | |- steady (CreateInstance _ _ _ _) => apply steady_CreateInstance
  | |- steady (CreateStringFromAscii _) => apply steady_CreateStringFromAscii
  | |- steady CreateMetaClass => apply steady_Heap_create
  | |- steady (Heap_create _ _ _) => apply steady_Heap_create
  | |- steady (emit _ _) => apply steady_emit
  | |- steady (root _) => apply steady_get
  | |- steady (set_root _ _) => apply steady_set_root; discriminate
  end.

Lemma wp_CreateBooleanObject {B} address klass null (k : Z → M B) Q n f t p :
  singletons n f t p →
  (∀ p', singletons n f t p' → wp (k (HeapObject_FromAddress address)) Q p') →
  wp (CreateBooleanObject address klass null ≫= k) Q p.
Proof.
  intros Hp Hk. unfold CreateBooleanObject.
  apply wp_bind, wp_bind, wp_modify, wp_ret. by apply Hk.
Qed.

Lemma wp_set_false {B} v (k : unit → M B) Q n f t p :
  singletons n f t p →
  (∀ p', singletons n v t p' → wp (k tt) Q p') →
  wp (set_root false_object_ v ≫= k) Q p.
Proof.
  intros (Hn & Hf & Ht) Hk. apply wp_bind, wp_modify. apply Hk.
  by repeat split.
Qed.

Lemma wp_set_true {B} v (k : unit → M B) Q n f t p :
  singletons n f t p →
  (∀ p', singletons n f v p' → wp (k tt) Q p') →
  wp (set_root true_object_ v ≫= k) Q p.
Proof.
  intros (Hn & Hf & Ht) Hk. apply wp_bind, wp_modify. apply Hk.
  by repeat split.
Qed.

(** One step of the body of [Initialize] after the three allocations. *)
Local Ltac init_step Hs :=
  lazymatch goal with
  | |- wp (set_root false_object_ _ ≫= _) _ _ =>
      eapply wp_set_false; [exact Hs|]; clear Hs; intros ? Hs
  | |- wp (set_root true_object_ _ ≫= _) _ _ =>
      eapply wp_set_true; [exact Hs|]; clear Hs; intros ? Hs
  | |- wp (CreateBooleanObject _ _ _ ≫= _) _ _ =>
      eapply wp_CreateBooleanObject; [exact Hs|]; clear Hs; intros ? Hs
  | |- wp (_ ≫= _) _ _ =>
      eapply wp_steady; [steady_lemma|exact Hs|];
      clear Hs; intros ? ? Hs
  end.

(** C1.  [Initialize], started on a space whose current chunk has room for
    three instances without fields, ends normally; the null object is the
    first object of that room, the false object starts where the null
    object ends, two words above it, and the true object starts where the
    false object ends, two words above that. *)
Theorem Initialize_object_placements p :
  Instance_kSize = 2 * kWordSize →
  0 < top_ (space_ (heap_ p)) →
  top_ (space_ (heap_ p)) + 3 * Instance_kSize ≤ limit_ (space_ (heap_ p)) →
  ∃ p', Initialize p = Ok (tt, p') ∧
    let n := roots_ p' null_object_ in
    let f := roots_ p' false_object_ in
    let t := roots_ p' true_object_ in
    n = HeapObject_FromAddress (top_ (space_ (heap_ p))) ∧
    HeapObject_address f = HeapObject_address n + fixed_size (instance_format 0 NULL_MARKER) ∧
    HeapObject_address t = HeapObject_address f + fixed_size (instance_format 0 FALSE_MARKER) ∧
    f = n + 2 * kWordSize ∧
    t = f + 2 * kWordSize.
Proof.
  intros Hsize Htop Hroom.
  assert (Hw : 0 < kWordSize) by (unfold kWordSize; destruct width; lia).
  cut (wp Initialize (fun _ p' =>
         singletons
           (HeapObject_FromAddress (top_ (space_ (heap_ p))))
           (HeapObject_FromAddress (top_ (space_ (heap_ p))) + 2 * kWordSize)
           (HeapObject_FromAddress (top_ (space_ (heap_ p))) + 2 * kWordSize
              + 2 * kWordSize) p') p).
  { intros ([] & p' & Hrun & (Hn & Hf & Ht)). exists p'. split; [done|].
    simpl. rewrite Hn, Hf, Ht. unfold HeapObject_address, HeapObject_FromAddress.
    rewrite Hsize. lia. }
  unfold Initialize, NoAllocationFailureScope.
  apply wp_bind, wp_modify. apply wp_bind.
  assert (Hfix : ∀ m, fixed_size (instance_format 0 m) = 2 * kWordSize).
  { intros m. simpl. unfold kPointerSize. lia. }
  rewrite !Hfix.
  apply wp_bind, wp_Heap_Allocate_fits; simpl; [lia|lia|].
  apply wp_bind, wp_modify.
  apply wp_bind, wp_Heap_Allocate_fits; simpl; [lia|lia|].
  apply wp_bind, wp_Heap_Allocate_fits; simpl; [lia|lia|].
  set (a := top_ (space_ (heap_ p))) in *.
  match goal with
  | |- wp _ _ ?p0 =>
      assert (Hs : singletons (HeapObject_FromAddress a)
                     (roots_ p false_object_) (roots_ p true_object_) p0)
        by (by repeat split);
      revert Hs; generalize p0; intros q Hs
  end.
  repeat init_step Hs.
  destruct Hs as (Hn & Hf & Ht).
  unfold VerifyObjectPlacements, root.
  apply wp_bind, wp_get. apply wp_bind, wp_get. apply wp_bind, wp_get.
  rewrite Hn, Hf, Ht.
  unfold HeapObject_address, HeapObject_FromAddress, kHeapObjectTag.
  assert (Hwrap : wrap_uword (2 * kWordSize) = 2 * kWordSize).
  { unfold wrap_uword, kWordSize, kBitsPerWord. by destruct width. }
  apply wp_bind, wp_assert.
  { apply Z.eqb_eq. etransitivity; [|exact Hwrap]. f_equal. lia. }
  apply wp_assert.
  { apply Z.eqb_eq. etransitivity; [|exact Hwrap]. f_equal. lia. }
  apply wp_bind, wp_modify, wp_ret.
  repeat split; simpl; rewrite ?Hn, ?Hf, ?Ht;
    unfold HeapObject_address, HeapObject_FromAddress, kHeapObjectTag; lia.
Qed.

End InitializeProperties.

(** ** Collections of the process heap *)

Section LogProperties.
Import Program.
Context `{Build, Flags}.
Context {T : Type} (α : Event → option T).

(** [performs_at p m S]: from [p], [m] ends normally, changes nothing of
    the [core], and adds to the log events whose image under [α]
    satisfies [S]. *)
Definition performs_at {A} (p : Program) (m : M A) (S : list T → Prop) : Prop :=
  ∃ a p' es, m p = Ok (a, p') ∧ core p' = core p ∧
             log_ p' = log_ p ++ es ∧ S (omap α es).

Definition performs {A} (m : M A) (S : list T → Prop) : Prop :=
  ∀ p, performs_at p m S.

Definition quiet {A} (m : M A) : Prop := performs m (eq []).

Lemma performs_bind {A B} (m : M A) (k : A → M B) S1 S2 :
  performs m S1 → (∀ a, performs (k a) S2) →
  performs (m ≫= k) (fun l => ∃ l1 l2, l = l1 ++ l2 ∧ S1 l1 ∧ S2 l2).
Proof.
  intros Hm Hk p.
  destruct (Hm p) as (a & p1 & es1 & Hrun1 & Hc1 & Hl1 & HS1).
  destruct (Hk a p1) as (b & p2 & es2 & Hrun2 & Hc2 & Hl2 & HS2).
  exists b, p2, (es1 ++ es2). repeat split.
  - unfold mbind, M_bind. by rewrite Hrun1.
  - by rewrite Hc2.
  - by rewrite Hl2, Hl1, app_assoc.
  - exists (omap α es1), (omap α es2). by rewrite omap_app.
Qed.

Lemma performs_mono {A} (m : M A) (S S' : list T → Prop) :
  performs m S → (∀ l, S l → S' l) → performs m S'.
Proof.
  intros Hm HS p. destruct (Hm p) as (a & p' & es & ? & ? & ? & ?).
  exists a, p', es. eauto.
Qed.

Lemma quiet_bind {A B} (m : M A) (k : A → M B) S :
  quiet m → (∀ a, performs (k a) S) → performs (m ≫= k) S.
Proof.
  intros Hm Hk. eapply performs_mono; [by apply performs_bind|].
  by intros l (l1 & l2 & -> & <- & ?).
Qed.

Lemma performs_bind_quiet {A B} (m : M A) (k : A → M B) S :
  performs m S → (∀ a, quiet (k a)) → performs (m ≫= k) S.
Proof.
  intros Hm Hk. eapply performs_mono; [by apply performs_bind|].
  intros l (l1 & l2 & -> & ? & <-). by rewrite app_nil_r.
Qed.

Lemma quiet_ret {A} (a : A) : quiet (mret a : M A).
Proof. intros p. exists a, p, []. by rewrite app_nil_r. Qed.

Lemma quiet_get {A} (f : Program → A) : quiet (get f).
Proof. intros p. exists (f p), p, []. by rewrite app_nil_r. Qed.

Lemma performs_emit callee args :
  performs (emit callee args) (eq (omap α [Call callee args])).
Proof. intros p. by eexists tt, _, [Call callee args]. Qed.

Lemma quiet_emit callee args :
  α (Call callee args) = None → quiet (emit callee args).
Proof.
  intros Hα. eapply performs_mono; [apply performs_emit|].
  intros l <-. simpl. by rewrite Hα.
Qed.

Lemma quiet_modify (f : Program → Program) :
  (∀ p, core (f p) = core p ∧ log_ (f p) = log_ p) → quiet (modify f).
Proof.
  intros Hf p. destruct (Hf p) as [Hc Hl].
  exists tt, (f p), []. by rewrite app_nil_r.
Qed.

Lemma quiet_when (c : bool) body : quiet body → quiet (when c body).
Proof. intros Hb. destruct c; [done|apply quiet_ret]. Qed.

Lemma quiet_for_each processes body :
  (∀ process, quiet (body process)) → quiet (for_each processes body).
Proof.
  intros Hb. induction processes as [|process processes IH]; simpl.
  - apply quiet_ret.
  - apply quiet_bind; [apply Hb|]. intros _. apply IH.
Qed.

Lemma quiet_VisitProcesses body :
  (∀ process, quiet (body process)) → quiet (VisitProcesses body).
Proof.
  intros Hb. apply quiet_bind; [apply quiet_get|].
  intros processes. by apply quiet_for_each.
Qed.

Lemma quiet_ask callee : α (Call callee []) = None → quiet (ask callee).
Proof.
  intros Hα. apply quiet_bind; [by apply quiet_emit|]. intros _.
  apply quiet_bind; [apply quiet_get|]. intros [|answer answers].
  - apply quiet_ret.
  - apply quiet_bind; [by apply quiet_modify|]. intros _. apply quiet_ret.
Qed.

End LogProperties.

Section SharedCollectionProperties.
Import Program.
Context `{Build, Flags}.

Lemma set_log_id p : set_log (log_ p) p = p.
Proof. by destruct p. Qed.

Lemma for_each_emit callee processes p :
  for_each processes (fun process => emit callee [process]) p =
  Ok (tt, set_log (log_ p ++ ((fun process => Call callee [process]) <$> processes)) p).
Proof.
  revert p. induction processes as [|process processes IH]; intros p; simpl.
  - by rewrite app_nil_r, set_log_id.
  - unfold mbind, M_bind. simpl. rewrite IH. simpl.
    by rewrite <- app_assoc.
Qed.

Lemma cycle_steps_process_calls callee (processes : list Z) :
  callee ≠ OldSpace_EvaluatePointlessness →
  callee ≠ OldSpace_clear_hard_limit_hit →
  callee ≠ OldSpace_IterateObjects →
  callee ≠ OldSpace_set_compacting →
  callee ≠ OldSpace_ComputeCompactionDestinations →
  omap cycle_step_of ((fun process => Call callee [process]) <$> processes) = [].
Proof.
  intros H1 H2 H3 H4 H5.
  induction processes as [|process processes IH]; [done|].
  rewrite fmap_cons. cbn [omap list_omap]. rewrite IH.
  by destruct callee.
Qed.

(** C9, as the code has it.  A shared collection of the old space evaluates
    pointlessness only when the collection before it was a compacting one,
    which has left the flag of the old space set; it then evaluates first,
    resets the hard limit and sweeps, and does not compact.  A collection
    that finds the flag clear resets the hard limit and compacts, and does
    not evaluate pointlessness at all; it leaves the flag set, so that the
    next collection is one that evaluates and sweeps.  The hard limit is
    reset in every collection. *)
Theorem PerformSharedGarbageCollection_pointlessness p :
  ∃ p' es,
    PerformSharedGarbageCollection p = Ok (tt, p') ∧
    log_ p' = log_ p ++ es ∧
    omap cycle_step_of es =
      (if compacting_ (old_space_ (process_heap_ p))
       then [Evaluate; ClearHardLimit; SetCompacting false; Walk]
       else [ClearHardLimit; SetCompacting true; ComputeDestinations; Walk]) ∧
    compacting_ (old_space_ (process_heap_ p'))
      = negb (compacting_ (old_space_ (process_heap_ p))).
Proof.
  unfold PerformSharedGarbageCollection, SweepSharedHeap, CompactSharedHeap,
    IterateSharedHeapRoots, UpdateStackLimits, CleanupPorts, VisitProcesses.
  unfold when, clear_hard_limit_hit, set_compacting.
  destruct (compacting_ (old_space_ (process_heap_ p))) eqn:Hc;
    destruct (debug && validate_heaps);
    unfold mbind, M_bind; cbn;
    repeat (first [rewrite for_each_emit | rewrite Hc]; cbn);
    (eexists _, _; split; [reflexivity|]; split;
     [cbn; rewrite <- !app_assoc; reflexivity|]);
    (split; [|reflexivity]);
    rewrite !omap_app, !cycle_steps_process_calls by done; reflexivity.
Qed.

End SharedCollectionProperties.

(** ** The phases of the collections of the process heap *)

Section ProcessHeapPhases.
Import Program.
Context `{Build, Flags}.

Local Ltac quiet_step :=
  lazymatch goal with
  | |- performs _ (emit _ _) (eq []) => apply quiet_emit; reflexivity
  | |- performs _ (mret _) (eq []) => apply quiet_ret
  | |- performs _ (get _) (eq []) => apply quiet_get
  | |- performs _ (when _ _) (eq []) => apply quiet_when
  | |- performs _ (modify _) (eq []) => apply quiet_modify; done
  | |- performs _ (ask _) (eq []) => apply quiet_ask; reflexivity
  | |- performs _ (VisitProcesses _) (eq []) => apply quiet_VisitProcesses; intros ?
  | |- performs _ (_ ≫= _) (eq []) => apply quiet_bind; [|intros ?]
  | |- performs _ (if ?c then _ else _) (eq []) => destruct c
  | |- quiet _ _ => unfold quiet
  end.

Lemma quiet_IterateSharedHeapRoots : quiet phase_of IterateSharedHeapRoots.
Proof. unfold IterateSharedHeapRoots. repeat quiet_step. Qed.

Lemma quiet_UpdateStackLimits : quiet phase_of UpdateStackLimits.
Proof. unfold UpdateStackLimits. repeat quiet_step. Qed.

Lemma quiet_CleanupPorts : quiet phase_of CleanupPorts.
Proof. unfold CleanupPorts. repeat quiet_step. Qed.

Lemma quiet_ValidateHeapsAreConsistent : quiet phase_of ValidateHeapsAreConsistent.
Proof. unfold ValidateHeapsAreConsistent. repeat quiet_step. Qed.

Lemma quiet_set_compacting b : quiet phase_of (set_compacting b).
Proof. unfold set_compacting. repeat quiet_step. Qed.

Lemma quiet_clear_hard_limit_hit : quiet phase_of clear_hard_limit_hit.
Proof. unfold clear_hard_limit_hit. repeat quiet_step. Qed.

Local Ltac quiet_known :=
  first
    [ apply quiet_IterateSharedHeapRoots | apply quiet_UpdateStackLimits
    | apply quiet_CleanupPorts | apply quiet_ValidateHeapsAreConsistent
    | apply quiet_set_compacting | apply quiet_clear_hard_limit_hit
    | quiet_step ].

Lemma quiet_SweepSharedHeap : quiet phase_of SweepSharedHeap.
Proof. unfold SweepSharedHeap. repeat quiet_known. Qed.

Lemma quiet_CompactSharedHeap : quiet phase_of CompactSharedHeap.
Proof. unfold CompactSharedHeap. repeat quiet_known. Qed.

Lemma performs_PerformSharedGarbageCollection :
  performs phase_of PerformSharedGarbageCollection (eq [SharedOldSpaceGC]).
Proof.
  unfold PerformSharedGarbageCollection.
  apply performs_bind_quiet;
    [apply (performs_emit phase_of Program_PerformSharedGarbageCollection [])|].
  intros _.
  repeat first [apply quiet_SweepSharedHeap | apply quiet_CompactSharedHeap
               | quiet_known].
Qed.

Lemma performs_CollectOldSpace :
  performs phase_of CollectOldSpace (eq [SharedOldSpaceGC]).
Proof.
  unfold CollectOldSpace.
  apply quiet_bind; [repeat quiet_known|]. intros _.
  apply performs_bind_quiet; [apply performs_PerformSharedGarbageCollection|].
  intros _. repeat quiet_known.
Qed.

Definition at_most (phase : Phase) (l : list Phase) : Prop :=
  l = [] ∨ l = [phase].

Lemma performs_CollectOldSpaceIfNeeded force :
  performs phase_of (CollectOldSpaceIfNeeded force) (at_most SharedOldSpaceGC).
Proof.
  unfold CollectOldSpaceIfNeeded.
  apply quiet_bind; [destruct force; repeat quiet_known|].
  intros [|]; simpl.
  - eapply performs_mono; [|intros l Hl; right; exact (eq_sym Hl)].
    apply quiet_bind; [repeat quiet_known|]. intros _.
    apply performs_bind_quiet; [apply performs_CollectOldSpace|].
    intros _. repeat quiet_known.
  - eapply performs_mono; [apply quiet_ret|]. intros l <-. by left.
Qed.

Lemma quiet_CompleteScavenge_loop rounds :
  quiet phase_of (CompleteScavenge_loop rounds).
Proof.
  induction rounds as [|rounds IH]; simpl; [apply quiet_ret|].
  apply quiet_bind; [repeat quiet_known|]. intros work_found.
  apply quiet_bind; [repeat quiet_known|]. intros more.
  destruct (work_found || more); [apply IH|apply quiet_ret].
Qed.

Lemma performs_CollectNewSpace :
  performs phase_of CollectNewSpace
    (fun l => ∃ scavenge extra,
       at_most NewSpaceScavenge scavenge ∧ at_most SharedOldSpaceGC extra ∧
       l = scavenge ++ extra).
Proof.
  unfold CollectNewSpace.
  apply quiet_bind; [repeat quiet_known|]. intros _.
  apply quiet_bind; [repeat quiet_known|]. intros [|].
  - eapply performs_mono; [apply performs_CollectOldSpaceIfNeeded|].
    intros l Hl. exists [], l. split; [by left|done].
  - repeat (apply quiet_bind; [solve [repeat quiet_known]|]; intros ?).
    eapply performs_mono.
    { apply performs_bind;
        [apply (performs_emit phase_of SemiSpace_StartScavenge [])|].
      intros _.
      repeat (apply quiet_bind;
              [solve [apply quiet_CompleteScavenge_loop | repeat quiet_known]|];
              intros ?).
      apply performs_bind_quiet; [apply performs_CollectOldSpaceIfNeeded|].
      intros _. apply quiet_UpdateStackLimits. }
    intros l (l1 & l2 & -> & <- & Hl2).
    exists [NewSpaceScavenge], l2. split; [by right|done].
Qed.

(** *** The phases of [CollectNewSpace], from the answers it is given *)

(** The run of [m] from [p] ends normally, leaves the core alone, and its
    result, the phases it adds to the log and the answers it leaves are
    as [Q] says. *)
Definition tracks_at {A} (p : Program) (m : M A)
    (Q : A → list Phase → list bool → Prop) : Prop :=
  ∃ a p' es, m p = Ok (a, p') ∧ core p' = core p ∧ log_ p' = log_ p ++ es ∧
             Q a (phases es) (answers_ (process_heap_ p')).

(** Code that takes no answer. *)
Definition unasked {A} (m : M A) : Prop :=
  ∀ p a p', m p = Ok (a, p') →
    answers_ (process_heap_ p') = answers_ (process_heap_ p).

Lemma unasked_ret {A} (a : A) : unasked (mret a : M A).
Proof. by intros p a' p' [= _ <-]. Qed.

Lemma unasked_get {A} (f : Program → A) : unasked (get f).
Proof. by intros p a' p' [= _ <-]. Qed.

Lemma unasked_emit callee args : unasked (emit callee args).
Proof. by intros p a' p' [= _ <-]. Qed.

Lemma unasked_modify (f : Program → Program) :
  (∀ p, answers_ (process_heap_ (f p)) = answers_ (process_heap_ p)) →
  unasked (modify f).
Proof. intros Hf p a' p' [= _ <-]. apply Hf. Qed.

Lemma unasked_bind {A B} (m : M A) (k : A → M B) :
  unasked m → (∀ a, unasked (k a)) → unasked (m ≫= k).
Proof.
  intros Hm Hk p b p'. unfold mbind, M_bind.
  destruct (m p) as [[a p1]| |] eqn:Hrun; [|done|done].
  intros Hrun'. rewrite (Hk a p1 b p' Hrun'). by eapply Hm.
Qed.

Lemma unasked_when (c : bool) body : unasked body → unasked (when c body).
Proof. intros Hb. destruct c; [done|apply unasked_ret]. Qed.

Lemma unasked_for_each processes body :
  (∀ process, unasked (body process)) → unasked (for_each processes body).
Proof.
  intros Hb. induction processes as [|process processes IH]; simpl.
  - apply unasked_ret.
  - apply unasked_bind; [apply Hb|]. intros _. apply IH.
Qed.

Lemma unasked_VisitProcesses body :
  (∀ process, unasked (body process)) → unasked (VisitProcesses body).
Proof.
  intros Hb. apply unasked_bind; [apply unasked_get|].
  intros processes. by apply unasked_for_each.
Qed.

Local Ltac unasked_step :=
  lazymatch goal with
  | |- unasked (emit _ _) => apply unasked_emit
  | |- unasked (mret _) => apply unasked_ret
  | |- unasked (get _) => apply unasked_get
  | |- unasked (when _ _) => apply unasked_when
  | |- unasked (modify _) => apply unasked_modify; done
  | |- unasked (VisitProcesses _) => apply unasked_VisitProcesses; intros ?
  | |- unasked (_ ≫= _) => apply unasked_bind; [|intros ?]
  | |- unasked (if ?c then _ else _) => destruct c
  end.

Lemma unasked_IterateSharedHeapRoots : unasked IterateSharedHeapRoots.
Proof. unfold IterateSharedHeapRoots. repeat unasked_step. Qed.

Lemma unasked_UpdateStackLimits : unasked UpdateStackLimits.
Proof. unfold UpdateStackLimits. repeat unasked_step. Qed.

Lemma unasked_CleanupPorts : unasked CleanupPorts.
Proof. unfold CleanupPorts. repeat unasked_step. Qed.

Lemma unasked_ValidateHeapsAreConsistent : unasked ValidateHeapsAreConsistent.
Proof. unfold ValidateHeapsAreConsistent. repeat unasked_step. Qed.

Lemma unasked_PerformSharedGarbageCollection :
  unasked PerformSharedGarbageCollection.
Proof.
  unfold PerformSharedGarbageCollection, SweepSharedHeap, CompactSharedHeap,
    set_compacting, clear_hard_limit_hit.
  repeat first [ apply unasked_IterateSharedHeapRoots
               | apply unasked_UpdateStackLimits | apply unasked_CleanupPorts
               | unasked_step ].
Qed.

Lemma unasked_ClearCache : unasked ClearCache.
Proof.
  unfold ClearCache. apply unasked_bind; [apply unasked_emit|]. intros _.
  apply unasked_bind; [apply unasked_get|]. intros [cache|];
    repeat unasked_step.
Qed.

Lemma tracks_at_mono {A} p (m : M A) (Q Q' : A → list Phase → list bool → Prop) :
  tracks_at p m Q → (∀ a L answers, Q a L answers → Q' a L answers) →
  tracks_at p m Q'.
Proof.
  intros (a & p' & es & ? & ? & ? & ?) HQ. exists a, p', es. eauto.
Qed.

Lemma tracks_at_performs {A} p (m : M A) L :
  performs phase_of m (eq L) → tracks_at p m (fun _ L' _ => L' = L).
Proof.
  intros Hm. destruct (Hm p) as (a & p' & es & Hrun & Hcore & Hlog & HL).
  by exists a, p', es.
Qed.

Lemma tracks_at_unasked {A} p (m : M A) L :
  performs phase_of m (eq L) → unasked m →
  tracks_at p m (fun _ L' answers =>
                   L' = L ∧ answers = answers_ (process_heap_ p)).
Proof.
  intros Hm Hs. destruct (Hm p) as (a & p' & es & Hrun & Hcore & Hlog & HL).
  exists a, p', es. split_and!; try done. by eapply Hs.
Qed.

Lemma tracks_at_ret {A} p (a : A) (Q : A → list Phase → list bool → Prop) :
  Q a [] (answers_ (process_heap_ p)) → tracks_at p (mret a) Q.
Proof. intros HQ. exists a, p, []. by rewrite app_nil_r. Qed.

Lemma tracks_at_bind {A B} p (m : M A) (k : A → M B) Q :
  tracks_at p m (fun a L1 answers1 =>
    ∀ p1, answers_ (process_heap_ p1) = answers1 →
      tracks_at p1 (k a) (fun b L2 answers2 => Q b (L1 ++ L2) answers2)) →
  tracks_at p (m ≫= k) Q.
Proof.
  intros (a & p1 & es1 & Hrun1 & Hcore1 & Hlog1 & Hk).
  destruct (Hk p1 eq_refl) as (b & p2 & es2 & Hrun2 & Hcore2 & Hlog2 & HQ).
  exists b, p2, (es1 ++ es2). split_and!.
  - unfold mbind, M_bind. by rewrite Hrun1.
  - congruence.
  - by rewrite Hlog2, Hlog1, app_assoc.
  - unfold phases in *. by rewrite omap_app.
Qed.

(** A step that takes no answer. *)
Lemma tracks_at_skip {A B} p (m : M A) (k : A → M B) L1 Q :
  performs phase_of m (eq L1) → unasked m →
  (∀ a p1, answers_ (process_heap_ p1) = answers_ (process_heap_ p) →
     tracks_at p1 (k a) (fun b L2 answers2 => Q b (L1 ++ L2) answers2)) →
  tracks_at p (m ≫= k) Q.
Proof.
  intros Hm Hs Hk. apply tracks_at_bind.
  eapply tracks_at_mono; [by apply tracks_at_unasked|].
  intros a L answers [-> ->] p1 Hp1. by apply Hk.
Qed.

(** A question to a collaborator: the answer is the first of the answers,
    which is then used up. *)
Lemma tracks_at_ask {B} p callee (k : bool → M B) Q :
  phase_of (Call callee []) = None →
  (∀ p1, answers_ (process_heap_ p1) = tail (answers_ (process_heap_ p)) →
     tracks_at p1 (k (default false (head (answers_ (process_heap_ p))))) Q) →
  tracks_at p (ask callee ≫= k) Q.
Proof.
  intros Hquiet Hk.
  assert (Hask : ∃ p1,
    ask callee p = Ok (default false (head (answers_ (process_heap_ p))), p1) ∧
    core p1 = core p ∧ log_ p1 = log_ p ++ [Call callee []] ∧
    answers_ (process_heap_ p1) = tail (answers_ (process_heap_ p))).
  { unfold ask, emit, get, modify. unfold mbind, M_bind, mret, M_ret. cbn.
    destruct (answers_ (process_heap_ p)) as [|answer answers] eqn:Hanswers;
      eexists; (split_and!; [reflexivity|done|done|done]). }
  destruct Hask as (p1 & Hrun1 & Hcore1 & Hlog1 & Hanswers1).
  destruct (Hk p1 Hanswers1) as (b & p2 & es2 & Hrun2 & Hcore2 & Hlog2 & HQ).
  exists b, p2, ([Call callee []] ++ es2). split_and!.
  - unfold mbind, M_bind. by rewrite Hrun1.
  - congruence.
  - by rewrite Hlog2, Hlog1, <- app_assoc.
  - unfold phases in *. rewrite omap_app. cbn [omap list_omap].
    by rewrite Hquiet.
Qed.

Lemma tracks_at_get {A B} p (f : Program → A) (k : A → M B) Q :
  tracks_at p (k (f p)) Q → tracks_at p (get f ≫= k) Q.
Proof. intros Hk. exact Hk. Qed.

(** The answers that are left when the loop of the scavenge has run to its
    end: every round takes the answers of the two spaces, and the loop ends
    with the round in which neither reports work. *)
Fixpoint after_scavenge (rounds : nat) (answers : list bool) : list bool :=
  match rounds with
  | O => answers
  | S rounds =>
      let work_found := default false (head answers) in
      let more := default false (head (tail answers)) in
      if work_found || more then after_scavenge rounds (tail (tail answers))
      else tail (tail answers)
  end.

Lemma tracks_at_CompleteScavenge_loop rounds : ∀ p,
  tracks_at p (CompleteScavenge_loop rounds)
    (fun _ L answers =>
       L = [] ∧ answers = after_scavenge rounds (answers_ (process_heap_ p))).
Proof.
  induction rounds as [|rounds IH]; intros p; simpl.
  - by apply tracks_at_ret.
  - apply tracks_at_ask; [done|]. intros p1 Hp1.
    apply tracks_at_ask; [done|]. intros p2 Hp2.
    rewrite Hp1.
    destruct (default false (head (answers_ (process_heap_ p))) ||
              default false (head (tail (answers_ (process_heap_ p))))).
    + eapply tracks_at_mono; [apply IH|].
      intros _ L answers [-> ->]. by rewrite Hp2, Hp1.
    + apply tracks_at_ret. by rewrite Hp2, Hp1.
Qed.

(** [CollectOldSpaceIfNeeded] collects when it is forced to or when the old
    space answers that it needs a collection. *)
Lemma tracks_at_CollectOldSpaceIfNeeded force p :
  tracks_at p (CollectOldSpaceIfNeeded force)
    (fun _ L _ =>
       L = if force || default false (head (answers_ (process_heap_ p)))
           then [SharedOldSpaceGC] else []).
Proof.
  assert (Hcollect : performs phase_of
            (emit OldSpace_Flush [];; CollectOldSpace;;
             when (debug && validate_heaps) (emit OldSpace_Verify []))
            (eq [SharedOldSpaceGC])).
  { apply quiet_bind; [repeat quiet_known|]. intros _.
    apply performs_bind_quiet; [apply performs_CollectOldSpace|].
    intros _. repeat quiet_known. }
  unfold CollectOldSpaceIfNeeded. destruct force; simpl.
  - eapply tracks_at_mono; [apply (tracks_at_performs p _ _ Hcollect)|]. done.
  - apply tracks_at_ask; [done|]. intros p1 Hp1.
    destruct (default false (head (answers_ (process_heap_ p)))); simpl.
    + eapply tracks_at_mono; [apply (tracks_at_performs p1 _ _ Hcollect)|]. done.
    + by apply tracks_at_ret.
Qed.

(** Whether the new space is empty, as [HasEmptyNewSpace] answers. *)
Definition new_space_is_empty (answers : list bool) : bool :=
  default false (head answers).

(** Whether [CollectNewSpace] ends with a shared collection of the old
    space.  With the new space empty it does when the old space answers
    that it needs one.  After a scavenge, whose loop and whose measure of
    the progress have taken their answers, it does when the scavenger has
    triggered one or else the old space answers that it needs one. *)
Definition further_collection (answers : list bool) : bool :=
  if new_space_is_empty answers then
    default false (head (tail answers))
  else
    let scavenged :=
      after_scavenge (S (List.length (tail answers))) (tail answers) in
    let trigger := default false (head (tail scavenged)) in
    trigger || default false (head (tail (tail scavenged))).

(** The phases of [CollectNewSpace]: the scavenge of the new space unless
    the new space is empty, and the shared collection it may end with. *)
Definition new_space_phases (answers : list bool) : list Phase :=
  (if new_space_is_empty answers then [] else [NewSpaceScavenge])
  ++ (if further_collection answers then [SharedOldSpaceGC] else []).

Local Ltac unasked_known :=
  first
    [ apply unasked_IterateSharedHeapRoots | apply unasked_UpdateStackLimits
    | apply unasked_CleanupPorts | apply unasked_ValidateHeapsAreConsistent
    | unasked_step ].

Local Ltac skip_quiet p Hp :=
  eapply (tracks_at_skip _ _ _ []);
  [ solve [repeat quiet_known] | solve [repeat unasked_known] | ];
  let a := fresh "a" in
  let p' := fresh "p" in
  let Hp' := fresh "Hp" in
  intros a p' Hp'; rewrite Hp in Hp'; clear p Hp;
  rename Hp' into Hp; rename p' into p; cbn [app].

Lemma tracks_at_CollectNewSpace p :
  tracks_at p CollectNewSpace
    (fun _ L _ => L = new_space_phases (answers_ (process_heap_ p))).
Proof.
  unfold CollectNewSpace, new_space_phases, further_collection,
    new_space_is_empty.
  set (answers := answers_ (process_heap_ p)).
  assert (Hp : answers_ (process_heap_ p) = answers) by done.
  clearbody answers. revert Hp. generalize p. clear p. intros p Hp.
  skip_quiet p Hp.
  apply tracks_at_ask; [done|]. rewrite Hp. clear p Hp. intros p Hp.
  destruct (default false (head answers)).
  - eapply tracks_at_mono; [apply tracks_at_CollectOldSpaceIfNeeded|].
    intros _ L _ ->. by rewrite Hp.
  - do 5 skip_quiet p Hp.
    eapply (tracks_at_skip _ _ _ [NewSpaceScavenge]);
      [apply (performs_emit phase_of SemiSpace_StartScavenge [])
      |apply unasked_emit|].
    intros _ q Hq. rewrite Hp in Hq. clear p Hp.
    revert Hq. generalize q. clear q. intros p Hp.
    do 3 skip_quiet p Hp.
    apply tracks_at_get. rewrite Hp.
    apply tracks_at_bind.
    eapply tracks_at_mono; [apply tracks_at_CompleteScavenge_loop|].
    rewrite Hp. clear p Hp. intros _ L scavenged [-> ->] p Hp.
    set (scavenged := after_scavenge _ _) in *.
    do 6 skip_quiet p Hp.
    apply tracks_at_ask; [done|]. rewrite Hp. clear p Hp. intros p Hp.
    skip_quiet p Hp.
    apply tracks_at_ask; [done|]. rewrite Hp. clear p Hp. intros p Hp.
    apply tracks_at_bind.
    eapply tracks_at_mono; [apply tracks_at_CollectOldSpaceIfNeeded|].
    rewrite Hp. clear p Hp. intros _ L _ -> p _.
    eapply tracks_at_mono;
      [apply (tracks_at_performs p _ _ quiet_UpdateStackLimits)|].
    intros _ L _ ->. by rewrite app_nil_r.
Qed.

End ProcessHeapPhases.

(** ** Cooking and uncooking the frames of one stack *)

Section Frames.
Import Program.
Context `{Headers}.
Variable functions : gmap Z FunctionObject.
Variable visitor : Z → Z.

(** The functions are heap objects, and the size of their bytecodes is an
    [int]. *)
Definition functions_ok : Prop :=
  ∀ f obj, functions !! f = Some obj →
    IsSmi f = false ∧ bytecode_size obj ≤ 2 ^ 31.

(** A frame either has no bytecode pointer or one that points into a
    function. *)
Definition frame_ok (bcp : Z) : Prop :=
  bcp = NULL ∨ FunctionFromByteCodePointer functions bcp ≠ NULL.

(** The visitor leaves immediate integers alone and takes heap objects to
    heap objects. *)
Definition visitor_ok : Prop :=
  (∀ v, IsSmi v = true → visitor v = v) ∧
  (∀ v, IsSmi v = false → IsSmi (visitor v) = false).

(** The bytecode pointer of a frame once its function has moved. *)
Definition rebase (bcp : Z) : Z :=
  let function := FunctionFromByteCodePointer functions bcp in
  if decide (function = NULL) then bcp
  else bytecode_address_for (visitor function) 0
       + (bcp - bytecode_address_for function 0).

Lemma FunctionFromByteCodePointer_found bcp :
  FunctionFromByteCodePointer functions bcp ≠ NULL →
  ∃ obj,
    functions !! FunctionFromByteCodePointer functions bcp = Some obj ∧
    bytecode_address_for (FunctionFromByteCodePointer functions bcp) 0 ≤ bcp
    < bytecode_address_for (FunctionFromByteCodePointer functions bcp) 0
      + bytecode_size obj.
Proof.
  unfold FunctionFromByteCodePointer.
  destruct (decide (bcp = NULL)); [done|].
  destruct (List.find _ _) as [[f obj]|] eqn:E; [|done]. intros _.
  apply find_some in E as [Hin Hrange].
  apply list_elem_of_In, elem_of_map_to_list in Hin.
  exists obj. split; [done|]. simpl in *.
  apply andb_true_iff in Hrange as [?%Z.leb_le ?%Z.ltb_lt]. lia.
Qed.

Lemma cook_frames_length frames index deltas :
  List.length (cook_frames functions frames index deltas).2 = List.length deltas.
Proof.
  revert index deltas. induction frames as [|bcp frames IH]; intros; simpl; [done|].
  destruct (decide _); simpl; rewrite IH; [done|]. by rewrite length_insert.
Qed.

Lemma cook_frames_below frames index deltas j :
  (j < index)%nat →
  (cook_frames functions frames index deltas).2 !! j = deltas !! j.
Proof.
  revert index deltas. induction frames as [|bcp frames IH]; intros index deltas Hj;
    simpl; [done|].
  destruct (decide _); simpl.
  - by apply IH.
  - rewrite IH by lia. apply list_lookup_insert_ne. lia.
Qed.

Lemma IsSmi_NULL : IsSmi NULL = true.
Proof. reflexivity. Qed.

(** Uncooking what was cooked and then visited gives every frame its
    bytecode pointer back, rebased on the function's new place. *)
Lemma cook_uncook frames index deltas :
  functions_ok → visitor_ok → Forall frame_ok frames →
  (index + List.length frames ≤ List.length deltas)%nat →
  uncook_frames (visitor <$> (cook_frames functions frames index deltas).1)
    index (cook_frames functions frames index deltas).2
  = Ok (rebase <$> frames).
Proof.
  intros Hf [Hsmi Hheap]. revert index deltas.
  induction frames as [|bcp frames IH]; intros index deltas Hok Hlen; [done|].
  inversion_clear Hok as [|? ? Hbcp Hok']. simpl in Hlen.
  simpl. unfold rebase at 1.
  destruct (decide (FunctionFromByteCodePointer functions bcp = NULL)) as [E|E].
  - destruct Hbcp as [->|]; [|done].
    simpl. rewrite (Hsmi NULL IsSmi_NULL).
    destruct (decide (NULL = NULL)); [|done].
    rewrite IH by (done || lia). done.
  - destruct (FunctionFromByteCodePointer_found bcp E) as (obj & Hobj & Hrange).
    destruct (Hf _ _ Hobj) as [Hptr Hsize].
    simpl.
    destruct (decide (visitor (FunctionFromByteCodePointer functions bcp) = NULL))
      as [E'|E'].
    { specialize (Hheap _ Hptr). rewrite E' in Hheap. done. }
    rewrite cook_frames_below by lia.
    rewrite list_lookup_insert_eq by lia. simpl.
    rewrite IH by (done || rewrite length_insert; lia). simpl.
    rewrite wrap_int_small by lia. done.
Qed.

Lemma rebase_function bcp :
  FunctionFromByteCodePointer functions bcp ≠ NULL →
  rebase bcp =
    bytecode_address_for (visitor (FunctionFromByteCodePointer functions bcp)) 0
    + (bcp - bytecode_address_for (FunctionFromByteCodePointer functions bcp) 0).
Proof. intros E. unfold rebase. by destruct (decide _). Qed.

End Frames.

(** ** The chain of stacks *)

Section Chain.
Import Program.

(** [chain_from heap p l]: following the [next] fields from [p] leads
    through the stacks [l] and then to the sentinel. *)
Fixpoint chain_from (heap : gmap Z HeapObject) (p : Z) (l : list Z) : Prop :=
  match l with
  | [] => p = Smi_zero
  | a :: l =>
      p = a ∧ ∃ s, heap !! a = Some (StackObject s) ∧ chain_from heap (next_ s) l
  end.

Lemma chain_from_insert heap p l k o :
  k ∉ l → chain_from heap p l → chain_from (<[k := o]> heap) p l.
Proof.
  revert p. induction l as [|a l IH]; intros p Hk; simpl; [done|].
  apply not_elem_of_cons in Hk as [Hka Hkl].
  intros (-> & s & Hs & Hl). split; [done|]. exists s.
  rewrite lookup_insert_ne by done. eauto.
Qed.

Lemma chain_from_ext heap heap' p l :
  (∀ k, k ∈ l → heap' !! k = heap !! k) →
  chain_from heap p l → chain_from heap' p l.
Proof.
  revert p. induction l as [|a l IH]; intros p Heq; simpl; [done|].
  intros (-> & s & Hs & Hl). split; [done|]. exists s. split.
  - rewrite Heq; [done|]. by left.
  - apply IH; [|done]. intros k Hk. apply Heq. by right.
Qed.

(** What the chaining does to the heap: the stacks of [items] get a new
    [next], everything else stays. *)
Lemma chain_steps items : ∀ c n h lacc,
  NoDup items.*1 → NoDup lacc → (∀ k, k ∈ lacc → k ∉ items.*1) →
  chain_from h c lacc →
  ∃ l,
    chain_from (foldl chain_step (c, n, h) items).2
               (foldl chain_step (c, n, h) items).1.1 (l ++ lacc) ∧
    (foldl chain_step (c, n, h) items).1.2 = (n + List.length l)%nat ∧
    NoDup (l ++ lacc) ∧
    (∀ k s, (k, StackObject s) ∈ items →
       k ∈ l ∧ ∃ nx, (foldl chain_step (c, n, h) items).2 !! k
                     = Some (StackObject (set_next nx s))) ∧
    (∀ k, k ∉ items.*1 → (foldl chain_step (c, n, h) items).2 !! k = h !! k) ∧
    (∀ k, k ∈ l → ∃ s, (k, StackObject s) ∈ items).
Proof.
  induction items as [|[k o] items IH]; intros c n h lacc Hnd Hndl Hfresh Hchain.
  - exists []. simpl. split_and!; try done; try lia.
    + intros k s Hin. by apply elem_of_nil in Hin.
    + intros k Hin. by apply elem_of_nil in Hin.
  - simpl in Hnd. apply list.NoDup_cons in Hnd as [Hk Hnd].
    destruct o as [s|co]; simpl.
    + unfold chain_step at 2 4 6 8. simpl.
      destruct (IH k (S n) (<[k := StackObject (set_next c s)]> h) (k :: lacc))
        as (l & Hc & Hn & Hndl' & Hst & Hother & Hkeys).
      * done.
      * apply list.NoDup_cons. split; [|done]. intros Hin.
        apply (Hfresh k Hin). simpl. by left.
      * intros k' [->|Hin]%elem_of_cons; [done|].
        intros Hin'. apply (Hfresh k' Hin). simpl. by right.
      * simpl. split; [done|]. exists (set_next c s).
        rewrite lookup_insert_eq. split; [done|]. simpl.
        apply chain_from_insert; [|done]. intros Hin.
        apply (Hfresh k Hin). simpl. by left.
      * exists (l ++ [k]). rewrite <- !app_assoc. simpl.
        split; [done|]. split; [rewrite Hn, length_app; simpl; lia|].
        split; [done|]. split; [|split].
        -- intros k' s' [Heq|Hin]%elem_of_cons.
           ++ injection Heq as -> ->. split; [set_solver +|].
              exists c. rewrite Hother by done. by rewrite lookup_insert_eq.
           ++ destruct (Hst k' s' Hin) as [Hin' ?]. split; [|done].
              apply elem_of_app. by left.
        -- intros k' Hk'. simpl in Hk'.
           apply not_elem_of_cons in Hk' as [Hne Hk'].
           rewrite Hother by done. by rewrite lookup_insert_ne.
        -- intros k' [Hin| ->%list_elem_of_singleton]%elem_of_app.
           ++ destruct (Hkeys k' Hin) as [s' Hs']. exists s'. by right.
           ++ exists s. by left.
    + unfold chain_step at 2 4 6 8. simpl.
      destruct (IH c n h lacc) as (l & Hc & Hn & Hndl' & Hst & Hother & Hkeys).
      * done.
      * done.
      * intros k' Hin Hin'. apply (Hfresh k' Hin). simpl. by right.
      * done.
      * exists l. split_and!; try done.
        -- intros k' s' [Heq|Hin]%elem_of_cons; [done|]. by apply Hst.
        -- intros k' Hk'. simpl in Hk'.
           apply not_elem_of_cons in Hk' as [Hne Hk']. by apply Hother.
        -- intros k' Hin. destruct (Hkeys k' Hin) as [s' Hs']. exists s'. by right.
Qed.

End Chain.

(** ** Cooking and uncooking the chained stacks *)

Section CookedStacks.
Import Program.
Context `{Build, Headers}.

(** The state with other objects in the process heap and other deltas. *)
Definition with_stacks (heap : gmap Z HeapObject) (deltas : list (list Z))
    (p : Program) : Program :=
  set_cooked_stack_deltas deltas
    (set_process_heap (set_heap_objects heap (process_heap_ p)) p).

Lemma with_stacks_id p :
  with_stacks (heap_objects_ (process_heap_ p)) (cooked_stack_deltas_ p) p = p.
Proof. destruct p as [? ? ? ? [] ? ? ? ? ? ? ? ?]. reflexivity. Qed.

Definition cooked (functions : gmap Z FunctionObject) (s : Stack) : list Z * list Z :=
  cook_frames functions (frames_ s) O (replicate (List.length (frames_ s)) 0).

Lemma CookStacks_loop_spec l : ∀ i a p,
  chain_from (heap_objects_ (process_heap_ p)) a l → NoDup l →
  (i + List.length l ≤ List.length (cooked_stack_deltas_ p))%nat →
  ∃ heap deltas,
    CookStacks_loop (List.length l) i a p = Ok (Smi_zero, with_stacks heap deltas p) ∧
    chain_from heap a l ∧
    List.length deltas = List.length (cooked_stack_deltas_ p) ∧
    (∀ k, k ∉ l → heap !! k = heap_objects_ (process_heap_ p) !! k) ∧
    (∀ j b s, l !! j = Some b →
       heap_objects_ (process_heap_ p) !! b = Some (StackObject s) →
       heap !! b = Some (StackObject
                           (set_frames (cooked (functions_ (heap_ p)) s).1 s)) ∧
       deltas !! (i + j)%nat = Some (cooked (functions_ (heap_ p)) s).2) ∧
    (∀ j, (j < i)%nat → deltas !! j = cooked_stack_deltas_ p !! j).
Proof.
  induction l as [|b l IH]; intros i a p Hchain Hnd Hlen.
  - simpl in Hchain. subst a.
    exists (heap_objects_ (process_heap_ p)), (cooked_stack_deltas_ p).
    rewrite with_stacks_id. split_and!; try done;
      try (intros j b s Hj; by rewrite lookup_nil in Hj).
  - simpl in Hchain. destruct Hchain as (-> & s & Hs & Hchain).
    apply list.NoDup_cons in Hnd as [Hb Hnd]. simpl in Hlen.
    set (heap1 := <[b := StackObject (set_frames (cooked (functions_ (heap_ p)) s).1 s)]>
                    (heap_objects_ (process_heap_ p))).
    set (deltas1 := <[i := (cooked (functions_ (heap_ p)) s).2]> (cooked_stack_deltas_ p)).
    destruct (IH (S i) (next_ s) (with_stacks heap1 deltas1 p))
      as (heap & deltas & Hrun & Hchain' & Hlen' & Hother & Hcooked & Hbelow).
    { simpl. apply chain_from_insert; done. }
    { done. }
    { simpl. unfold deltas1. rewrite length_insert. lia. }
    exists heap, deltas. split_and!.
    + simpl. unfold mbind, M_bind. simpl.
      unfold Stack_cast. rewrite Hs. simpl. exact Hrun.
    + simpl. split; [done|]. exists (set_frames (cooked (functions_ (heap_ p)) s).1 s).
      split; [|done]. rewrite Hother by done. simpl.
      unfold heap1. by rewrite lookup_insert_eq.
    + rewrite Hlen'. simpl. unfold deltas1. by rewrite length_insert.
    + intros k [Hkb Hk]%not_elem_of_cons. rewrite Hother by done. simpl.
      unfold heap1. by rewrite lookup_insert_ne.
    + intros [|j] b' s' Hj Hs'; simpl in Hj.
      * injection Hj as <-. rewrite Hs in Hs'. injection Hs' as <-. split.
        -- rewrite Hother by done. simpl. unfold heap1. by rewrite lookup_insert_eq.
        -- rewrite Hbelow by lia. simpl. unfold deltas1.
           rewrite Nat.add_0_r. apply list_lookup_insert_eq. lia.
      * assert (b' ≠ b).
        { intros ->. apply Hb. by eapply list_elem_of_lookup_2. }
        destruct (Hcooked j b' s' Hj) as [Hh Hd].
        { simpl. unfold heap1. by rewrite lookup_insert_ne. }
        split; [done|]. etransitivity; [|exact Hd]. f_equal. lia.
    + intros j Hj. rewrite Hbelow by lia. simpl. unfold deltas1.
      apply list_lookup_insert_ne. lia.
Qed.

Lemma UncookAndUnchainStacks_loop_spec l : ∀ i a p,
  chain_from (heap_objects_ (process_heap_ p)) a l → NoDup l →
  (∀ j b s, l !! j = Some b →
     heap_objects_ (process_heap_ p) !! b = Some (StackObject s) →
     ∃ ds fs, cooked_stack_deltas_ p !! (i + j)%nat = Some ds ∧
              uncook_frames (frames_ s) O ds = Ok fs) →
  ∃ heap deltas,
    UncookAndUnchainStacks_loop (List.length l) i a p
      = Ok (Smi_zero, with_stacks heap deltas p) ∧
    (∀ k, k ∉ l → heap !! k = heap_objects_ (process_heap_ p) !! k) ∧
    (∀ j b s ds fs, l !! j = Some b →
       heap_objects_ (process_heap_ p) !! b = Some (StackObject s) →
       cooked_stack_deltas_ p !! (i + j)%nat = Some ds →
       uncook_frames (frames_ s) O ds = Ok fs →
       heap !! b = Some (StackObject (set_next (Smi_FromWord 0) (set_frames fs s)))).
Proof.
  induction l as [|b l IH]; intros i a p Hchain Hnd Hpre.
  - simpl in Hchain. subst a.
    exists (heap_objects_ (process_heap_ p)), (cooked_stack_deltas_ p).
    rewrite with_stacks_id. split_and!; try done;
      try (intros j b s ds fs Hj; by rewrite lookup_nil in Hj).
  - simpl in Hchain. destruct Hchain as (-> & s & Hs & Hchain).
    apply list.NoDup_cons in Hnd as [Hb Hnd].
    destruct (Hpre O b s eq_refl Hs) as (ds & fs & Hds & Hfs).
    rewrite Nat.add_0_r in Hds.
    set (heap1 := <[b := StackObject (set_next (Smi_FromWord 0) (set_frames fs s))]>
                    (heap_objects_ (process_heap_ p))).
    set (deltas1 := <[i := []]> (cooked_stack_deltas_ p)).
    destruct (IH (S i) (next_ s) (with_stacks heap1 deltas1 p))
      as (heap & deltas & Hrun & Hother & Hdone).
    { simpl. apply chain_from_insert; done. }
    { done. }
    { intros j b' s' Hj Hs'. simpl in Hs'.
      assert (b' ≠ b).
      { intros ->. apply Hb. by eapply list_elem_of_lookup_2. }
      unfold heap1 in Hs'. rewrite lookup_insert_ne in Hs' by done.
      destruct (Hpre (S j) b' s' Hj Hs') as (ds' & fs' & Hds' & Hfs').
      exists ds', fs'. split; [|done]. simpl. unfold deltas1.
      rewrite list_lookup_insert_ne by lia.
      rewrite <- Hds'. f_equal. lia. }
    exists heap, deltas. split_and!.
    + simpl. unfold mbind, M_bind. simpl.
      unfold Stack_cast. rewrite Hs. simpl. rewrite Hds. simpl. rewrite Hfs.
      simpl. exact Hrun.
    + intros k [Hkb Hk]%not_elem_of_cons. rewrite Hother by done. simpl.
      unfold heap1. by rewrite lookup_insert_ne.
    + intros [|j] b' s' ds' fs' Hj Hs' Hds' Hfs'; simpl in Hj.
      * injection Hj as <-. rewrite Hs in Hs'. injection Hs' as <-.
        rewrite Nat.add_0_r, Hds in Hds'. injection Hds' as <-.
        rewrite Hfs in Hfs'. injection Hfs' as <-.
        rewrite Hother by done. simpl. unfold heap1. by rewrite lookup_insert_eq.
      * assert (b' ≠ b).
        { intros ->. apply Hb. by eapply list_elem_of_lookup_2. }
        eapply (Hdone j b' s' ds' fs' Hj); [| |done].
        -- simpl. unfold heap1. by rewrite lookup_insert_ne.
        -- simpl. unfold deltas1. rewrite list_lookup_insert_ne by lia.
           rewrite <- Hds'. f_equal. lia.
Qed.

End CookedStacks.

(** ** Program collections, phase by phase *)

Section ProgramCollection.
Import DebugInfo Program.
Context `{Build, Flags, Headers}.

(** [at_ p0 q L p]: the run that started in [p0] has reached [p], whose
    core is the core of [q], and has gone through the phases [L]. *)
Definition at_ (p0 q : Program) (L : list Phase) (p : Program) : Prop :=
  core p = core q ∧ ∃ es, log_ p = log_ p0 ++ es ∧ phases es = L.

Lemma at_start p : at_ p p [] p.
Proof. split; [done|]. exists []. by rewrite app_nil_r. Qed.

Lemma wp_last {A} (m : M A) Q p : wp (m ≫= mret) Q p → wp m Q p.
Proof.
  intros (a & p' & Hrun & HQ). exists a, p'. split; [|done].
  unfold mbind, M_bind in Hrun. destruct (m p) as [[a' p'']| |]; [|done|done].
  exact Hrun.
Qed.

Lemma wp_seq {A B} (m : M A) (k : A → M B) (P : A → Program → Prop) Q p :
  wp m P p → (∀ a p', P a p' → wp (k a) Q p') → wp (m ≫= k) Q p.
Proof. intros Hm Hk. apply wp_bind. eapply wp_mono; eauto. Qed.

Lemma step_performs {A B} (m : M A) (k : A → M B) S Q p0 q L p :
  performs phase_of m S → at_ p0 q L p →
  (∀ a p' L', S L' → at_ p0 q (L ++ L') p' → wp (k a) Q p') →
  wp (m ≫= k) Q p.
Proof.
  intros Hm (Hcore & es & Hlog & HL) Hk. apply wp_bind.
  destruct (Hm p) as (a & p' & es' & Hrun & Hcore' & Hlog' & HS).
  exists a, p'. split; [done|]. apply (Hk a p' (omap phase_of es')); [done|].
  split; [congruence|]. exists (es ++ es'). split.
  - by rewrite Hlog', Hlog, app_assoc.
  - unfold phases in *. by rewrite omap_app, HL.
Qed.

Lemma step_quiet {A B} (m : M A) (k : A → M B) Q p0 q L p :
  quiet phase_of m → at_ p0 q L p →
  (∀ a p', at_ p0 q L p' → wp (k a) Q p') →
  wp (m ≫= k) Q p.
Proof.
  intros Hm Hat Hk. eapply step_performs; [exact Hm|exact Hat|].
  intros a p' L' <- Hat'. rewrite app_nil_r in Hat'. by apply Hk.
Qed.

Lemma step_tracks {A B} (m : M A) (k : A → M B) S Q p0 q L p :
  tracks_at p m S → at_ p0 q L p →
  (∀ a p' L', S a L' (answers_ (process_heap_ p')) →
     at_ p0 q (L ++ L') p' → wp (k a) Q p') →
  wp (m ≫= k) Q p.
Proof.
  intros (a & p' & es' & Hrun & Hcore' & Hlog' & HS)
         (Hcore & es & Hlog & HL) Hk.
  apply wp_bind. exists a, p'. split; [done|].
  apply (Hk a p' (phases es')); [done|].
  split; [congruence|]. exists (es ++ es'). split.
  - by rewrite Hlog', Hlog, app_assoc.
  - unfold phases in *. by rewrite omap_app, HL.
Qed.

(** A change of the state that the core determines and the log does not
    see. *)
Definition core_change (f : Program → Program) : Prop :=
  (∀ x y, core x = core y → core (f x) = core (f y)) ∧
  (∀ x, log_ (f x) = log_ x).

Lemma step_modify {B} (f : Program → Program) (k : unit → M B) Q p0 q L p :
  core_change f → at_ p0 q L p →
  (at_ p0 (f q) L (f p) → wp (k tt) Q (f p)) →
  wp (modify f ≫= k) Q p.
Proof.
  intros [Hf Hl] (Hcore & es & Hlog & HL) Hk. apply wp_bind, wp_modify.
  apply Hk. split; [by apply Hf|]. exists es. by rewrite Hl.
Qed.

Lemma core_heap_objects p q :
  core p = core q →
  heap_objects_ (process_heap_ p) = heap_objects_ (process_heap_ q).
Proof. intros Hc. by injection Hc. Qed.

Lemma core_stack_chain p q : core p = core q → stack_chain_ p = stack_chain_ q.
Proof. intros Hc. by injection Hc. Qed.

Lemma core_cooked_stack_deltas p q :
  core p = core q → cooked_stack_deltas_ p = cooked_stack_deltas_ q.
Proof. intros Hc. by injection Hc. Qed.

Lemma core_heap p q : core p = core q → heap_ p = heap_ q.
Proof. intros Hc. by injection Hc. Qed.

Lemma core_roots p q : core p = core q → roots_ p = roots_ q.
Proof. intros Hc. by injection Hc. Qed.

Lemma core_debug_info p q : core p = core q → debug_info_ p = debug_info_ q.
Proof. intros Hc. by injection Hc. Qed.

Lemma core_process_list p q : core p = core q → process_list_ p = process_list_ q.
Proof. intros Hc. by injection Hc. Qed.

Lemma core_processes p q : core p = core q → processes_ p = processes_ q.
Proof. intros Hc. by injection Hc. Qed.

Lemma core_session p q : core p = core q → session_ p = session_ q.
Proof. intros Hc. by injection Hc. Qed.

Lemma core_dispatch_table p q :
  core p = core q → dispatch_table_ p = dispatch_table_ q.
Proof. intros Hc. by injection Hc. Qed.

Lemma core_entry p q : core p = core q → entry_ p = entry_ q.
Proof. intros Hc. by injection Hc. Qed.

(** The stacks of [heap0] are chained in [heap] as [l], from [head]. *)
Definition chained (heap0 heap : gmap Z HeapObject) (head : Z) (l : list Z) : Prop :=
  chain_from heap head l ∧ NoDup l ∧
  (∀ k, k ∈ l → ∃ s, heap0 !! k = Some (StackObject s)) ∧
  (∀ k s, heap0 !! k = Some (StackObject s) →
     k ∈ l ∧ ∃ nx, heap !! k = Some (StackObject (set_next nx s))).

Lemma ChainStacks_chained heap0 :
  let r := foldl chain_step (NULL, O, heap0) (map_to_list heap0) in
  ∃ l, r.1.2 = List.length l ∧ chained heap0 r.2 r.1.1 l.
Proof.
  destruct (chain_steps (map_to_list heap0) NULL O heap0 [])
    as (l & Hc & Hn & Hnd & Hst & Hother & Hkeys).
  - apply NoDup_fst_map_to_list.
  - constructor.
  - intros k Hk. by apply elem_of_nil in Hk.
  - done.
  - rewrite app_nil_r in *. exists l. simpl. split; [done|].
    split_and!; try done.
    + intros k Hk. destruct (Hkeys k Hk) as [s Hs]. exists s.
      by apply elem_of_map_to_list.
    + intros k s Hs. apply Hst. by apply elem_of_map_to_list.
Qed.

Lemma CollectMutableGarbageAndChainStacks_spec p0 q L p :
  at_ p0 q L p → stack_chain_ q = NULL →
  wp CollectMutableGarbageAndChainStacks
    (fun n p' => ∃ l heap head,
       n = Z.of_nat (List.length l) ∧
       chained (heap_objects_ (process_heap_ q)) heap head l ∧
       at_ p0 (set_stack_chain head (with_stacks heap (cooked_stack_deltas_ q) q))
           (L ++ [ChainStacksPhase]) p') p.
Proof.
  intros Hat Hnull. unfold CollectMutableGarbageAndChainStacks.
  eapply step_performs;
    [apply (performs_emit phase_of Program_CollectMutableGarbageAndChainStacks [])
    |exact Hat|].
  clear p Hat. intros _ p L' <- Hat.
  apply wp_bind, wp_get. apply wp_bind, wp_assert.
  { apply bool_decide_eq_true. destruct Hat as [Hc _].
    by rewrite (core_stack_chain _ _ Hc). }
  eapply step_quiet; [apply quiet_IterateSharedHeapRoots|exact Hat|].
  clear p Hat. intros _ p Hat.
  eapply step_quiet; [by apply quiet_emit|exact Hat|].
  clear p Hat. intros _ p Hat.
  apply wp_bind. unfold wp at 1, ChainStacks. eexists _, _. split; [reflexivity|].
  pose proof Hat as [Hc _].
  rewrite (core_stack_chain _ _ Hc), Hnull, (core_heap_objects _ _ Hc).
  destruct (ChainStacks_chained (heap_objects_ (process_heap_ q)))
    as (l & Hn & Hchained).
  set (r := foldl chain_step (NULL, 0%nat, heap_objects_ (process_heap_ q))
              (map_to_list (heap_objects_ (process_heap_ q)))) in *.
  match goal with
  | |- wp _ _ ?p1 =>
      assert (Hat1 : at_ p0 (set_stack_chain r.1.1
                               (with_stacks r.2 (cooked_stack_deltas_ q) q))
                       (L ++ [ChainStacksPhase]) p1)
  end.
  { destruct Hat as (Hc' & es & Hlog & HL). split.
    - unfold core in *. simpl. injection Hc' as -> -> -> -> ? -> -> -> ? -> ->.
      reflexivity.
    - exists es. done. }
  revert Hat1. generalize (set_stack_chain r.1.1
    (set_process_heap (set_heap_objects r.2 (process_heap_ p)) p)).
  clear p Hat Hc. intros p Hat.
  eapply step_quiet; [apply quiet_CompactSharedHeap|exact Hat|].
  clear p Hat. intros _ p Hat.
  eapply step_quiet; [apply quiet_UpdateStackLimits|exact Hat|].
  clear p Hat. intros _ p Hat.
  eapply step_quiet; [apply quiet_when; by apply quiet_emit|exact Hat|].
  clear p Hat. intros _ p Hat.
  apply wp_ret. exists l, r.2, r.1.1. rewrite Hn. done.
Qed.

Lemma core_change_with_stacks heap deltas : core_change (with_stacks heap deltas).
Proof.
  split; [|done]. intros x y Hc. unfold core in *. simpl.
  injection Hc as -> -> -> -> ? -> -> -> -> ? ->. reflexivity.
Qed.

Lemma core_change_set_cooked_stack_deltas deltas :
  core_change (set_cooked_stack_deltas deltas).
Proof.
  split; [|done]. intros x y Hc. unfold core in *. simpl.
  injection Hc as -> -> -> -> -> -> -> -> -> ? ->. reflexivity.
Qed.

Lemma core_change_set_stack_chain chain : core_change (set_stack_chain chain).
Proof.
  split; [|done]. intros x y Hc. unfold core in *. simpl.
  injection Hc as -> -> -> -> -> -> -> -> ? -> ->. reflexivity.
Qed.

Lemma CookStacks_spec p0 q L p l :
  at_ p0 q L p →
  chain_from (heap_objects_ (process_heap_ q)) (stack_chain_ q) l → NoDup l →
  wp (CookStacks (Z.of_nat (List.length l)))
    (fun _ p' => ∃ heap deltas,
       at_ p0 (with_stacks heap deltas q) (L ++ [CookStacksPhase]) p' ∧
       chain_from heap (stack_chain_ q) l ∧
       List.length deltas = List.length l ∧
       (∀ k, k ∉ l → heap !! k = heap_objects_ (process_heap_ q) !! k) ∧
       (∀ j b s, l !! j = Some b →
          heap_objects_ (process_heap_ q) !! b = Some (StackObject s) →
          heap !! b = Some (StackObject
                              (set_frames (cooked (functions_ (heap_ q)) s).1 s)) ∧
          deltas !! j = Some (cooked (functions_ (heap_ q)) s).2)) p.
Proof.
  intros Hat Hchain Hnd. unfold CookStacks. rewrite Nat2Z.id.
  eapply step_performs;
    [apply (performs_emit phase_of Program_CookStacks [Z.of_nat (List.length l)])
    |exact Hat|].
  clear p Hat. intros _ p L' <- Hat.
  eapply step_modify;
    [apply core_change_set_cooked_stack_deltas|exact Hat|].
  clear Hat. generalize (set_cooked_stack_deltas (replicate (List.length l) []) p).
  clear p. intros p Hat.
  apply wp_bind, wp_get.
  pose proof Hat as [Hc _].
  destruct (CookStacks_loop_spec l O (stack_chain_ p) p)
    as (heap & deltas & Hrun & Hchain' & Hlen & Hother & Hcooked & _).
  { rewrite (core_heap_objects _ _ Hc), (core_stack_chain _ _ Hc). exact Hchain. }
  { done. }
  { rewrite (core_cooked_stack_deltas _ _ Hc). simpl. by rewrite length_replicate. }
  apply wp_bind. exists Smi_zero, (with_stacks heap deltas p). split; [done|].
  apply wp_assert; [by apply bool_decide_eq_true|].
  rewrite (core_heap_objects _ _ Hc), (core_stack_chain _ _ Hc),
    (core_heap _ _ Hc), (core_cooked_stack_deltas _ _ Hc) in *.
  simpl in *.
  exists heap, deltas. split_and!; try done.
  - destruct Hat as (_ & es & Hlog & HL). split.
    + apply (proj1 (core_change_with_stacks heap deltas)) in Hc.
      rewrite Hc. reflexivity.
    + exists es. done.
  - by rewrite Hlen, length_replicate.
Qed.

Lemma UncookAndUnchainStacks_spec p0 q L p l :
  at_ p0 q L p →
  chain_from (heap_objects_ (process_heap_ q)) (stack_chain_ q) l → NoDup l →
  List.length (cooked_stack_deltas_ q) = List.length l →
  (∀ j b s, l !! j = Some b →
     heap_objects_ (process_heap_ q) !! b = Some (StackObject s) →
     ∃ ds fs, cooked_stack_deltas_ q !! j = Some ds ∧
              uncook_frames (frames_ s) O ds = Ok fs) →
  wp UncookAndUnchainStacks
    (fun _ p' => ∃ heap,
       at_ p0 (set_stack_chain NULL (with_stacks heap [] q))
           (L ++ [UncookAndUnchain]) p' ∧
       (∀ k, k ∉ l → heap !! k = heap_objects_ (process_heap_ q) !! k) ∧
       (∀ j b s ds fs, l !! j = Some b →
          heap_objects_ (process_heap_ q) !! b = Some (StackObject s) →
          cooked_stack_deltas_ q !! j = Some ds →
          uncook_frames (frames_ s) O ds = Ok fs →
          heap !! b = Some (StackObject
                              (set_next (Smi_FromWord 0) (set_frames fs s))))) p.
Proof.
  intros Hat Hchain Hnd Hlen Hpre. unfold UncookAndUnchainStacks.
  eapply step_performs;
    [apply (performs_emit phase_of Program_UncookAndUnchainStacks [])
    |exact Hat|].
  clear p Hat. intros _ p L' <- Hat.
  apply wp_bind, wp_get. apply wp_bind, wp_get.
  pose proof Hat as [Hc _].
  rewrite (core_cooked_stack_deltas _ _ Hc), Hlen.
  destruct (UncookAndUnchainStacks_loop_spec l O (stack_chain_ p) p)
    as (heap & deltas & Hrun & Hother & Hdone).
  { rewrite (core_heap_objects _ _ Hc), (core_stack_chain _ _ Hc). exact Hchain. }
  { done. }
  { rewrite (core_heap_objects _ _ Hc), (core_cooked_stack_deltas _ _ Hc).
    exact Hpre. }
  apply wp_bind. exists Smi_zero, (with_stacks heap deltas p). split; [done|].
  apply wp_bind, wp_assert; [by apply bool_decide_eq_true|].
  apply wp_bind, wp_modify, wp_modify.
  rewrite (core_heap_objects _ _ Hc), (core_cooked_stack_deltas _ _ Hc) in *.
  exists heap. split_and!; try done.
  destruct Hat as (_ & es & Hlog & HL). split.
  - unfold core in *. simpl.
    injection Hc as -> -> -> -> ? -> -> -> ? ? ->. reflexivity.
  - exists es. done.
Qed.

Local Ltac core_change_tac :=
  split; [|done];
  let x := fresh "x" in let y := fresh "y" in let Hc := fresh "Hc" in
  intros x y Hc;
  destruct x as [? ? ? ? [] ? ? ? ? ? ? ? ?];
  destruct y as [? ? ? ? [] ? ? ? ? ? ? ? ?];
  unfold core in *; simpl in *;
  injection Hc; intros; subst; reflexivity.

Lemma wp_lift_deref {A B} (o : option A) (a : A) (k : A → M B) Q p :
  o = Some a → wp (k a) Q p → wp (lift (deref o) ≫= k) Q p.
Proof.
  intros -> Hk. apply wp_bind. exists a, p. by split.
Qed.

(** The loop over the processes that updates each of them. *)
Lemma for_each_update_spec callee (f : Process → Process) (I : Process → Prop) l :
  (∀ r, I (f r)) →
  ∀ p0 q L p,
  at_ p0 q L p → (∀ x, x ∈ l → is_Some (processes_ q !! x)) →
  wp (for_each l (fun x => emit callee [x];; update_process x f))
    (fun _ p' => ∃ P,
       at_ p0 (set_processes P q)
           (L ++ phases ((fun x => Call callee [x]) <$> l)) p' ∧
       (∀ x, is_Some (P !! x) ↔ is_Some (processes_ q !! x)) ∧
       (∀ x, x ∉ l → P !! x = processes_ q !! x) ∧
       (∀ x, x ∈ l → ∃ r, P !! x = Some r ∧ I r) ∧
       (NoDup l → ∀ x r, x ∈ l → processes_ q !! x = Some r →
          P !! x = Some (f r))) p.
Proof.
  intros HI. induction l as [|x l IH]; intros p0 q L p Hat Hin.
  - apply wp_ret. exists (processes_ q). rewrite app_nil_r.
    split_and!;
      [ split; [apply Hat|destruct Hat as (_ & es & ? & ?); by exists es]
      | done | done | intros x Hx; by apply elem_of_nil in Hx
      | intros _ x r Hx; by apply elem_of_nil in Hx ].
  - simpl.
    destruct (Hin x) as [r Hr]; [by left|].
    match goal with
    | |- wp (?m ≫= ?k) _ _ =>
        change (wp ((emit callee [x] ≫= fun _ => update_process x f) ≫= k)
                  (fun _ p' => ∃ P,
                     at_ p0 (set_processes P q)
                         (L ++ phases ((fun x => Call callee [x]) <$> x :: l)) p' ∧
                     (∀ x, is_Some (P !! x) ↔ is_Some (processes_ q !! x)) ∧
                     (∀ y, y ∉ x :: l → P !! y = processes_ q !! y) ∧
                     (∀ y, y ∈ x :: l → ∃ r, P !! y = Some r ∧ I r) ∧
                     (NoDup (x :: l) → ∀ y r, y ∈ x :: l →
                        processes_ q !! y = Some r → P !! y = Some (f r))) p)
    end.
    apply wp_bind.
    eapply step_performs; [apply (performs_emit phase_of callee [x])|exact Hat|].
    clear p Hat. intros _ p L' <- Hat.
    unfold update_process. apply wp_bind, wp_get.
    pose proof Hat as [Hc _].
    rewrite (core_processes _ _ Hc).
    eapply wp_lift_deref; [exact Hr|].
    apply wp_modify.
    set (P1 := <[x := f r]> (processes_ q)).
    eapply wp_mono.
    { apply (IH p0 (set_processes P1 q)
               (L ++ omap phase_of [Call callee [x]])).
      - destruct Hat as (Hc' & es & Hlog & HL). split; [|by exists es].
        revert Hc'. clear. intros Hc.
        destruct p as [? ? ? ? [] ? ? ? ? ? ? ? ?];
          destruct q as [? ? ? ? [] ? ? ? ? ? ? ? ?].
        unfold core in *; simpl in *. injection Hc; intros; subst; reflexivity.
      - intros y Hy. simpl. unfold P1.
        destruct (decide (y = x)) as [->|Hne].
        + rewrite lookup_insert_eq. eauto.
        + rewrite lookup_insert_ne by done. apply Hin. by right. }
    cbv beta. intros _ p' (P & Hat' & Hdom & Hother & Hinv & Hexact).
    exists P. split_and!.
    + assert (Heq : L ++ phases ((fun x => Call callee [x]) <$> x :: l)
                    = (L ++ omap phase_of [Call callee [x]])
                      ++ phases ((fun x => Call callee [x]) <$> l)).
      { rewrite <- app_assoc. f_equal. unfold phases. rewrite fmap_cons.
        apply (omap_app _ [_]). }
      rewrite Heq. exact Hat'.
    + intros y. rewrite Hdom. unfold P1. simpl.
      destruct (decide (y = x)) as [->|Hne].
      * rewrite lookup_insert_eq. split; eauto.
      * by rewrite lookup_insert_ne by done.
    + intros y [Hne Hy]%not_elem_of_cons. rewrite Hother by done.
      unfold P1. simpl. by rewrite lookup_insert_ne by done.
    + intros y [->|Hy]%elem_of_cons.
      * destruct (decide (x ∈ l)) as [Hx|Hx]; [by apply Hinv|].
        exists (f r). split; [|done]. rewrite Hother by done.
        unfold P1. simpl. by rewrite lookup_insert_eq.
      * by apply Hinv.
    + intros [Hx Hnd]%list.NoDup_cons y r0 [->|Hy]%elem_of_cons Hr0.
      * rewrite Hother by done. unfold P1. simpl.
        rewrite lookup_insert_eq. congruence.
      * apply (Hexact Hnd y r0 Hy). simpl. unfold P1.
        rewrite lookup_insert_ne; [done|]. by intros ->.
Qed.

Lemma phases_process_calls_quiet callee (l : list Z) :
  (∀ x, phase_of (Call callee [x]) = None) →
  phases ((fun x => Call callee [x]) <$> l) = [].
Proof.
  intros Hc. induction l as [|x l IH]; [done|].
  rewrite fmap_cons. unfold phases in *. cbn [omap list_omap].
  by rewrite Hc, IH.
Qed.

Lemma phases_process_calls callee phase (l : list Z) :
  (∀ x, phase_of (Call callee [x]) = Some phase) →
  phases ((fun x => Call callee [x]) <$> l) = replicate (List.length l) phase.
Proof.
  intros Hc. induction l as [|x l IH]; [done|].
  rewrite fmap_cons. unfold phases in *. cbn [omap list_omap].
  rewrite Hc, IH. done.
Qed.

(** The core after the scavenge of the program heap, up to the processes. *)
Definition scavenged (to : Heap) (visitor : Z → Z) (P : gmap Z Process)
    (q : Program) : Program :=
  set_heap to
    (set_dispatch_table
       ((fun table : list DispatchTableEntry =>
           (fun entry => {| target_ := visitor (target_ entry);
                            code_ := code_ entry |}) <$> table)
          <$> dispatch_table_ q)
       (set_process_heap
          (set_heap_objects
             (CookedHeapObjectPointerVisitor visitor <$> heap_objects_ (process_heap_ q))
             (process_heap_ q))
          (set_processes P
             (set_debug_info (VisitProgramPointers visitor <$> debug_info_ q)
                (set_entry (visitor (entry_ q))
                   (set_roots (fun r => visitor (roots_ q r)) q)))))).

Lemma at_modify (f : Program → Program) p0 q L p :
  core_change f → at_ p0 q L p →
  wp (modify f) (fun _ p' => at_ p0 (f q) L p') p.
Proof.
  intros [Hf Hl] (Hcore & es & Hlog & HL). apply wp_modify.
  split; [by apply Hf|]. exists es. by rewrite Hl.
Qed.

Lemma at_performs {A} (m : M A) S p0 q L p :
  performs phase_of m S → at_ p0 q L p →
  wp m (fun _ p' => ∃ L', S L' ∧ at_ p0 q (L ++ L') p') p.
Proof.
  intros Hm Hat. apply wp_last.
  eapply step_performs; [exact Hm|exact Hat|].
  intros a p' L' HS Hat'. apply wp_ret. eauto.
Qed.

Lemma at_quiet {A} (m : M A) p0 q L p :
  quiet phase_of m → at_ p0 q L p →
  wp m (fun _ p' => at_ p0 q L p') p.
Proof.
  intros Hm Hat. apply wp_last.
  eapply step_quiet; [exact Hm|exact Hat|].
  intros a p' Hat'. by apply wp_ret.
Qed.

Lemma IterateRoots_spec visitor p0 q L p :
  at_ p0 q L p →
  wp (IterateRoots visitor)
    (fun _ p' =>
       at_ p0 (set_debug_info (VisitProgramPointers visitor <$> debug_info_ q)
                 (set_entry (visitor (entry_ q))
                    (set_roots (fun r => visitor (roots_ q r)) q))) L p') p.
Proof.
  intros Hat. unfold IterateRoots, IterateRootsIgnoringSession.
  eapply wp_seq.
  { eapply step_modify with
      (f := fun p => set_roots (fun r => visitor (roots_ p r)) p);
      [core_change_tac|exact Hat|].
    intros Hat1.
    eapply (at_modify (fun p => set_entry (visitor (entry_ p)) p));
      [core_change_tac|exact Hat1]. }
  cbv beta. clear p Hat. intros _ p Hat.
  eapply step_modify with
    (f := fun p => set_debug_info (VisitProgramPointers visitor <$> debug_info_ p) p);
    [core_change_tac|exact Hat|].
  intros Hat1.
  apply wp_bind, wp_get.
  apply at_quiet; [|exact Hat1].
  apply quiet_when. by apply quiet_emit.
Qed.

Lemma PerformProgramGC_spec to visitor p0 q L p :
  at_ p0 q L p →
  (∀ x, x ∈ process_list_ q → is_Some (processes_ q !! x)) →
  objects_ to ≠ [] →
  wp (PerformProgramGC to visitor)
    (fun _ p' => ∃ P,
       at_ p0 (scavenged to visitor P q) (L ++ [ProgramSpaceScavenge]) p' ∧
       (∀ x, is_Some (P !! x) ↔ is_Some (processes_ q !! x)) ∧
       (NoDup (process_list_ q) → ∀ x r,
          x ∈ process_list_ q → processes_ q !! x = Some r →
          P !! x = Some (set_process_debug_info
                           (VisitProgramPointers visitor <$> process_debug_info_ r)
                           r))) p.
Proof.
  intros Hat Hprocesses Hto. unfold PerformProgramGC.
  eapply step_performs;
    [apply (performs_emit phase_of Program_PerformProgramGC [])|exact Hat|].
  clear p Hat. intros _ p L' <- Hat.
  eapply wp_seq; [by apply IterateRoots_spec|].
  cbv beta. clear p Hat. intros _ p Hat.
  eapply wp_seq.
  { unfold VisitProcesses. apply wp_bind, wp_get.
    rewrite (core_process_list _ _ (proj1 Hat)). simpl.
    apply (for_each_update_spec Process_IterateProgramPointers
             (fun r => set_process_debug_info
                         (VisitProgramPointers visitor <$> process_debug_info_ r) r)
             (fun _ => True)); [done|exact Hat|].
    intros x Hx. simpl. by apply Hprocesses. }
  cbv beta. clear p Hat. intros _ p (P & Hat & Hdom & _ & _ & Hexact).
  rewrite phases_process_calls_quiet, app_nil_r in Hat by done.
  eapply step_modify with
    (f := fun p =>
            set_process_heap
              (set_heap_objects
                 (CookedHeapObjectPointerVisitor visitor <$> heap_objects_ (process_heap_ p))
                 (process_heap_ p)) p);
    [core_change_tac|exact Hat|].
  clear Hat. intros Hat.
  apply wp_bind, wp_assert.
  { unfold is_empty. apply negb_true_iff. by apply bool_decide_eq_false. }
  eapply step_quiet; [by apply quiet_emit|exact Hat|].
  clear Hat. intros _ p1 Hat.
  eapply step_modify with
    (f := fun p =>
            set_dispatch_table
              ((fun table : list DispatchTableEntry =>
                  (fun entry => {| target_ := visitor (target_ entry);
                                   code_ := code_ entry |}) <$> table)
                 <$> dispatch_table_ p) p);
    [core_change_tac|exact Hat|].
  clear Hat. intros Hat.
  eapply step_quiet; [by apply quiet_emit|exact Hat|].
  clear Hat. intros _ p2 Hat.
  eapply wp_mono; [apply (at_modify (set_heap to)); [core_change_tac|exact Hat]|].
  cbv beta. intros _ p3 Hat3. exists P.
  split_and!; [exact Hat3|exact Hdom|exact Hexact].
Qed.

Definition placements_ok (roots : Root → Z) : Prop :=
  wrap_uword (roots false_object_ - roots null_object_) = 2 * kWordSize ∧
  wrap_uword (roots true_object_ - roots false_object_) = 2 * kWordSize.

Lemma VerifyObjectPlacements_spec p0 q L p :
  at_ p0 q L p → placements_ok (roots_ q) →
  wp VerifyObjectPlacements (fun _ p' => at_ p0 q L p') p.
Proof.
  intros Hat [Hf Ht]. unfold VerifyObjectPlacements, root.
  apply wp_bind, wp_get. apply wp_bind, wp_get. apply wp_bind, wp_get.
  rewrite (core_roots _ _ (proj1 Hat)).
  apply wp_bind, wp_assert; [by apply Z.eqb_eq|].
  apply wp_assert; [by apply Z.eqb_eq|]. exact Hat.
Qed.

(** The breakpoints of a table are stored under the keys their functions
    and indices give. *)
Definition keyed (d : DebugInfo) : Prop :=
  ∀ key b, breakpoints_ d !! key = Some b →
    key = bytecode_address_for (function_ b) 0 + bytecode_index_ b.

Lemma UpdateBreakpoints_keyed d : keyed (UpdateBreakpoints d).
Proof.
  unfold keyed, UpdateBreakpoints. simpl.
  generalize (map_to_list (breakpoints_ d)). intros l.
  assert (Hgen : ∀ acc : gmap Z Breakpoint,
    (∀ key b, acc !! key = Some b →
       key = bytecode_address_for (function_ b) 0 + bytecode_index_ b) →
    ∀ key b,
      foldl (fun (acc : gmap Z Breakpoint) (it : Z * Breakpoint) =>
               Insert (bytecode_address_for (function_ it.2) 0 + bytecode_index_ it.2)
                      it.2 acc) acc l !! key = Some b →
      key = bytecode_address_for (function_ b) 0 + bytecode_index_ b).
  { induction l as [|it l IH]; intros acc Hacc; simpl; [exact Hacc|].
    apply IH. intros key b. unfold Insert.
    destruct (acc !! _) eqn:E; [apply Hacc|].
    destruct (decide (key = bytecode_address_for (function_ it.2) 0
                            + bytecode_index_ it.2)) as [->|Hne].
    - rewrite lookup_insert_eq. by intros [= <-].
    - rewrite lookup_insert_ne by done. apply Hacc. }
  apply Hgen. intros key b Hk. by rewrite lookup_empty in Hk.
Qed.

Definition process_keyed (r : Process) : Prop :=
  ∀ d, process_debug_info_ r = Some d → keyed d.

Lemma FinishProgramGC_spec p0 q L p l :
  at_ p0 q L p →
  chain_from (heap_objects_ (process_heap_ q)) (stack_chain_ q) l → NoDup l →
  List.length (cooked_stack_deltas_ q) = List.length l →
  (∀ j b s, l !! j = Some b →
     heap_objects_ (process_heap_ q) !! b = Some (StackObject s) →
     ∃ ds fs, cooked_stack_deltas_ q !! j = Some ds ∧
              uncook_frames (frames_ s) O ds = Ok fs) →
  (∀ x, x ∈ process_list_ q → is_Some (processes_ q !! x)) →
  placements_ok (roots_ q) →
  wp FinishProgramGC
    (fun _ p' => ∃ heap P,
       at_ p0 (set_debug_info (UpdateBreakpoints <$> debug_info_ q)
                 (set_processes P
                    (set_stack_chain NULL (with_stacks heap [] q))))
           (L ++ [UncookAndUnchain]
              ++ replicate (List.length (process_list_ q)) BreakpointUpdate
              ++ (if debug_info_ q is Some _ then [BreakpointUpdate] else [])) p' ∧
       (∀ k, k ∉ l → heap !! k = heap_objects_ (process_heap_ q) !! k) ∧
       (∀ j b s ds fs, l !! j = Some b →
          heap_objects_ (process_heap_ q) !! b = Some (StackObject s) →
          cooked_stack_deltas_ q !! j = Some ds →
          uncook_frames (frames_ s) O ds = Ok fs →
          heap !! b = Some (StackObject
                              (set_next (Smi_FromWord 0) (set_frames fs s)))) ∧
       (∀ x, x ∈ process_list_ q → ∃ r, P !! x = Some r ∧ process_keyed r) ∧
       (NoDup (process_list_ q) → ∀ x r,
          x ∈ process_list_ q → processes_ q !! x = Some r →
          P !! x = Some (set_process_debug_info
                           (UpdateBreakpoints <$> process_debug_info_ r) r))) p.
Proof.
  intros Hat Hchain Hnd Hlen Hpre Hprocesses Hplace. unfold FinishProgramGC.
  eapply wp_seq; [by apply (UncookAndUnchainStacks_spec p0 q L p l)|].
  cbv beta. clear p Hat. intros _ p (heap & Hat & Hother & Hdone).
  eapply wp_seq.
  { unfold VisitProcesses. apply wp_bind, wp_get.
    rewrite (core_process_list _ _ (proj1 Hat)). simpl.
    apply (for_each_update_spec Process_UpdateBreakpoints
             (fun r => set_process_debug_info
                         (UpdateBreakpoints <$> process_debug_info_ r) r)
             process_keyed); [|exact Hat|].
    - intros r d. simpl. destruct (process_debug_info_ r); [|done].
      intros [= <-]. apply UpdateBreakpoints_keyed.
    - intros x Hx. simpl. by apply Hprocesses. }
  cbv beta. clear p Hat. intros _ p (P & Hat & Hdom & _ & Hkeyed & Hexact).
  rewrite (phases_process_calls _ BreakpointUpdate) in Hat by done.
  apply wp_bind, wp_get.
  rewrite (core_debug_info _ _ (proj1 Hat)). simpl.
  eapply wp_seq with
    (P := fun _ p' =>
       at_ p0 (set_debug_info (UpdateBreakpoints <$> debug_info_ q)
                 (set_processes P
                    (set_stack_chain NULL (with_stacks heap [] q))))
           (L ++ [UncookAndUnchain]
              ++ replicate (List.length (process_list_ q)) BreakpointUpdate
              ++ (if debug_info_ q is Some _ then [BreakpointUpdate] else [])) p').
  { destruct (debug_info_ q) as [d|] eqn:Hd.
    - eapply step_performs;
        [apply (performs_emit phase_of DebugInfo_UpdateBreakpoints [])
        |exact Hat|].
      clear p Hat. intros _ p L' <- Hat.
      eapply wp_mono;
        [apply (at_modify (set_debug_info (Some (UpdateBreakpoints d))));
         [core_change_tac|exact Hat]|].
      cbv beta. intros _ p' Hat'. simpl in *.
      rewrite <- !app_assoc in Hat'. exact Hat'.
    - apply wp_ret. simpl in *. rewrite app_nil_r.
      rewrite <- !app_assoc in Hat.
      destruct Hat as (Hc & Hes). split; [|exact Hes].
      rewrite Hc. unfold core. simpl. by rewrite Hd. }
  cbv beta. clear p Hat. intros _ p Hat.
  eapply wp_seq; [by apply VerifyObjectPlacements_spec|].
  cbv beta. clear p Hat. intros _ p Hat.
  eapply wp_mono;
    [apply at_quiet;
     [apply quiet_when, quiet_ValidateHeapsAreConsistent|exact Hat]|].
  cbv beta. intros _ p' Hat'. exists heap, P. split_and!; done.
Qed.

Lemma performs_ClearCache : performs phase_of ClearCache (eq [ClearLookupCache]).
Proof.
  unfold ClearCache.
  apply performs_bind_quiet; [apply (performs_emit phase_of Program_ClearCache [])|].
  intros _. apply quiet_bind; [apply quiet_get|]. intros [cache|].
  - apply quiet_bind; [by apply quiet_emit|]. intros _. by apply quiet_modify.
  - apply quiet_ret.
Qed.

Lemma PrepareProgramGC_spec p0 q L p :
  at_ p0 q L p → stack_chain_ q = NULL →
  wp PrepareProgramGC
    (fun _ p' => ∃ l heap1 head heap deltas scavenge extra,
       scavenge ++ extra = new_space_phases (answers_ (process_heap_ p)) ∧
       at_most NewSpaceScavenge scavenge ∧ at_most SharedOldSpaceGC extra ∧
       chained (heap_objects_ (process_heap_ q)) heap1 head l ∧
       chain_from heap head l ∧
       List.length deltas = List.length l ∧
       (∀ j b s, l !! j = Some b → heap1 !! b = Some (StackObject s) →
          heap !! b = Some (StackObject
                              (set_frames (cooked (functions_ (heap_ q)) s).1 s)) ∧
          deltas !! j = Some (cooked (functions_ (heap_ q)) s).2) ∧
       at_ p0 (with_stacks heap deltas
                 (set_stack_chain head
                    (with_stacks heap1 (cooked_stack_deltas_ q) q)))
           (L ++ [SharedOldSpaceGC] ++ scavenge ++ extra
              ++ [ChainStacksPhase; CookStacksPhase]) p') p.
Proof.
  intros Hat Hnull. unfold PrepareProgramGC.
  set (answers := answers_ (process_heap_ p)).
  assert (Hanswers : answers_ (process_heap_ p) = answers) by done.
  clearbody answers.
  eapply step_tracks;
    [apply (tracks_at_unasked p _ []);
     [apply quiet_when, quiet_ValidateHeapsAreConsistent
     |apply unasked_when, unasked_ValidateHeapsAreConsistent]
    |exact Hat|].
  intros _ p1 L' [-> Hanswers1] Hat1. rewrite app_nil_r in Hat1.
  rewrite Hanswers in Hanswers1. clear p Hat Hanswers.
  eapply step_tracks;
    [apply (tracks_at_unasked p1 _ [SharedOldSpaceGC]);
     [apply performs_PerformSharedGarbageCollection
     |apply unasked_PerformSharedGarbageCollection]
    |exact Hat1|].
  intros _ p L' [-> Hanswers] Hat.
  rewrite Hanswers1 in Hanswers. clear p1 Hat1 Hanswers1.
  eapply step_tracks; [apply tracks_at_CollectNewSpace|exact Hat|].
  rewrite Hanswers. clear p Hat Hanswers. intros _ p L' -> Hat.
  set (scavenge := if new_space_is_empty answers then []
                   else [NewSpaceScavenge]).
  set (extra := if further_collection answers then [SharedOldSpaceGC]
                else []).
  assert (Hphases : scavenge ++ extra = new_space_phases answers) by done.
  assert (Hscavenge : at_most NewSpaceScavenge scavenge).
  { unfold scavenge. destruct (new_space_is_empty answers); [by left|by right]. }
  assert (Hextra : at_most SharedOldSpaceGC extra).
  { unfold extra. destruct (further_collection answers); [by right|by left]. }
  unfold new_space_phases in Hat. fold scavenge extra in Hat.
  clearbody scavenge extra.
  eapply wp_seq; [by apply CollectMutableGarbageAndChainStacks_spec|].
  cbv beta. clear p Hat. intros n p (l & heap1 & head & -> & Hchained & Hat).
  eapply wp_mono.
  { eapply (CookStacks_spec p0 _ _ p l); [exact Hat| |].
    - simpl. apply Hchained.
    - apply Hchained. }
  cbv beta. intros _ p' (heap & deltas & Hat' & Hchain & Hlen & Hother & Hcooked).
  exists l, heap1, head, heap, deltas, scavenge, extra.
  split_and!; try done.
  rewrite <- !app_assoc in Hat'. exact Hat'.
Qed.

Lemma chain_from_visited visitor heap head l :
  visitor Smi_zero = Smi_zero → (∀ k, k ∈ l → visitor k = k) →
  chain_from heap head l →
  chain_from (CookedHeapObjectPointerVisitor visitor <$> heap) head l.
Proof.
  intros Hzero. revert head. induction l as [|a l IH]; intros head Hfix; simpl; [done|].
  intros (-> & s & Hs & Hchain). split; [done|].
  eexists. rewrite lookup_fmap, Hs. simpl. split; [reflexivity|]. simpl.
  assert (Hnext : visitor (next_ s) = next_ s).
  { destruct l as [|b l]; simpl in Hchain.
    - by rewrite Hchain.
    - destruct Hchain as [-> _]. apply Hfix. right. by left. }
  rewrite Hnext. apply IH; [|done]. intros k Hk. apply Hfix. by right.
Qed.

(** What a program collection asks of the program and of the scavenger:
    no chain left over, every process of the list is there, the functions
    and the frames are well formed, the visitor behaves, the to-space is
    not empty once scavenged, and the three singletons are placed in it as
    they must be. *)
Definition gc_ready (scavenger : ScavengeVisitor) (p : Program) : Prop :=
  stack_chain_ p = NULL ∧
  (∀ x, x ∈ process_list_ p → is_Some (processes_ p !! x)) ∧
  functions_ok (functions_ (heap_ p)) ∧
  (∀ a s, heap_objects_ (process_heap_ p) !! a = Some (StackObject s) →
     Forall (frame_ok (functions_ (heap_ p))) (frames_ s)) ∧
  visitor_ok (Visit scavenger) ∧
  (∀ a, is_Some (heap_objects_ (process_heap_ p) !! a) → Visit scavenger a = a) ∧
  objects_ (to scavenger) ≠ [] ∧
  placements_ok (fun r => Visit scavenger (roots_ p r)).

(** The phases a program collection goes through.  Those of the
    collections of the process heap follow from what the collaborators
    answer, in the order in which they are asked: the scavenge of the new
    space is run exactly when the new space is not empty, and a further
    shared collection exactly when [CollectNewSpace] has cause for one. *)
Definition collection_phases (p : Program) (run : list Phase) : Prop :=
  run = [ClearLookupCache; SharedOldSpaceGC]
        ++ (if new_space_is_empty (answers_ (process_heap_ p)) then []
            else [NewSpaceScavenge])
        ++ (if further_collection (answers_ (process_heap_ p))
            then [SharedOldSpaceGC] else [])
        ++ [ChainStacksPhase; CookStacksPhase; ProgramSpaceScavenge;
            UncookAndUnchain]
        ++ replicate (List.length (process_list_ p)) BreakpointUpdate
        ++ (if debug_info_ p is Some _ then [BreakpointUpdate] else []).

Lemma CollectGarbage_spec scavenger p :
  gc_ready scavenger p →
  wp (CollectGarbage scavenger)
    (fun _ p' =>
       (∀ a s, heap_objects_ (process_heap_ p) !! a = Some (StackObject s) →
          heap_objects_ (process_heap_ p') !! a =
            Some (StackObject
                    {| length_ := length_ s;
                       frames_ := rebase (functions_ (heap_ p)) (Visit scavenger)
                                    <$> frames_ s;
                       next_ := Smi_FromWord 0 |})) ∧
       debug_info_ p' =
         (fun d => UpdateBreakpoints (VisitProgramPointers (Visit scavenger) d))
           <$> debug_info_ p ∧
       (∀ x, x ∈ process_list_ p →
          ∃ r, processes_ p' !! x = Some r ∧ process_keyed r) ∧
       dispatch_table_ p' =
         (fun table : list DispatchTableEntry =>
            (fun entry => {| target_ := Visit scavenger (target_ entry);
                             code_ := code_ entry |}) <$> table)
           <$> dispatch_table_ p ∧
       (NoDup (process_list_ p) → ∀ x r,
          x ∈ process_list_ p → processes_ p !! x = Some r →
          processes_ p' !! x
            = Some (set_process_debug_info
                      ((fun d => UpdateBreakpoints
                                   (VisitProgramPointers (Visit scavenger) d))
                         <$> process_debug_info_ r) r)) ∧
       ∃ es, log_ p' = log_ p ++ es ∧ collection_phases p (phases es)) p.
Proof.
  intros (Hnull & Hprocesses & Hfunctions & Hframes & Hvisitor & Hfixed & Hto & Hplace).
  unfold CollectGarbage.
  eapply step_tracks;
    [apply (tracks_at_unasked p _ [ClearLookupCache]);
     [apply performs_ClearCache|apply unasked_ClearCache]
    |apply at_start|].
  intros _ p1 L' [-> Hanswers] Hat. simpl in Hat.
  eapply wp_seq; [by apply PrepareProgramGC_spec|].
  cbv beta. rewrite Hanswers. clear p1 Hat Hanswers.
  intros _ p1 (l & heap1 & head & heap & deltas & scavenge & extra & Hasked
               & Hscavenge & Hextra & Hchained & Hchain & Hlen & Hcooked & Hat).
  destruct Hchained as (Hchain1 & Hnd & Hstacks & Hchained).
  eapply wp_seq.
  { eapply PerformProgramGC_spec; [exact Hat| |exact Hto].
    intros x Hx. simpl in *. by apply Hprocesses. }
  cbv beta. clear p1 Hat. intros _ p1 (P & Hat & Hdom & Hvisited).
  assert (Hzero : Visit scavenger Smi_zero = Smi_zero).
  { by apply Hvisitor. }
  assert (Hfix : ∀ k, k ∈ l → Visit scavenger k = k).
  { intros k Hk. apply Hfixed. destruct (Hstacks k Hk) as [s Hs]. by eexists. }
  eapply wp_mono.
  { eapply (FinishProgramGC_spec p _ _ p1 l); [exact Hat|..].
    - simpl. by apply chain_from_visited.
    - done.
    - simpl. done.
    - simpl. intros j b s Hj. rewrite lookup_fmap.
      assert (Hb : b ∈ l) by (by eapply list_elem_of_lookup_2).
      destruct (Hstacks b Hb) as [s0 Hs0].
      destruct (Hchained b s0 Hs0) as [_ [nx Hs1]].
      destruct (Hcooked j b _ Hj Hs1) as [HsC Hds].
      rewrite HsC. simpl. intros [= <-]. simpl.
      eexists _, _. split; [exact Hds|].
      apply cook_uncook; try done.
      + by apply (Hframes b s0).
      + simpl. by rewrite length_replicate.
    - simpl. intros x Hx. apply Hdom. by apply Hprocesses.
    - simpl. exact Hplace. }
  cbv beta. intros _ p' (heapF & P' & Hat' & Hother & Hdone & Hkeyed & Hupdated).
  destruct Hat' as (Hcore & es & Hlog & Hphases).
  split_and!.
  - intros a s0 Hs0.
    rewrite (core_heap_objects _ _ Hcore). simpl.
    destruct (Hchained a s0 Hs0) as [Ha [nx Hs1]].
    apply list_elem_of_lookup in Ha as [j Hj].
    destruct (Hcooked j a _ Hj Hs1) as [HsC Hds].
    erewrite (Hdone j a); [| exact Hj | simpl; rewrite lookup_fmap, HsC; reflexivity
                           | simpl; exact Hds | ].
    + reflexivity.
    + simpl. apply cook_uncook; try done.
      * by apply (Hframes a s0).
      * simpl. by rewrite length_replicate.
  - rewrite (core_debug_info _ _ Hcore). simpl. by destruct (debug_info_ p).
  - intros x Hx. rewrite (core_processes _ _ Hcore). simpl. by apply Hkeyed.
  - by rewrite (core_dispatch_table _ _ Hcore).
  - intros Hlist x r Hx Hr. rewrite (core_processes _ _ Hcore). simpl.
    rewrite (Hupdated Hlist x _ Hx (Hvisited Hlist x r Hx Hr)).
    f_equal. destruct r as [? ? ? [d|]]; reflexivity.
  - exists es. split; [done|]. unfold collection_phases.
    change ((if new_space_is_empty (answers_ (process_heap_ p)) then []
             else [NewSpaceScavenge])
            ++ (if further_collection (answers_ (process_heap_ p))
                then [SharedOldSpaceGC] else []) ++ ?rest)
      with ((if new_space_is_empty (answers_ (process_heap_ p)) then []
             else [NewSpaceScavenge])
            ++ ((if further_collection (answers_ (process_heap_ p))
                 then [SharedOldSpaceGC] else []) ++ rest)).
    rewrite (app_assoc (if new_space_is_empty _ then _ else _)).
    change (_ ++ (if further_collection _ then _ else _))
      with (new_space_phases (answers_ (process_heap_ p))).
    rewrite <- Hasked.
    rewrite Hphases. simpl. rewrite <- !app_assoc. simpl.
    by destruct (debug_info_ p).
Qed.

Lemma UpdateBreakpoints_from d key b :
  breakpoints_ (UpdateBreakpoints d) !! key = Some b →
  ∃ key0, breakpoints_ d !! key0 = Some b.
Proof.
  unfold UpdateBreakpoints. simpl.
  assert (Hgen : ∀ (l : list (Z * Breakpoint)) (acc : gmap Z Breakpoint),
    foldl (fun (acc : gmap Z Breakpoint) (it : Z * Breakpoint) =>
             Insert (bytecode_address_for (function_ it.2) 0 + bytecode_index_ it.2)
                    it.2 acc) acc l !! key = Some b →
    acc !! key = Some b ∨ ∃ key0, (key0, b) ∈ l).
  { induction l as [|it l IH]; intros acc; simpl; [by left|].
    intros Hl. destruct (IH _ Hl) as [Hacc|[key0 Hin]].
    - unfold Insert in Hacc. destruct (acc !! _) eqn:E; [by left|].
      destruct (decide (key = bytecode_address_for (function_ it.2) 0
                              + bytecode_index_ it.2)) as [->|Hne].
      + rewrite lookup_insert_eq in Hacc. injection Hacc as <-.
        right. exists it.1. destruct it. by left.
      + rewrite lookup_insert_ne in Hacc by done. by left.
    - right. exists key0. by right. }
  intros Hl. destruct (Hgen _ _ Hl) as [Hacc|[key0 Hin]].
  - by rewrite lookup_empty in Hacc.
  - exists key0. by apply elem_of_map_to_list.
Qed.

(** C2.  A program collection gives every frame of every stack its
    bytecode pointer back at the same distance from the bytecodes of its
    function, wherever the collection has put the function. *)
Theorem CollectGarbage_rebases_bytecode_pointers scavenger p :
  gc_ready scavenger p →
  ∃ p', CollectGarbage scavenger p = Ok (tt, p') ∧
    ∀ a s i bcp,
      heap_objects_ (process_heap_ p) !! a = Some (StackObject s) →
      frames_ s !! i = Some bcp →
      FunctionFromByteCodePointer (functions_ (heap_ p)) bcp ≠ NULL →
      ∃ s', heap_objects_ (process_heap_ p') !! a = Some (StackObject s') ∧
            frames_ s' !! i =
              Some (bytecode_address_for
                      (Visit scavenger
                         (FunctionFromByteCodePointer (functions_ (heap_ p)) bcp)) 0
                    + (bcp - bytecode_address_for
                               (FunctionFromByteCodePointer (functions_ (heap_ p)) bcp)
                               0)).
Proof.
  intros Hready.
  destruct (CollectGarbage_spec scavenger p Hready)
    as ([] & p' & Hrun & Hstacks & _).
  exists p'. split; [exact Hrun|].
  intros a s i bcp Hs Hi Hfunction.
  eexists. split; [by apply Hstacks|]. simpl.
  rewrite list_lookup_fmap, Hi. simpl. by rewrite rebase_function.
Qed.

Lemma rekeyed_from visit d0 key b :
  breakpoints_ (UpdateBreakpoints (VisitProgramPointers visit d0)) !! key = Some b →
  ∃ key0 b0, breakpoints_ d0 !! key0 = Some b0 ∧
             b = Breakpoint_VisitProgramPointers visit b0.
Proof.
  intros [key0 Hb]%UpdateBreakpoints_from. simpl in Hb.
  rewrite lookup_fmap in Hb.
  destruct (breakpoints_ d0 !! key0) as [b0|] eqn:Hb0; [|done].
  injection Hb as <-. by exists key0, b0.
Qed.


(** C4, as the code has it.  A program collection goes through its phases
    in this order: the lookup cache is cleared; the shared collection of
    the old space; the scavenge of the new space, exactly when the new
    space is not empty; a further shared collection, exactly when the
    scavenger has triggered one or the old space answers that it needs
    one; the chaining and the cooking of the stacks; the scavenge of the
    program space; the uncooking and unchaining; the update of the
    breakpoints of every process and, with a debugger attached, of the
    program.  The code slots of the dispatch table are not touched. *)
Theorem CollectGarbage_phases scavenger p :
  gc_ready scavenger p →
  ∃ p' es,
    CollectGarbage scavenger p = Ok (tt, p') ∧
    log_ p' = log_ p ++ es ∧
    collection_phases p (phases es) ∧
    (code_ <$> default [] (dispatch_table_ p'))
      = (code_ <$> default [] (dispatch_table_ p)).
Proof.
  intros Hready.
  destruct (CollectGarbage_spec scavenger p Hready)
    as ([] & p' & Hrun & _ & _ & _ & Htable & _ & es & Hlog & Hphases).
  exists p', es. split_and!; try done.
  rewrite Htable. destruct (dispatch_table_ p) as [table|]; [|done]. simpl.
  rewrite <- list_fmap_compose. done.
Qed.

End ProgramCollection.

(** ** Re-boxing of the integers that are not portable *)

Section Reboxing.
Import Program.
Context `{Build, Platform, Headers}.

(** An immediate integer outside the portable range. *)
Definition oversized (v : Z) : bool :=
  IsSmi v && negb (Smi_IsValidAsPortable (Smi_value v)).

(** The slots that the iteration over the objects of a heap visits. *)
Definition all_slots (h : Heap) : list Z :=
  objects_ h ≫= (fun object => block object.1 object.2).

(** The chunks that the platform hands out lie above the chunk in use, are
    aligned and have room for what was asked. *)
Definition chunks_ok : Prop :=
  ∀ size limit,
    limit ≤ (AllocateChunk size limit).1 ∧
    Z.even (AllocateChunk size limit).1 = true ∧
    (AllocateChunk size limit).1 + size ≤ (AllocateChunk size limit).2.

(** The state of the pass: [boxes] maps the slots re-boxed so far to
    their boxes.  The boxes lie above the top [top0] of the space at the
    start, one after the other; every other slot below [top0] is as it
    was in [memory0]. *)
Definition boxes_ok (top0 : Z) (memory0 : gmap Z Z) (large_integer_class : Z)
    (boxes : gmap Z Z) (q : Program) : Prop :=
  (∀ s b, boxes !! s = Some b →
     s < top0 ∧ top0 ≤ b ∧
     b + LargeInteger_kSize ≤ top_ (space_ (heap_ q)) ∧
     Z.even b = true ∧
     ∃ v, memory0 !! s = Some v ∧ oversized v = true ∧
          memory_ (heap_ q) !! s = Some (HeapObject_FromAddress b) ∧
          memory_ (heap_ q) !! b = Some large_integer_class ∧
          memory_ (heap_ q) !! (b + kPointerSize) = Some (Smi_value v)) ∧
  (∀ s, s < top0 → boxes !! s = None →
     memory_ (heap_ q) !! s = memory0 !! s) ∧
  (∀ s1 s2 b, boxes !! s1 = Some b → boxes !! s2 = Some b → s1 = s2).

(** Within the scope that forbids the failure of allocations, the space
    is ready to hand out the next box. *)
Definition reboxed (top0 : Z) (memory0 : gmap Z Z) (large_integer_class : Z)
    (boxes : gmap Z Z) (q : Program) : Prop :=
  (top0 ≤ top_ (space_ (heap_ q)) ∧
   top_ (space_ (heap_ q)) ≤ limit_ (space_ (heap_ q)) ∧
   Z.even (top_ (space_ (heap_ q))) = true ∧
   no_allocation_failure_nesting_ (space_ (heap_ q)) ≠ O) ∧
  boxes_ok top0 memory0 large_integer_class boxes q.

(** The slots of [done] that held an oversized integer are re-boxed. *)
Definition reboxed_all (top0 : Z) (memory0 : gmap Z Z)
    (large_integer_class : Z) (done : list Z) (q : Program) : Prop :=
  ∃ boxes, reboxed top0 memory0 large_integer_class boxes q ∧
           ∀ s v, s ∈ done → memory0 !! s = Some v → oversized v = true →
                  is_Some (boxes !! s).

Lemma kWordSize_pos : 0 < kWordSize.
Proof. unfold kWordSize. destruct width; lia. Qed.

Lemma IsSmi_FromAddress b :
  Z.even b = true → IsSmi (HeapObject_FromAddress b) = false.
Proof.
  intros Hb. unfold IsSmi, HeapObject_FromAddress, kHeapObjectTag.
  rewrite Z.bit0_odd, Z.add_1_r, Z.odd_succ, Hb. done.
Qed.

Lemma wp_load address v (Q : Z → Program → Prop) p :
  memory_ (heap_ p) !! address = Some v → Q v p → wp (load address) Q p.
Proof.
  intros Hv HQ. exists v, p. split; [|done].
  unfold load, get, lift, mbind, M_bind. simpl. by rewrite Hv.
Qed.

Lemma wp_for_each_done (J : list Z → Program → Prop) l body :
  ∀ done p,
    J done p →
    (∀ d x q, x ∈ l → J d q → wp (body x) (fun _ q' => J (d ++ [x]) q') q) →
    wp (for_each l body) (fun _ p' => J (done ++ l) p') p.
Proof.
  induction l as [|x l IH]; intros done p HJ Hbody; simpl.
  - apply wp_ret. by rewrite app_nil_r.
  - apply wp_bind. eapply wp_mono.
    { apply Hbody; [by left|exact HJ]. }
    intros [] q HJ'. simpl.
    replace (done ++ x :: l) with ((done ++ [x]) ++ l)
      by (by rewrite <- app_assoc).
    apply IH; [done|]. intros d y q' Hy. apply Hbody. by right.
Qed.

Lemma wp_IterateObjects_loop (J : list Z → Program → Prop)
    (slots_of : Z * Z → list Z) objects visitor :
  ∀ done p,
    J done p →
    (∀ d object q, object ∈ objects → J d q →
       wp (visitor object) (fun _ q' => J (d ++ slots_of object) q') q) →
    wp (IterateObjects_loop objects visitor)
       (fun _ p' => J (done ++ (objects ≫= slots_of)) p') p.
Proof.
  induction objects as [|object objects IH]; intros done p HJ Hvisit; simpl.
  - apply wp_ret. by rewrite app_nil_r.
  - apply wp_bind. eapply wp_mono.
    { apply Hvisit; [by left|exact HJ]. }
    intros [] q HJ'. simpl. rewrite app_assoc.
    apply IH; [done|]. intros d o q' Ho. apply Hvisit. by right.
Qed.

Lemma SemiSpace_Allocate_in_scope size (space : SemiSpace) :
  chunks_ok → 0 ≤ size → Z.even size = true →
  top_ space ≤ limit_ space → Z.even (top_ space) = true →
  no_allocation_failure_nesting_ space ≠ O →
  let r := SemiSpace_Allocate size space in
  top_ space ≤ r.1 ∧ top_ r.2 = r.1 + size ∧ top_ r.2 ≤ limit_ r.2 ∧
  Z.even r.1 = true ∧
  no_allocation_failure_nesting_ r.2 = no_allocation_failure_nesting_ space.
Proof.
  intros Hchunks Hsize Heven Hlimit Htop Hscope. unfold SemiSpace_Allocate.
  destruct (Z.leb_spec (top_ space + size) (limit_ space)); simpl.
  - split_and!; try done; lia.
  - destruct (no_allocation_failure_nesting_ space) as [|n] eqn:Hn; [done|].
    destruct (Hchunks size (limit_ space)) as (Hbase & Hbase_even & Hroom).
    simpl. split_and!; try done; lia.
Qed.

Lemma wp_space_Allocate size (Q : Z → Program → Prop) p :
  (let r := SemiSpace_Allocate size (space_ (heap_ p)) in
   Q r.1 (set_heap (set_space r.2 (heap_ p)) p)) →
  wp (space_Allocate size) Q p.
Proof. intros HQ. eexists _, _. split; [reflexivity|exact HQ]. Qed.

Lemma wp_store address value (Q : unit → Program → Prop) p :
  Q tt (set_heap (set_memory (<[address := value]> (memory_ (heap_ p)))
                    (heap_ p)) p) →
  wp (store address value) Q p.
Proof. intros HQ. by apply wp_modify. Qed.

Lemma BigSmiFixer_visit_spec top0 memory0 large_integer_class done s q :
  LargeInteger_kSize = kPointerSize + kWordSize →
  chunks_ok → 0 < top0 →
  s < top0 → is_Some (memory0 !! s) →
  reboxed_all top0 memory0 large_integer_class done q →
  wp (BigSmiFixer_visit large_integer_class s)
     (fun _ q' => reboxed_all top0 memory0 large_integer_class (done ++ [s]) q')
     q.
Proof.
  intros Hsize Hchunks Htop0 Hs [v0 Hv0] (boxes & Hinv & Hdone).
  pose proof kWordSize_pos as Hword.
  assert (Hpointer : kPointerSize = kWordSize) by reflexivity.
  destruct Hinv as ((Htop & Hlimit & Heven & Hscope) & Hboxes & Hrest & Hinj).
  unfold BigSmiFixer_visit.
  destruct (boxes !! s) as [b|] eqn:Hb.
  - destruct (Hboxes s b Hb) as (_ & _ & _ & Hb_even & v & _ & _ & Hslot & _).
    apply wp_bind. eapply wp_load; [exact Hslot|].
    rewrite (IsSmi_FromAddress b Hb_even). simpl. apply wp_ret.
    exists boxes. split; [done|].
    intros s' v' [Hs'| ->%list_elem_of_singleton]%elem_of_app Hv' Hover;
      [by eapply Hdone|by eexists].
  - assert (Hslot : memory_ (heap_ q) !! s = Some v0)
      by (by rewrite Hrest).
    apply wp_bind. eapply wp_load; [exact Hslot|].
    destruct (oversized v0) eqn:Hover.
    + apply andb_prop in Hover as Hover'.
      destruct Hover' as [Hsmi Hportable].
      apply negb_true_iff in Hportable.
      rewrite Hsmi, Hportable. simpl.
      apply wp_bind, wp_space_Allocate. cbv zeta.
      destruct (SemiSpace_Allocate_in_scope LargeInteger_kSize
                  (space_ (heap_ q)) Hchunks)
        as (Hb_above & Htop' & Hlimit' & Hb_even & Hscope');
        [lia| |done|done|done|].
      { rewrite Hsize, Hpointer, Z.even_add. by destruct (Z.even kWordSize). }
      set (r := SemiSpace_Allocate LargeInteger_kSize (space_ (heap_ q))) in *.
      apply wp_bind, wp_assert.
      { apply negb_true_iff, bool_decide_eq_false. lia. }
      apply wp_bind, wp_store. apply wp_bind, wp_store.
      apply wp_bind, wp_assert; [by apply bool_decide_eq_true|].
      apply wp_store. simpl.
      exists (<[s := r.1]> boxes). split.
      * split; [|split; [|split]].
        -- simpl. split_and!; [lia|lia| |congruence].
           rewrite Htop', Z.even_add, Hb_even, Hsize, Hpointer, Z.even_add.
           by destruct (Z.even kWordSize).
        -- intros s' b' [[<- <-]|[Hne Hb']]%lookup_insert_Some; simpl.
           ++ split_and!; [done|lia|lia|done|].
              exists v0. split_and!; [done|done| | |].
              ** by rewrite lookup_insert_eq.
              ** rewrite lookup_insert_ne by lia.
                 rewrite lookup_insert_ne by lia.
                 by rewrite lookup_insert_eq.
              ** rewrite lookup_insert_ne by lia.
                 by rewrite lookup_insert_eq.
           ++ destruct (Hboxes s' b' Hb')
                as (Hs' & Hb'_above & Hb'_below & Hb'_even & v & Hv & Hv_over
                    & Hslot' & Hclass & Hvalue).
              split_and!; [done|done|lia|done|].
              exists v. split_and!; [done|done| | |].
              ** rewrite lookup_insert_ne by done.
                 rewrite lookup_insert_ne by lia.
                 by rewrite lookup_insert_ne by lia.
              ** rewrite lookup_insert_ne by lia.
                 rewrite lookup_insert_ne by lia.
                 by rewrite lookup_insert_ne by lia.
              ** rewrite lookup_insert_ne by lia.
                 rewrite lookup_insert_ne by lia.
                 by rewrite lookup_insert_ne by lia.
        -- intros s' Hs' [Hne Hb']%lookup_insert_None. simpl.
           rewrite lookup_insert_ne by done.
           rewrite lookup_insert_ne by lia.
           rewrite lookup_insert_ne by lia.
           by apply Hrest.
        -- intros s1 s2 b [[<- <-]|[Hne1 Hb1]]%lookup_insert_Some
             [[<- Hb2]|[Hne2 Hb2]]%lookup_insert_Some; try done.
           ++ destruct (Hboxes s2 _ Hb2) as (_ & _ & ? & _). lia.
           ++ subst b. destruct (Hboxes s1 _ Hb1) as (_ & _ & ? & _). lia.
           ++ by eapply Hinj.
      * intros s' v' [Hs'| ->%list_elem_of_singleton]%elem_of_app Hv' Hover'.
        -- destruct (Hdone s' v' Hs' Hv' Hover') as [b' Hb'].
           destruct (decide (s = s')) as [->|Hne]; [congruence|].
           exists b'. by rewrite lookup_insert_ne.
        -- rewrite lookup_insert_eq. by eexists.
    + assert (Hskip : (if negb (IsSmi v0) then true
                       else Smi_IsValidAsPortable (Smi_value v0)) = true).
      { unfold oversized in Hover. destruct (IsSmi v0); [|done].
        simpl in *. by apply negb_false_iff. }
      assert (Hdone' : reboxed_all top0 memory0 large_integer_class
                         (done ++ [s]) q).
      { exists boxes. split; [done|].
        intros s' v' [Hs'| ->%list_elem_of_singleton]%elem_of_app Hv' Hover';
          [by eapply Hdone|congruence]. }
      destruct (negb (IsSmi v0)); [by apply wp_ret|].
      rewrite Hskip. by apply wp_ret.
Qed.

Lemma kPointerSize_pos : 0 < kPointerSize.
Proof. unfold kPointerSize. apply kWordSize_pos. Qed.

(** The slots of an object are its words, from the first to the last. *)
Lemma elem_of_block start end_ s :
  s ∈ block start end_ ↔
  ∃ i, 0 ≤ i ∧ s = start + i * kPointerSize ∧ s < end_.
Proof.
  pose proof kPointerSize_pos as Hk. unfold block.
  rewrite list_elem_of_fmap. split.
  - intros (i & -> & Hi). apply elem_of_seqZ in Hi.
    exists i. split_and!; [lia|done|].
    assert (i + 1 ≤ (end_ - start + kPointerSize - 1) / kPointerSize) as Hle
      by lia.
    pose proof (Z.mul_div_le (end_ - start + kPointerSize - 1) kPointerSize Hk).
    nia.
  - intros (i & Hi & -> & Hend). exists i. split; [done|].
    apply elem_of_seqZ. split; [lia|].
    assert (i + 1 ≤ (end_ - start + kPointerSize - 1) / kPointerSize); [|lia].
    apply Z.div_le_lower_bound; [done|]. nia.
Qed.

(** The slots of the objects of a heap: every word of every object. *)
Definition is_slot (h : Heap) (s : Z) : Prop :=
  ∃ object i, object ∈ objects_ h ∧ 0 ≤ i ∧
              s = object.1 + i * kPointerSize ∧ s < object.2.

Lemma elem_of_all_slots h s : s ∈ all_slots h ↔ is_slot h s.
Proof.
  unfold all_slots, is_slot. rewrite list_elem_of_bind. split.
  - intros (object & (i & Hi & -> & Hend)%elem_of_block & Hobject).
    by exists object, i.
  - intros (object & i & Hobject & Hi & -> & Hend).
    exists object. split; [|done]. apply elem_of_block. by exists i.
Qed.


End Reboxing.

(** ** Spawning a process *)

Section SpawnProcessProperties.
Import Program.
Context `{Build, ProcessAllocator}.

Lemma ASSERT_true : ASSERT true = Ok tt.
Proof. unfold ASSERT. by destruct debug. Qed.

Ltac run_SpawnProcess :=
  unfold SpawnProcess, Process_new_, Process_SetupExecutionStack_,
    Process_Cleanup_and_delete, AddToProcessList, Process_AllocationFailed,
    update_process, ask, emit, when, assert, lift, modify, get;
  unfold mbind, mret, M_bind, M_ret, Result_bind, Result_ret.

(** A failing allocation: the half-built process is deleted again. *)
Lemma SpawnProcess_failure (parent : Z) (p : Program) :
  processes_ p !! operator_new (processes_ p) = None →
  allocation_fails (answers_ (process_heap_ p)) = true →
  ∃ p', SpawnProcess parent p = Ok (NULL, p') ∧
        process_list_ p' = process_list_ p ∧
        processes_ p' = processes_ p.
Proof.
  intros Hfresh Hfails.
  destruct p as [roots table entry heap [old objects answers] list processes
                   session chain deltas cache info log].
  simpl in *. run_SpawnProcess.
  destruct answers as [|[] [|[] answers]]; try discriminate; simpl;
    repeat (rewrite lookup_insert_eq; simpl);
    (eexists; split; [reflexivity|]; simpl; split; [reflexivity|]);
    rewrite ?(delete_insert_eq _ _ _); by apply delete_id.
Qed.

(** No failing allocation: the process is built, the parent counts it,
    and it joins the list; a parent that is no process is a bad pointer. *)
Lemma SpawnProcess_success (parent : Z) (p : Program) :
  processes_ p !! operator_new (processes_ p) = None →
  allocation_fails (answers_ (process_heap_ p)) = false →
  (parent ≠ NULL ∧ processes_ p !! parent = None ∧
   SpawnProcess parent p = BadPointer) ∨
  (∃ p', SpawnProcess parent p = Ok (operator_new (processes_ p), p') ∧
         process_list_ p' = process_list_ p ++ [operator_new (processes_ p)] ∧
         ∃ r, processes_ p' !! operator_new (processes_ p) = Some r ∧
              allocation_failed_ r = false).
Proof.
  intros Hfresh Hfails.
  destruct p as [roots table entry heap [old objects answers] list processes
                   session chain deltas cache info log].
  simpl in *. run_SpawnProcess.
  destruct (decide (parent = NULL)) as [->|Hparent].
  { right.
    destruct answers as [|[] [|[] answers]]; try discriminate; simpl;
      repeat (rewrite lookup_insert_eq; simpl); rewrite ASSERT_true;
      (eexists; split; [reflexivity|]; simpl; split; [reflexivity|]);
      rewrite lookup_insert_eq; by eexists. }
  destruct (decide (operator_new processes = parent)) as [<-|Hne].
  { right.
    destruct answers as [|[] [|[] answers]]; try discriminate; simpl;
      repeat (rewrite lookup_insert_eq; simpl);
      rewrite bool_decide_false by done; simpl;
      repeat (rewrite lookup_insert_eq; simpl); rewrite ASSERT_true;
      (eexists; split; [reflexivity|]; simpl; split; [reflexivity|]);
      rewrite lookup_insert_eq; by eexists. }
  destruct (processes !! parent) as [r|] eqn:Hr.
  - right.
    destruct answers as [|[] [|[] answers]]; try discriminate; simpl;
      repeat (rewrite lookup_insert_eq; simpl);
      rewrite bool_decide_false by done; simpl;
      rewrite (lookup_insert_ne _ _ _ _ Hne), Hr; simpl;
      rewrite lookup_insert_ne by done; rewrite lookup_insert_eq; simpl;
      rewrite ASSERT_true;
      (eexists; split; [reflexivity|]; simpl; split; [reflexivity|]);
      rewrite lookup_insert_ne by done; rewrite lookup_insert_eq;
      by eexists.
  - left. split; [done|]. split; [done|].
    destruct answers as [|[] [|[] answers]]; try discriminate; simpl;
      repeat (rewrite lookup_insert_eq; simpl);
      rewrite bool_decide_false by done; simpl;
      by rewrite (lookup_insert_ne _ _ _ _ Hne), Hr.
Qed.

(** C10.  When an allocation fails while a process is spawned, in the
    constructor of the process or in the setup of its stack,
    [SpawnProcess] returns [NULL] and leaves the list of processes and
    every process, the parent and its count of descendants among them, as
    they were.  A process that is not [NULL] is returned only when no
    allocation failed, and then it is the last of the list of processes
    and its allocations have not failed.  When no allocation fails and
    the parent is [NULL] or a process, the new process is returned. *)
Theorem SpawnProcess_allocation_failure (parent : Z) (p : Program) :
  processes_ p !! operator_new (processes_ p) = None →
  (allocation_fails (answers_ (process_heap_ p)) = true →
     ∃ p', SpawnProcess parent p = Ok (NULL, p') ∧
           process_list_ p' = process_list_ p ∧
           processes_ p' = processes_ p) ∧
  (∀ process p',
     SpawnProcess parent p = Ok (process, p') → process ≠ NULL →
     allocation_fails (answers_ (process_heap_ p)) = false ∧
     process_list_ p' = process_list_ p ++ [process] ∧
     ∃ r, processes_ p' !! process = Some r ∧ allocation_failed_ r = false) ∧
  (allocation_fails (answers_ (process_heap_ p)) = false →
     parent = NULL ∨ is_Some (processes_ p !! parent) →
     ∃ p', SpawnProcess parent p
             = Ok (operator_new (processes_ p), p') ∧
           process_list_ p'
             = process_list_ p ++ [operator_new (processes_ p)]).
Proof.
  intros Hfresh. split; [|split].
  - by apply SpawnProcess_failure.
  - intros process p' Hrun Hprocess.
    destruct (allocation_fails (answers_ (process_heap_ p))) eqn:Hfails.
    + destruct (SpawnProcess_failure parent p Hfresh Hfails)
        as (p'' & Hrun' & _).
      congruence.
    + split; [done|].
      destruct (SpawnProcess_success parent p Hfresh Hfails)
        as [(_ & _ & Hbad)|(p'' & Hrun' & Hlist & Hr)]; [congruence|].
      rewrite Hrun' in Hrun. by simplify_eq.
  - intros Hfails Hparent.
    destruct (SpawnProcess_success parent p Hfresh Hfails)
      as [(Hnull & Hnone & _)|(p' & Hrun & Hlist & _)].
    + destruct Hparent as [|[r Hr]]; congruence.
    + by exists p'.
Qed.

End SpawnProcessProperties.

(** ** The breakpoint table: lookups, erasures and the ids *)

Section BreakpointTable.
Import DebugInfo.
Context `{Build, Headers}.

(** What the search of [DeleteBreakpoint] finds. *)
Lemma DeleteBreakpoint_find id d :
  match List.find (fun e : Z * Breakpoint => bool_decide (id_ e.2 = id))
                  (map_to_list (breakpoints_ d)) with
  | Some it => breakpoints_ d !! it.1 = Some it.2 ∧ id_ it.2 = id
  | None => ∀ k b, breakpoints_ d !! k = Some b → id_ b ≠ id
  end.
Proof.
  destruct (List.find _ _) as [[k b]|] eqn:E.
  - apply find_some in E as [Hin Hid].
    apply list_elem_of_In, elem_of_map_to_list in Hin.
    by apply bool_decide_eq_true in Hid.
  - intros k b Hb.
    assert (Hin : In (k, b) (map_to_list (breakpoints_ d))).
    { by apply list_elem_of_In, elem_of_map_to_list. }
    pose proof (find_none _ _ E _ Hin) as Hf. simpl in Hf.
    by apply bool_decide_eq_false in Hf.
Qed.

(** [DeleteBreakpoint] with an id that no entry of the table carries
    answers false and leaves the table and the rest of the state as they
    are. *)
Theorem DeleteBreakpoint_unknown_id id d :
  (∀ k b, breakpoints_ d !! k = Some b → id_ b ≠ id) →
  DeleteBreakpoint id d = (false, d).
Proof.
  intros Hnone. unfold DeleteBreakpoint.
  pose proof (DeleteBreakpoint_find id d) as Hfind.
  destruct (List.find _ _) as [[k b]|]; [|done].
  destruct Hfind as [Hb Hid]. by destruct (Hnone _ _ Hb).
Qed.

(** [DeleteBreakpoint] with an id that an entry carries answers true and
    erases one entry, one that carries the id; every other entry and the
    rest of the state stay.  With ids that are pairwise different the
    erased entry is the one that carries the id. *)
Theorem DeleteBreakpoint_erases_one id d k b :
  breakpoints_ d !! k = Some b → id_ b = id →
  ∃ k' b',
    breakpoints_ d !! k' = Some b' ∧ id_ b' = id ∧
    DeleteBreakpoint id d
      = (true, set_breakpoints (delete k' (breakpoints_ d)) d) ∧
    (∀ j, j ≠ k' →
       breakpoints_ (DeleteBreakpoint id d).2 !! j = breakpoints_ d !! j) ∧
    breakpoints_ (DeleteBreakpoint id d).2 !! k' = None ∧
    (ids_unique d → k' = k).
Proof.
  intros Hb Hid. unfold DeleteBreakpoint.
  pose proof (DeleteBreakpoint_find id d) as Hfind.
  destruct (List.find _ _) as [[k' b']|].
  - destruct Hfind as [Hb' Hid']. simpl in *.
    exists k', b'. split_and!; try done.
    + intros j Hj. by rewrite lookup_delete_ne.
    + by rewrite lookup_delete_eq.
    + intros Hu. apply (Hu _ _ _ _ Hb' Hb). congruence.
  - by destruct (Hfind _ _ Hb).
Qed.

(** [SetBreakpoint] at an address that holds no breakpoint stores the new
    breakpoint there, with the arguments it was given and the id the
    counter had, returns that id, and leaves every other address as it
    was. *)
Lemma SetBreakpoint_new_key F o one_shot c h d :
  breakpoints_ d !! (bytecode_address_for F 0 + o) = None →
  (SetBreakpoint F o one_shot c h d).1 = next_breakpoint_id_ d ∧
  breakpoints_ (SetBreakpoint F o one_shot c h d).2
    !! (bytecode_address_for F 0 + o)
    = Some {| function_ := F; bytecode_index_ := o;
              id_ := next_breakpoint_id_ d; is_one_shot_ := one_shot;
              coroutine_ := c; stack_height_ := h |} ∧
  (∀ k, k ≠ bytecode_address_for F 0 + o →
     breakpoints_ (SetBreakpoint F o one_shot c h d).2 !! k
       = breakpoints_ d !! k).
Proof.
  intros Hfree. unfold SetBreakpoint. simpl. rewrite Hfree. simpl.
  split; [done|]. split; [by rewrite lookup_insert_eq|].
  intros k Hk. by rewrite lookup_insert_ne.
Qed.

(** A breakpoint set at a free address and deleted again by the id that
    [SetBreakpoint] returned leaves the table as it was before the two
    calls; only the counter of ids has moved on, by one in the arithmetic
    of [int]: below the last [int] it is one more than it was. *)
Theorem SetBreakpoint_DeleteBreakpoint F o one_shot c h d :
  ids_below_counter d →
  breakpoints_ d !! (bytecode_address_for F 0 + o) = None →
  let r := SetBreakpoint F o one_shot c h d in
  (DeleteBreakpoint r.1 r.2).1 = true ∧
  breakpoints_ (DeleteBreakpoint r.1 r.2).2 = breakpoints_ d ∧
  next_breakpoint_id_ (DeleteBreakpoint r.1 r.2).2
    = wrap_int (next_breakpoint_id_ d + 1) ∧
  (- 2 ^ 31 ≤ next_breakpoint_id_ d < 2 ^ 31 - 1 →
   next_breakpoint_id_ (DeleteBreakpoint r.1 r.2).2 = next_breakpoint_id_ d + 1).
Proof.
  intros Hbelow Hfree r.
  destruct (SetBreakpoint_new_key F o one_shot c h d Hfree)
    as (Hid & Hnew & Hother).
  fold r in Hid, Hnew, Hother.
  pose proof (DeleteBreakpoint_find r.1 r.2) as Hfind.
  unfold DeleteBreakpoint.
  destruct (List.find _ _) as [[k b]|]; simpl in *.
  - destruct Hfind as [Hb Hidb].
    assert (k = bytecode_address_for F 0 + o) as ->.
    { destruct (decide (k = bytecode_address_for F 0 + o)) as [|Hne]; [done|].
      rewrite (Hother k Hne) in Hb. specialize (Hbelow _ _ Hb). lia. }
    split; [done|]. split.
    + apply map_eq. intros j.
      destruct (decide (j = bytecode_address_for F 0 + o)) as [->|Hne].
      * by rewrite lookup_delete_eq, Hfree.
      * rewrite lookup_delete_ne by done. by apply Hother.
    + assert (Hcounter : next_breakpoint_id_ r.2
                         = wrap_int (next_breakpoint_id_ d + 1)).
      { unfold r, SetBreakpoint. simpl. by rewrite Hfree. }
      split; [exact Hcounter|].
      intros Hrange. rewrite Hcounter. by apply wrap_int_small; lia.
  - by destruct (Hfind _ _ Hnew).
Qed.

(** A breakpoint set without coroutine at a free address is hit there:
    [ShouldBreak] at that address answers true, whatever the stack pointer,
    and the id it reports as current is the id that [SetBreakpoint]
    returned.  A one-shot breakpoint is gone afterwards and the table is as
    it was before it was set; any other breakpoint stays. *)
Theorem SetBreakpoint_ShouldBreak heap sp F o one_shot h d :
  ids_below_counter d →
  breakpoints_ d !! (bytecode_address_for F 0 + o) = None →
  let r := SetBreakpoint F o one_shot NULL h d in
  ∃ d', ShouldBreak heap (bytecode_address_for F 0 + o) sp r.2 = Ok (true, d') ∧
        current_breakpoint_id_ d' = r.1 ∧
        is_at_breakpoint_ d' = true ∧
        breakpoints_ d' = (if one_shot then breakpoints_ d else breakpoints_ r.2).
Proof.
  intros Hbelow Hfree r.
  destruct (SetBreakpoint_new_key F o one_shot NULL h d Hfree)
    as (Hid & Hnew & Hother).
  fold r in Hid, Hnew, Hother.
  unfold ShouldBreak. rewrite Hnew. unfold Breakpoint_stack. simpl.
  destruct (decide (NULL = NULL)); [simpl|done].
  destruct (decide (NULL ≠ NULL)); [done|].
  eexists. split; [reflexivity|].
  destruct one_shot; [|done].
  pose proof (DeleteBreakpoint_find (next_breakpoint_id_ d)
                (set_current_breakpoint (next_breakpoint_id_ d) r.2)) as Hfind.
  unfold DeleteBreakpoint.
  destruct (List.find _ _) as [[k b]|]; simpl in *.
  - destruct Hfind as [Hb Hidb].
    assert (k = bytecode_address_for F 0 + o) as ->.
    { destruct (decide (k = bytecode_address_for F 0 + o)) as [|Hne]; [done|].
      rewrite (Hother k Hne) in Hb. specialize (Hbelow _ _ Hb). lia. }
    split_and!; try done.
    apply map_eq. intros j.
    destruct (decide (j = bytecode_address_for F 0 + o)) as [->|Hne].
    + by rewrite lookup_delete_eq, Hfree.
    + rewrite lookup_delete_ne by done. by apply Hother.
  - by destruct (Hfind _ _ Hnew).
Qed.

(** The tables that the operations of the debugger build, starting from
    the empty table. *)
Inductive built : DebugInfo → Prop :=
| built_new : built DebugInfo_new
| built_SetBreakpoint F o one_shot c h d :
    built d → next_breakpoint_id_ d < 2 ^ 31 - 1 →
    built (SetBreakpoint F o one_shot c h d).2
| built_DeleteBreakpoint id d :
    built d → built (DeleteBreakpoint id d).2
| built_ShouldBreak heap bcp sp d answer d' :
    built d → ShouldBreak heap bcp sp d = Ok (answer, d') → built d'
| built_UpdateBreakpoints d :
    built d → built (UpdateBreakpoints d)
| built_VisitProgramPointers visit d :
    built d → built (VisitProgramPointers visit d)
| built_VisitPointers visit d :
    built d → built (VisitPointers visit d).

Lemma ids_DeleteBreakpoint id d :
  ids_unique d ∧ ids_below_counter d →
  ids_unique (DeleteBreakpoint id d).2 ∧ ids_below_counter (DeleteBreakpoint id d).2.
Proof.
  intros [Hu Hb]. unfold DeleteBreakpoint.
  destruct (List.find _ _) as [[k b]|]; [|done]. simpl. split.
  - intros k1 k2 b1 b2. simpl.
    intros [_ H1]%lookup_delete_Some [_ H2]%lookup_delete_Some.
    by apply Hu.
  - intros k1 b1. simpl. intros [_ H1]%lookup_delete_Some. by apply (Hb k1).
Qed.

Lemma ids_set_current_breakpoint id d :
  ids_unique d ∧ ids_below_counter d →
  ids_unique (set_current_breakpoint id d) ∧
  ids_below_counter (set_current_breakpoint id d).
Proof. done. Qed.

Lemma ids_ShouldBreak heap bcp sp d answer d' :
  ids_unique d ∧ ids_below_counter d →
  ShouldBreak heap bcp sp d = Ok (answer, d') →
  ids_unique d' ∧ ids_below_counter d'.
Proof.
  intros Hd. unfold ShouldBreak.
  assert (Hhit : ∀ b,
    ids_unique (if is_one_shot_ b
                then (DeleteBreakpoint (id_ b)
                        (set_current_breakpoint (id_ b) d)).2
                else set_current_breakpoint (id_ b) d) ∧
    ids_below_counter (if is_one_shot_ b
                then (DeleteBreakpoint (id_ b)
                        (set_current_breakpoint (id_ b) d)).2
                else set_current_breakpoint (id_ b) d)).
  { intros b. destruct (is_one_shot_ b).
    - by apply ids_DeleteBreakpoint, ids_set_current_breakpoint.
    - by apply ids_set_current_breakpoint. }
  destruct (breakpoints_ d !! bcp) as [b|].
  - destruct (Breakpoint_stack heap b) as [st| |]; simpl; try done.
    destruct (decide (st ≠ NULL)).
    + destruct (Stack_cast heap st) as [s| |]; simpl; try done.
      destruct (ASSERT _); simpl; try done.
      destruct (decide (_ ≠ sp)); intros [= <- <-]; [done|apply Hhit].
    + intros [= <- <-]. apply Hhit.
  - destruct (is_stepping_ d); intros [= <- <-]; [|done].
    by apply ids_set_current_breakpoint.
Qed.

Lemma foldl_Insert_from (key : Breakpoint → Z) l : ∀ acc k b,
  foldl (fun (acc : gmap Z Breakpoint) (it : Z * Breakpoint) =>
           Insert (key it.2) it.2 acc) acc l !! k = Some b →
  acc !! k = Some b ∨ (k = key b ∧ ∃ k0, (k0, b) ∈ l).
Proof.
  induction l as [|[k0 b0] l IH]; intros acc k b; simpl; [by left|].
  intros [Hacc|[-> [k1 Hin]]]%IH.
  - unfold Insert in Hacc.
    destruct (acc !! key b0) eqn:E; [by left|].
    apply lookup_insert_Some in Hacc as [[<- <-]|[_ Hacc]]; [|by left].
    right. split; [done|]. exists k0. by left.
  - right. split; [done|]. exists k1. by right.
Qed.

Lemma UpdateBreakpoints_entry d k b :
  breakpoints_ (UpdateBreakpoints d) !! k = Some b →
  k = bytecode_address_for (function_ b) 0 + bytecode_index_ b ∧
  ∃ k0, breakpoints_ d !! k0 = Some b.
Proof.
  unfold UpdateBreakpoints. simpl. intros Hk.
  apply (foldl_Insert_from
           (fun b => bytecode_address_for (function_ b) 0 + bytecode_index_ b))
    in Hk as [Hk|[-> [k0 Hin]]]; [done|].
  split; [done|]. exists k0. by apply elem_of_map_to_list.
Qed.

Lemma ids_UpdateBreakpoints d :
  ids_unique d ∧ ids_below_counter d →
  ids_unique (UpdateBreakpoints d) ∧ ids_below_counter (UpdateBreakpoints d).
Proof.
  intros [Hu Hb]. split.
  - intros k1 k2 b1 b2 [-> [j1 H1]]%UpdateBreakpoints_entry
      [-> [j2 H2]]%UpdateBreakpoints_entry Hid.
    pose proof (Hu _ _ _ _ H1 H2 Hid) as ->. congruence.
  - intros k b [_ [j Hj]]%UpdateBreakpoints_entry.
    by apply (Hb j).
Qed.

Lemma ids_VisitProgramPointers visit d :
  ids_unique d ∧ ids_below_counter d →
  ids_unique (VisitProgramPointers visit d) ∧
  ids_below_counter (VisitProgramPointers visit d).
Proof.
  intros [Hu Hb]. unfold VisitProgramPointers. split.
  - intros k1 k2 b1 b2. simpl. rewrite !lookup_fmap.
    destruct (breakpoints_ d !! k1) as [a1|] eqn:E1; [|done].
    destruct (breakpoints_ d !! k2) as [a2|] eqn:E2; [|done].
    simpl. intros [= <-] [= <-]. simpl. by apply Hu.
  - intros k b. simpl. rewrite lookup_fmap.
    destruct (breakpoints_ d !! k) as [a|] eqn:E; [|done].
    simpl. intros [= <-]. simpl. by apply (Hb k).
Qed.

Lemma ids_VisitPointers visit d :
  ids_unique d ∧ ids_below_counter d →
  ids_unique (VisitPointers visit d) ∧
  ids_below_counter (VisitPointers visit d).
Proof.
  assert (Hid : ∀ b, id_ (Breakpoint_VisitPointers visit b) = id_ b).
  { intros b. unfold Breakpoint_VisitPointers.
    by destruct (decide (coroutine_ b ≠ NULL)). }
  intros [Hu Hb]. unfold VisitPointers. split.
  - intros k1 k2 b1 b2. simpl. rewrite !lookup_fmap.
    destruct (breakpoints_ d !! k1) as [a1|] eqn:E1; [|done].
    destruct (breakpoints_ d !! k2) as [a2|] eqn:E2; [|done].
    simpl. intros [= <-] [= <-]. rewrite !Hid. by apply Hu.
  - intros k b. simpl. rewrite lookup_fmap.
    destruct (breakpoints_ d !! k) as [a|] eqn:E; [|done].
    simpl. intros [= <-]. rewrite Hid. by apply (Hb k).
Qed.

(** In every table that the operations of [debug_info.cc] build from the
    empty one without [SetBreakpoint] taking the counter past the last
    [int], no two breakpoints carry the same id, and every id is one that
    the counter has handed out. *)
Theorem built_ids_unique d :
  built d →
  (∀ k1 k2 b1 b2,
     breakpoints_ d !! k1 = Some b1 → breakpoints_ d !! k2 = Some b2 →
     id_ b1 = id_ b2 → k1 = k2) ∧
  (∀ k b, breakpoints_ d !! k = Some b → 0 ≤ id_ b < next_breakpoint_id_ d).
Proof.
  intros Hbuilt.
  cut (ids_unique d ∧ ids_below_counter d ∧
       (∀ k b, breakpoints_ d !! k = Some b → 0 ≤ id_ b) ∧
       0 ≤ next_breakpoint_id_ d).
  { intros (Hu & Hb & Hpos & _). split; [exact Hu|].
    intros k b Hk. split; [by eapply Hpos|by eapply Hb]. }
  induction Hbuilt as [|F o one_shot c h d _ (Hu & Hb & Hpos & Hc) Hlast
                        |id d _ (Hu & Hb & Hpos & Hc)
                        |heap bcp sp d answer d' _ (Hu & Hb & Hpos & Hc) Hrun
                        |d _ (Hu & Hb & Hpos & Hc)
                        |visit d _ (Hu & Hb & Hpos & Hc)
                        |visit d _ (Hu & Hb & Hpos & Hc)].
  - split_and!; [apply ids_unique_new|apply ids_unique_new| |done].
    intros k b. simpl. by rewrite lookup_empty.
  - destruct (ids_unique_SetBreakpoint F o one_shot c h d Hu Hb) as [Hu' Hb'];
      [lia|].
    split_and!; [done|done| |].
    + intros k b. unfold SetBreakpoint. simpl.
      destruct (breakpoints_ d !! _) eqn:E; simpl; [apply Hpos|].
      intros [[<- <-]|[_ Hk]]%lookup_insert_Some; [done|by eapply Hpos].
    + unfold SetBreakpoint. simpl.
      destruct (breakpoints_ d !! _); simpl;
        rewrite wrap_int_small by lia; lia.
  - destruct (ids_DeleteBreakpoint id d (conj Hu Hb)) as [Hu' Hb'].
    split_and!; [done|done| |].
    + intros k b. unfold DeleteBreakpoint.
      destruct (List.find _ _) as [[k' b']|]; simpl; [|apply Hpos].
      intros [_ Hk]%lookup_delete_Some. by eapply Hpos.
    + unfold DeleteBreakpoint. by destruct (List.find _ _).
  - destruct (ids_ShouldBreak heap bcp sp d answer d' (conj Hu Hb) Hrun)
      as [Hu' Hb'].
    split_and!; [done|done| |].
    + revert Hrun. unfold ShouldBreak.
      assert (Hhit : ∀ b k' b',
        breakpoints_ (if is_one_shot_ b
                      then (DeleteBreakpoint (id_ b)
                              (set_current_breakpoint (id_ b) d)).2
                      else set_current_breakpoint (id_ b) d) !! k' = Some b' →
        0 ≤ id_ b').
      { intros b k' b'. destruct (is_one_shot_ b); [|apply Hpos].
        unfold DeleteBreakpoint.
        destruct (List.find _ _) as [[k'' b'']|]; simpl; [|apply Hpos].
        intros [_ Hk]%lookup_delete_Some. by eapply Hpos. }
      destruct (breakpoints_ d !! bcp) as [b|].
      * destruct (Breakpoint_stack heap b) as [st| |]; simpl; try done.
        destruct (decide (st ≠ NULL)).
        -- destruct (Stack_cast heap st) as [s| |]; simpl; try done.
           destruct (ASSERT _); simpl; try done.
           destruct (decide (_ ≠ sp)); intros [= <- <-]; [done|].
           intros k' b'. apply Hhit.
        -- intros [= <- <-]. intros k' b'. apply Hhit.
      * destruct (is_stepping_ d); intros [= <- <-]; done.
    + revert Hrun. unfold ShouldBreak.
      assert (Hhit : ∀ b,
        0 ≤ next_breakpoint_id_ (if is_one_shot_ b
                      then (DeleteBreakpoint (id_ b)
                              (set_current_breakpoint (id_ b) d)).2
                      else set_current_breakpoint (id_ b) d)).
      { intros b. destruct (is_one_shot_ b); [|done].
        unfold DeleteBreakpoint. by destruct (List.find _ _). }
      destruct (breakpoints_ d !! bcp) as [b|].
      * destruct (Breakpoint_stack heap b) as [st| |]; simpl; try done.
        destruct (decide (st ≠ NULL)).
        -- destruct (Stack_cast heap st) as [s| |]; simpl; try done.
           destruct (ASSERT _); simpl; try done.
           destruct (decide (_ ≠ sp)); intros [= <- <-]; [done|apply Hhit].
        -- intros [= <- <-]. apply Hhit.
      * destruct (is_stepping_ d); intros [= <- <-]; done.
  - destruct (ids_UpdateBreakpoints d (conj Hu Hb)) as [Hu' Hb'].
    split_and!; [done|done| |done].
    intros k b [_ [j Hj]]%UpdateBreakpoints_entry. by eapply Hpos.
  - destruct (ids_VisitProgramPointers visit d (conj Hu Hb)) as [Hu' Hb'].
    split_and!; [done|done| |done].
    intros k b. unfold VisitProgramPointers. simpl. rewrite lookup_fmap.
    destruct (breakpoints_ d !! k) as [a|] eqn:E; [|done].
    simpl. intros [= <-]. simpl. by eapply Hpos.
  - destruct (ids_VisitPointers visit d (conj Hu Hb)) as [Hu' Hb'].
    split_and!; [done|done| |done].
    intros k b. unfold VisitPointers. simpl. rewrite lookup_fmap.
    destruct (breakpoints_ d !! k) as [a|] eqn:E; [|done].
    simpl. intros [= <-]. unfold Breakpoint_VisitPointers.
    destruct (decide (coroutine_ a ≠ NULL)); simpl; by eapply Hpos.
Qed.

(** What [ShouldBreak] never does.  It answers true only at an address
    that holds a breakpoint or while stepping, and then the interpreter is
    marked as at a breakpoint; when it answers false nothing has changed.
    It never adds or changes an entry of the table, never changes the
    stepping flag and never moves the counter of ids. *)
Theorem ShouldBreak_frame heap bcp sp d answer d' :
  ShouldBreak heap bcp sp d = Ok (answer, d') →
  (answer = true →
     (is_Some (breakpoints_ d !! bcp) ∨ is_stepping_ d = true) ∧
     is_at_breakpoint_ d' = true) ∧
  (answer = false → d' = d) ∧
  (∀ k b, breakpoints_ d' !! k = Some b → breakpoints_ d !! k = Some b) ∧
  is_stepping_ d' = is_stepping_ d ∧
  next_breakpoint_id_ d' = next_breakpoint_id_ d.
Proof.
  unfold ShouldBreak.
  assert (Hhit : ∀ b,
    let d1 := if is_one_shot_ b
              then (DeleteBreakpoint (id_ b)
                      (set_current_breakpoint (id_ b) d)).2
              else set_current_breakpoint (id_ b) d in
    is_at_breakpoint_ d1 = true ∧
    (∀ k b', breakpoints_ d1 !! k = Some b' → breakpoints_ d !! k = Some b') ∧
    is_stepping_ d1 = is_stepping_ d ∧
    next_breakpoint_id_ d1 = next_breakpoint_id_ d).
  { intros b. destruct (is_one_shot_ b); simpl; [|done].
    unfold DeleteBreakpoint.
    destruct (List.find _ _) as [[k' b'']|]; simpl; [|done].
    split_and!; try done.
    by intros k b' [_ Hk]%lookup_delete_Some. }
  destruct (breakpoints_ d !! bcp) as [b|] eqn:Hb.
  - destruct (Breakpoint_stack heap b) as [st| |]; simpl; try done.
    destruct (decide (st ≠ NULL)).
    + destruct (Stack_cast heap st) as [s| |]; simpl; try done.
      destruct (ASSERT _); simpl; try done.
      destruct (decide (_ ≠ sp)); intros [= <- <-].
      * done.
      * destruct (Hhit b) as (? & ? & ? & ?). split_and!; try done.
        intros _. split; [left; by eexists|done].
    + intros [= <- <-].
      destruct (Hhit b) as (? & ? & ? & ?). split_and!; try done.
      intros _. split; [left; by eexists|done].
  - destruct (is_stepping_ d) eqn:Hstep; intros [= <- <-]; [|done].
    split_and!; try done. intros _. split; [by right|done].
Qed.

(** A breakpoint that is not one-shot and has no coroutine is hit every
    time: [ShouldBreak] at its address answers true, reports its id, keeps
    the table, and answers the same when called again. *)
Theorem ShouldBreak_persistent heap bcp sp sp' d b :
  breakpoints_ d !! bcp = Some b →
  is_one_shot_ b = false → coroutine_ b = NULL →
  ∃ d', ShouldBreak heap bcp sp d = Ok (true, d') ∧
        breakpoints_ d' = breakpoints_ d ∧
        current_breakpoint_id_ d' = id_ b ∧
        ShouldBreak heap bcp sp' d' = Ok (true, d').
Proof.
  intros Hb Hone Hco.
  exists (set_current_breakpoint (id_ b) d).
  unfold ShouldBreak. simpl. rewrite Hb. unfold Breakpoint_stack.
  destruct (decide (coroutine_ b = NULL)); [simpl|done].
  destruct (decide (NULL ≠ NULL)); [done|].
  by rewrite Hone.
Qed.

(** A breakpoint with a stack filter is taken when [sp] is the expected
    stack pointer: the call answers true and reports the id; unless the
    breakpoint is one-shot the table stays as it is. *)
Theorem ShouldBreak_stack_height_match heap bcp d b c s :
  breakpoints_ d !! bcp = Some b →
  coroutine_ b ≠ NULL →
  heap !! coroutine_ b = Some (CoroutineObject c) →
  stack_ c ≠ NULL →
  heap !! stack_ c = Some (StackObject s) →
  let expected_sp :=
    Stack_Pointer (stack_ c) (wrap_word (length_ s - stack_height_ b)) in
  ∃ d', ShouldBreak heap bcp expected_sp d = Ok (true, d') ∧
        current_breakpoint_id_ d' = id_ b ∧
        (is_one_shot_ b = false → breakpoints_ d' = breakpoints_ d).
Proof.
  intros Hb Hco Hc Hst Hs expected_sp.
  unfold ShouldBreak. rewrite Hb. unfold Breakpoint_stack.
  destruct (decide (coroutine_ b = NULL)); [done|].
  unfold Coroutine_cast. rewrite Hc. simpl.
  destruct (decide (stack_ c ≠ NULL)); [|done].
  unfold Stack_cast. rewrite Hs. simpl. fold expected_sp.
  assert (HA : ASSERT (expected_sp <=? expected_sp) = Ok tt).
  { unfold ASSERT. rewrite Z.leb_refl. by destruct debug. }
  rewrite HA. simpl.
  destruct (decide (expected_sp ≠ expected_sp)); [done|].
  eexists. split; [reflexivity|].
  destruct (is_one_shot_ b); [|done].
  unfold DeleteBreakpoint.
  destruct (List.find _ _) as [[k' b'']|]; simpl; done.
Qed.

Lemma foldl_Insert_mono (key : Breakpoint → Z) l : ∀ acc k b,
  acc !! k = Some b →
  foldl (fun (acc : gmap Z Breakpoint) (it : Z * Breakpoint) =>
           Insert (key it.2) it.2 acc) acc l !! k = Some b.
Proof.
  induction l as [|[k0 b0] l IH]; intros acc k b Hk; simpl; [done|].
  apply IH. unfold Insert. simpl.
  destruct (acc !! key b0) eqn:E; [done|].
  rewrite lookup_insert_ne; [done|]. intros <-. congruence.
Qed.

Lemma foldl_Insert_kept (key : Breakpoint → Z) l : ∀ acc k0 b,
  (k0, b) ∈ l →
  (∀ k' b', (k', b') ∈ l → key b' = key b → (k', b') = (k0, b)) →
  acc !! key b = None →
  foldl (fun (acc : gmap Z Breakpoint) (it : Z * Breakpoint) =>
           Insert (key it.2) it.2 acc) acc l !! key b = Some b.
Proof.
  induction l as [|[k1 b1] l IH]; intros acc k0 b Hin Hinj Hfree; simpl.
  - by apply elem_of_nil in Hin.
  - destruct (decide (key b1 = key b)) as [Hkey|Hkey].
    + assert (Heq : (k1, b1) = (k0, b)) by (apply Hinj; [by left|done]).
      injection Heq as -> ->.
      apply foldl_Insert_mono. unfold Insert. simpl. rewrite Hfree.
      by rewrite lookup_insert_eq.
    + apply elem_of_cons in Hin as [Hin|Hin]; [congruence|].
      apply (IH _ k0); [done| |].
      * intros k' b' Hin'. apply Hinj. by right.
      * unfold Insert. simpl.
        destruct (acc !! key b1) eqn:E; [done|].
        by rewrite lookup_insert_ne.
Qed.

Lemma UpdateBreakpoints_lookup_kept d k b :
  breakpoints_ d !! k = Some b →
  (∀ k' b', breakpoints_ d !! k' = Some b' →
     bytecode_address_for (function_ b') 0 + bytecode_index_ b'
       = bytecode_address_for (function_ b) 0 + bytecode_index_ b →
     k' = k) →
  breakpoints_ (UpdateBreakpoints d)
    !! (bytecode_address_for (function_ b) 0 + bytecode_index_ b) = Some b.
Proof.
  intros Hb Hinj. unfold UpdateBreakpoints. simpl.
  apply (foldl_Insert_kept
           (fun b => bytecode_address_for (function_ b) 0 + bytecode_index_ b)
           _ _ k).
  - by apply elem_of_map_to_list.
  - intros k' b' Hin%elem_of_map_to_list Hkey.
    pose proof (Hinj k' b' Hin Hkey) as ->. congruence.
  - apply lookup_empty.
Qed.

(** [UpdateBreakpoints] loses no breakpoint whose new address is its own:
    a breakpoint that no other breakpoint of the table shares its computed
    address with is found under that address afterwards.  No breakpoint is
    made up: every entry afterwards is an entry of before. *)
Theorem UpdateBreakpoints_keeps d k b :
  breakpoints_ d !! k = Some b →
  (∀ k' b', breakpoints_ d !! k' = Some b' →
     bytecode_address_for (function_ b') 0 + bytecode_index_ b'
       = bytecode_address_for (function_ b) 0 + bytecode_index_ b →
     k' = k) →
  breakpoints_ (UpdateBreakpoints d)
    !! (bytecode_address_for (function_ b) 0 + bytecode_index_ b) = Some b ∧
  (∀ j a, breakpoints_ (UpdateBreakpoints d) !! j = Some a →
     ∃ j0, breakpoints_ d !! j0 = Some a).
Proof.
  intros Hb Hinj. split; [by apply (UpdateBreakpoints_lookup_kept d k)|].
  intros j a Hj. by apply UpdateBreakpoints_entry in Hj as [_ ?].
Qed.

Lemma UpdateBreakpoints_fixed d :
  (∀ key b, breakpoints_ d !! key = Some b →
     key = bytecode_address_for (function_ b) 0 + bytecode_index_ b) →
  UpdateBreakpoints d = d.
Proof.
  intros Hkeyed.
  assert (Hmap : breakpoints_ (UpdateBreakpoints d) = breakpoints_ d).
  { apply map_eq. intros k.
    destruct (breakpoints_ (UpdateBreakpoints d) !! k) as [b1|] eqn:E1.
    - apply UpdateBreakpoints_entry in E1 as [-> [k0 Hk0]].
      by rewrite <- (Hkeyed _ _ Hk0).
    - destruct (breakpoints_ d !! k) as [b2|] eqn:E2; [|done].
      assert (Hkept : breakpoints_ (UpdateBreakpoints d)
                        !! (bytecode_address_for (function_ b2) 0
                            + bytecode_index_ b2) = Some b2).
      { apply (UpdateBreakpoints_lookup_kept d k b2 E2).
        intros k' b' Hk' Hkey.
        by rewrite (Hkeyed _ _ Hk'), (Hkeyed _ _ E2). }
      rewrite <- (Hkeyed _ _ E2) in Hkept. congruence. }
  destruct d. unfold UpdateBreakpoints in *. simpl in *.
  unfold set_breakpoints. simpl. by rewrite Hmap.
Qed.

(** [UpdateBreakpoints] is idempotent: once the table is keyed by the
    addresses of its breakpoints, a further update changes nothing. *)
Theorem UpdateBreakpoints_idempotent d :
  UpdateBreakpoints (UpdateBreakpoints d) = UpdateBreakpoints d.
Proof.
  apply UpdateBreakpoints_fixed.
  intros key b Hb. by apply UpdateBreakpoints_entry in Hb as [-> _].
Qed.

End BreakpointTable.

(** ** Breakpoints across a program collection *)

Section BreakpointsSurvive.
Import DebugInfo Program.
Context `{Build, Flags, Headers}.

(** A breakpoint of the program's table is still there after a program
    collection, under the address that its index has in the function as
    moved, provided that address is the breakpoint's alone.  If it has no
    coroutine, [ShouldBreak] at the moved address answers true and reports
    the id the breakpoint had before the collection. *)
Theorem CollectGarbage_keeps_breakpoint scavenger p d key b heap sp :
  gc_ready scavenger p →
  debug_info_ p = Some d →
  breakpoints_ d !! key = Some b →
  (∀ key' b', breakpoints_ d !! key' = Some b' →
     bytecode_address_for (Visit scavenger (function_ b')) 0 + bytecode_index_ b'
       = bytecode_address_for (Visit scavenger (function_ b)) 0 + bytecode_index_ b →
     key' = key) →
  let moved :=
    bytecode_address_for (Visit scavenger (function_ b)) 0 + bytecode_index_ b in
  ∃ p' d',
    CollectGarbage scavenger p = Ok (tt, p') ∧
    debug_info_ p' = Some d' ∧
    breakpoints_ d' !! moved
      = Some (Breakpoint_VisitProgramPointers (Visit scavenger) b) ∧
    (coroutine_ b = NULL →
     ∃ d'', ShouldBreak heap moved sp d' = Ok (true, d'') ∧
            current_breakpoint_id_ d'' = id_ b).
Proof.
  intros Hready Hd Hb Hinj moved.
  destruct (CollectGarbage_spec scavenger p Hready)
    as ([] & p' & Hrun & _ & Hdebug & _).
  rewrite Hd in Hdebug. simpl in Hdebug.
  eexists p', _. split; [exact Hrun|]. split; [exact Hdebug|].
  assert (Hmoved : breakpoints_
                     (UpdateBreakpoints (VisitProgramPointers (Visit scavenger) d))
                     !! moved
                   = Some (Breakpoint_VisitProgramPointers (Visit scavenger) b)).
  { apply (UpdateBreakpoints_lookup_kept
             (VisitProgramPointers (Visit scavenger) d) key
             (Breakpoint_VisitProgramPointers (Visit scavenger) b)).
    - unfold VisitProgramPointers. simpl. by rewrite lookup_fmap, Hb.
    - intros key' b1. unfold VisitProgramPointers. simpl. rewrite lookup_fmap.
      destruct (breakpoints_ d !! key') as [b'|] eqn:Hb'; [|done].
      simpl. intros [= <-]. simpl. by apply Hinj. }
  split; [exact Hmoved|].
  intros Hco. unfold ShouldBreak. rewrite Hmoved. unfold Breakpoint_stack.
  simpl. destruct (decide (coroutine_ b = NULL)); [simpl|done].
  destruct (decide (NULL ≠ NULL)); [done|].
  eexists. split; [reflexivity|].
  destruct (is_one_shot_ b); [|done].
  unfold DeleteBreakpoint.
  by destruct (List.find _ _) as [[k' b'']|].
Qed.

End BreakpointsSurvive.

(** ** The two visits of the breakpoints *)

Section Visits.
Import DebugInfo.
Context `{Build, Headers}.

(** The visit of a collection of the process heap and the visit of a
    collection of the program heap touch different slots of a breakpoint,
    the coroutine and the function: they commute, and neither changes an
    address, an id or the flags of the table.  A visitor of the process
    heap is never handed the [NULL] of a breakpoint without coroutine. *)
Theorem VisitPointers_VisitProgramPointers visit_heap visit_program d :
  VisitPointers visit_heap (VisitProgramPointers visit_program d)
    = VisitProgramPointers visit_program (VisitPointers visit_heap d) ∧
  (∀ k b, breakpoints_ (VisitPointers visit_heap d) !! k = Some b →
     ∃ b0, breakpoints_ d !! k = Some b0 ∧
           id_ b = id_ b0 ∧ function_ b = function_ b0 ∧
           bytecode_index_ b = bytecode_index_ b0 ∧
           (coroutine_ b0 = NULL → b = b0)).
Proof.
  split.
  - unfold VisitPointers, VisitProgramPointers, set_breakpoints. simpl.
    f_equal. rewrite <- !map_fmap_compose. apply map_fmap_ext.
    intros k b _. simpl.
    unfold Breakpoint_VisitPointers, Breakpoint_VisitProgramPointers. simpl.
    by destruct (decide (coroutine_ b ≠ NULL)).
  - intros k b. unfold VisitPointers. simpl. rewrite lookup_fmap.
    destruct (breakpoints_ d !! k) as [b0|]; [|done].
    simpl. intros [= <-]. exists b0. unfold Breakpoint_VisitPointers.
    destruct (decide (coroutine_ b0 ≠ NULL)); simpl; split_and!; try done.
Qed.

End Visits.

(** ** The intrinsics of the dispatch table *)

Section DispatchTable.
Import Program.
Context `{Build, Flags}.
Variable ComputeIntrinsic : Z → Z.
Variable method_entry : Z.

(** The code that [SetupDispatchTableIntrinsics] gives an entry without
    code. *)
Definition code_for (target : Z) : Z :=
  if decide (ComputeIntrinsic target = NULL) then method_entry
  else ComputeIntrinsic target.

Definition fill (entry : DispatchTableEntry) : DispatchTableEntry :=
  if decide (code_ entry ≠ NULL) then entry
  else {| target_ := target_ entry; code_ := code_for (target_ entry) |}.

Lemma setup_entries_snd trampoline table : ∀ hits,
  (setup_entries ComputeIntrinsic method_entry trampoline hits table).2
  = fill <$> table.
Proof.
  induction table as [|entry table IH]; intros hits; simpl; [done|].
  unfold fill at 1. destruct (decide (code_ entry ≠ NULL)); simpl.
  - by rewrite IH.
  - rewrite IH. done.
Qed.

Lemma SetupDispatchTableIntrinsics_run p entry table :
  dispatch_table_ p = Some (entry :: table) →
  ∃ printed,
    SetupDispatchTableIntrinsics ComputeIntrinsic method_entry p
    = Ok (printed, set_dispatch_table (Some (fill <$> entry :: table)) p).
Proof.
  intros Htable. unfold SetupDispatchTableIntrinsics.
  unfold get, lift, modify. unfold mbind, M_bind, mret, M_ret. rewrite Htable.
  change ((entry :: table) !! O) with (Some entry).
  cbv beta iota zeta delta [deref Result_bind].
  rewrite (setup_entries_snd (target_ entry) (entry :: table) 0).
  by eexists.
Qed.

(** After [SetupDispatchTableIntrinsics] with a method entry that is not
    [NULL], no entry of a table with entries is without code; the entries
    that had code keep it, the others get the intrinsic of their target or,
    without one, the method entry.  The targets and the length of the table
    are unchanged. *)
Theorem SetupDispatchTableIntrinsics_fills p table :
  dispatch_table_ p = Some table → table ≠ [] → method_entry ≠ NULL →
  ∃ printed p' table',
    SetupDispatchTableIntrinsics ComputeIntrinsic method_entry p = Ok (printed, p') ∧
    dispatch_table_ p' = Some table' ∧
    List.length table' = List.length table ∧
    ∀ i entry, table !! i = Some entry →
      ∃ entry', table' !! i = Some entry' ∧
                target_ entry' = target_ entry ∧
                code_ entry' ≠ NULL ∧
                (code_ entry ≠ NULL → code_ entry' = code_ entry) ∧
                (code_ entry = NULL →
                 code_ entry' = if decide (ComputeIntrinsic (target_ entry) = NULL)
                                then method_entry
                                else ComputeIntrinsic (target_ entry)).
Proof.
  intros Htable Hne Hentry.
  destruct table as [|entry0 table]; [done|].
  destruct (SetupDispatchTableIntrinsics_run p _ _ Htable) as [printed Hrun].
  eexists printed, _, _. split; [exact Hrun|]. split; [reflexivity|].
  split; [by rewrite length_fmap|].
  intros i entry Hi. exists (fill entry).
  split; [by rewrite list_lookup_fmap, Hi|].
  unfold fill, code_for. destruct (decide (code_ entry ≠ NULL)); simpl.
  - split_and!; try done.
  - split_and!; try done.
    destruct (decide (ComputeIntrinsic (target_ entry) = NULL)); done.
Qed.

Lemma fill_fill entry : fill (fill entry) = fill entry.
Proof.
  unfold fill at 2.
  destruct (decide (code_ entry ≠ NULL)) as [Hc|Hc].
  - unfold fill. by destruct (decide (code_ entry ≠ NULL)).
  - unfold fill. simpl.
    destruct (decide (code_ entry ≠ NULL)); [done|].
    by destruct (decide (code_for (target_ entry) ≠ NULL)).
Qed.

(** [SetupDispatchTableIntrinsics] is idempotent: a second run leaves the
    table, and the rest of the state, as the first run left them. *)
Theorem SetupDispatchTableIntrinsics_idempotent p printed p' :
  SetupDispatchTableIntrinsics ComputeIntrinsic method_entry p = Ok (printed, p') →
  ∃ printed',
    SetupDispatchTableIntrinsics ComputeIntrinsic method_entry p'
    = Ok (printed', p').
Proof.
  intros Hrun.
  destruct (dispatch_table_ p) as [[|entry table]|] eqn:Htable.
  - revert Hrun. unfold SetupDispatchTableIntrinsics.
    unfold get, lift. unfold mbind, M_bind. by rewrite Htable.
  - destruct (SetupDispatchTableIntrinsics_run p _ _ Htable) as [printed0 Hrun0].
    rewrite Hrun0 in Hrun. injection Hrun as _ Hp'.
    destruct (SetupDispatchTableIntrinsics_run p' (fill entry) (fill <$> table))
      as [printed' Hrun']; [by rewrite <- Hp'; destruct p|].
    exists printed'. rewrite Hrun'. f_equal. f_equal.
    change (fill <$> fill entry :: (fill <$> table))
      with (fill <$> (fill <$> entry :: table)).
    rewrite <- list_fmap_compose.
    assert (Hfix : (fill ∘ fill) <$> entry :: table = fill <$> entry :: table).
    { apply list_fmap_ext. intros i x _. by apply fill_fill. }
    rewrite Hfix. rewrite <- Hp'. by destruct p.
  - revert Hrun. unfold SetupDispatchTableIntrinsics.
    unfold get, lift. unfold mbind, M_bind, mret, M_ret. rewrite Htable.
    intros [= <- <-]. rewrite Htable. by eexists.
Qed.

(** [ClearDispatchTableIntrinsics] followed by
    [SetupDispatchTableIntrinsics] gives every entry the code of its target,
    whatever code it had: the intrinsic of the target or, without one, the
    method entry.  The targets stay. *)
Theorem ClearDispatchTableIntrinsics_Setup p table :
  dispatch_table_ p = Some table → table ≠ [] →
  ∃ printed p',
    (ClearDispatchTableIntrinsics;;
     SetupDispatchTableIntrinsics ComputeIntrinsic method_entry) p
      = Ok (printed, p') ∧
    dispatch_table_ p'
      = Some ((fun entry =>
                 {| target_ := target_ entry;
                    code_ := if decide (ComputeIntrinsic (target_ entry) = NULL)
                             then method_entry
                             else ComputeIntrinsic (target_ entry) |}) <$> table).
Proof.
  intros Htable Hne.
  destruct table as [|entry0 table]; [done|].
  unfold ClearDispatchTableIntrinsics, emit.
  unfold mbind at 1 2 3, M_bind, modify, get. simpl. rewrite Htable. simpl.
  match goal with
  | |- context [SetupDispatchTableIntrinsics _ _ ?q] =>
      destruct (SetupDispatchTableIntrinsics_run q
                  {| target_ := target_ entry0; code_ := NULL |}
                  ((fun entry => {| target_ := target_ entry; code_ := NULL |})
                     <$> table)) as [printed Hrun]; [done|];
      rewrite Hrun
  end.
  eexists _, _. split; [reflexivity|]. simpl. f_equal.
  rewrite <- list_fmap_compose. f_equal.
Qed.

End DispatchTable.

(** ** The end of a process *)

Section ProcessDeletion.
Import Program.
Context `{Build, ProcessViews}.

Lemma ASSERT_ok c : c = true → ASSERT c = Ok tt.
Proof. intros ->. unfold ASSERT. by destruct debug. Qed.

(** One round of the loop, on a process that is there. *)
Lemma ScheduleProcessForDeletion_loop_round fuel current exit_kind p r :
  current ≠ NULL → processes_ p !! current = Some r →
  ScheduleProcessForDeletion_loop (S fuel) current exit_kind p =
    let new_count := wrap_int (process_triangle_count_ r - 1) in
    let p1 := set_processes
                (<[current := set_process_triangle_count new_count r]>
                   (processes_ p)) p in
    match ASSERT (0 <=? new_count) with
    | Ok _ =>
        if 0 <? new_count then Ok (Some (false, exit_kind), p1)
        else
          ScheduleProcessForDeletion_loop fuel (parent_ r)
            (if decide (parent_ r = NULL) then exit_signal current else exit_kind)
            (set_processes (delete current (processes_ p))
               (set_log (log_ p ++ [Call Process_delete [current]])
                  (set_process_list
                     (filter (fun x => x ≠ current) (process_list_ p)) p)))
    | AssertionFailure => AssertionFailure
    | BadPointer => BadPointer
    end.
Proof.
  intros Hcurrent Hr. simpl.
  destruct (decide (current = NULL)); [done|].
  unfold get, lift, modify, assert, RemoveFromProcessList, emit.
  unfold mbind, M_bind, mret, M_ret, Result_bind. simpl. rewrite Hr. simpl.
  destruct (ASSERT _); try done.
  destruct (0 <? _); [done|].
  f_equal. destruct p. simpl. unfold set_processes. simpl.
  by rewrite delete_insert_eq.
Qed.

(** The loop has rounds enough. *)
Lemma ScheduleProcessForDeletion_loop_fuel fuel : ∀ current exit_kind p p',
  (size (processes_ p) < fuel)%nat →
  ScheduleProcessForDeletion_loop fuel current exit_kind p ≠ Ok (None, p').
Proof.
  induction fuel as [|fuel IH]; intros current exit_kind p p' Hsize; [lia|].
  destruct (decide (current = NULL)) as [->|Hcurrent].
  { simpl. done. }
  destruct (processes_ p !! current) as [r|] eqn:Hr.
  - rewrite (ScheduleProcessForDeletion_loop_round _ _ _ _ r Hcurrent Hr).
    cbv zeta. destruct (ASSERT _); try done.
    destruct (0 <? _); [done|].
    apply IH. simpl.
    assert (Hs := map_size_delete current (processes_ p)).
    rewrite Hr in Hs. simpl in Hs.
    assert (size (processes_ p) ≠ 0)%nat.
    { intros Hz. apply map_size_empty_iff in Hz. by rewrite Hz in Hr. }
    lia.
  - simpl. destruct (decide (current = NULL)); [done|].
    unfold get, lift. unfold mbind, M_bind. simpl. by rewrite Hr.
Qed.

Lemma ScheduleProcessForDeletion_loop_NULL fuel exit_kind p :
  ScheduleProcessForDeletion_loop fuel NULL exit_kind p
  = Ok (Some (true, exit_kind), p).
Proof. by destruct fuel. Qed.

Lemma size_delete_lt (processes : gmap Z Process) current r fuel :
  processes !! current = Some r →
  (size processes < S fuel)%nat → (size (delete current processes) < fuel)%nat.
Proof.
  intros Hr Hsize.
  assert (Hs := map_size_delete current processes).
  rewrite Hr in Hs. simpl in Hs.
  assert (size processes ≠ 0)%nat.
  { intros Hz. apply map_size_empty_iff in Hz. by rewrite Hz in Hr. }
  lia.
Qed.

Lemma ScheduleProcessForDeletion_loop_spec fuel :
  ∀ current exit_kind p result p',
  (size (processes_ p) < fuel)%nat →
  ScheduleProcessForDeletion_loop fuel current exit_kind p = Ok (result, p') →
  ∃ answer exit_kind',
    result = Some (answer, exit_kind') ∧
    (∀ x, x ∈ process_list_ p' → x ∈ process_list_ p) ∧
    (∀ x, is_Some (processes_ p' !! x) → is_Some (processes_ p !! x)) ∧
    (answer = false → exit_kind' = exit_kind) ∧
    (answer = true → current ≠ NULL →
     ∃ root r,
       processes_ p !! root = Some r ∧ parent_ r = NULL ∧
       processes_ p' !! root = None ∧ (root ∉ process_list_ p') ∧
       exit_kind' = exit_signal root).
Proof.
  induction fuel as [|fuel IH]; intros current exit_kind p result p' Hsize;
    [lia|].
  destruct (decide (current = NULL)) as [->|Hcurrent].
  { simpl. intros [= <- <-]. eexists _, _. split; [done|]. by split_and!. }
  destruct (processes_ p !! current) as [r|] eqn:Hr.
  - rewrite (ScheduleProcessForDeletion_loop_round _ _ _ _ r Hcurrent Hr).
    cbv zeta. destruct (ASSERT _); try done.
    destruct (0 <? _).
    + intros [= <- <-]. eexists _, _. split; [done|]. simpl.
      split_and!; try done.
      intros x. destruct (decide (x = current)) as [->|Hx].
      * by rewrite Hr.
      * by rewrite lookup_insert_ne.
    + destruct (decide (parent_ r = NULL)) as [Hparent|Hparent].
      * rewrite Hparent, ScheduleProcessForDeletion_loop_NULL.
        intros [= <- <-]. eexists _, _. split; [done|]. simpl.
        split_and!; try done.
        -- by intros x [? ?]%list_elem_of_filter.
        -- intros x [y [? ?]%lookup_delete_Some]. by eexists.
        -- intros _ _. exists current, r. split_and!; try done.
           ++ by rewrite lookup_delete_eq.
           ++ by intros [? ?]%list_elem_of_filter.
      * intros Hrun.
        apply IH in Hrun
            as (answer & exit_kind' & -> & Hlist & Hmap & Hfalse & Htrue);
          [|by apply (size_delete_lt _ _ r)].
        simpl in *.
        eexists _, _. split; [done|]. split_and!.
        -- intros x Hx. apply Hlist in Hx.
           by apply list_elem_of_filter in Hx as [? ?].
        -- intros x Hx. apply Hmap in Hx as [y [? ?]%lookup_delete_Some].
           by eexists.
        -- done.
        -- intros Hanswer _.
           destruct (Htrue Hanswer Hparent)
             as (root & r' & [? Hroot]%lookup_delete_Some & ? & ? & ? & ?).
           by exists root, r'.
  - simpl. destruct (decide (current = NULL)); [done|].
    unfold get, lift. unfold mbind, M_bind. simpl. by rewrite Hr.
Qed.

Lemma ScheduleProcessForDeletion_unfold process kind exit_kind p :
  ScheduleProcessForDeletion process kind exit_kind p =
    match ASSERT (waiting_for_children process) with
    | Ok _ =>
        ScheduleProcessForDeletion_loop (S (size (processes_ p))) process
          exit_kind (set_log (log_ p ++ [Call Process_Cleanup [process]]) p)
    | AssertionFailure => AssertionFailure
    | BadPointer => BadPointer
    end.
Proof.
  unfold ScheduleProcessForDeletion, assert, emit, lift, modify, get.
  unfold mbind at 1 2 3 4, M_bind, Result_bind.
  by destruct (ASSERT _).
Qed.

(** Whatever the state, [ScheduleProcessForDeletion] that ends normally has
    an answer: the loop up the hierarchy needs no more rounds than there
    are processes.  It adds no process to the list and makes none.  The
    answer false leaves the exit kind of the program as it was.  The answer
    true is given only when a process without parent has been deleted; it
    is gone from the processes and from the list, and the exit kind of the
    program is the exit signal of its links. *)
Theorem ScheduleProcessForDeletion_answer process kind exit_kind p result p' :
  ScheduleProcessForDeletion process kind exit_kind p = Ok (result, p') →
  ∃ answer exit_kind',
    result = Some (answer, exit_kind') ∧
    (∀ x, x ∈ process_list_ p' → x ∈ process_list_ p) ∧
    (∀ x, is_Some (processes_ p' !! x) → is_Some (processes_ p !! x)) ∧
    (answer = false → exit_kind' = exit_kind) ∧
    (answer = true → process ≠ NULL →
     ∃ root r,
       processes_ p !! root = Some r ∧ parent_ r = NULL ∧
       processes_ p' !! root = None ∧ (root ∉ process_list_ p') ∧
       exit_kind' = exit_signal root).
Proof.
  rewrite ScheduleProcessForDeletion_unfold.
  destruct (ASSERT _); try done.
  intros Hrun.
  apply ScheduleProcessForDeletion_loop_spec in Hrun; [|destruct p; simpl; lia].
  by destruct p.
Qed.

Lemma wrap_int_id z : - 2 ^ 31 ≤ z < 2 ^ 31 → wrap_int z = z.
Proof.
  intros Hz. unfold wrap_int.
  rewrite Z.mod_small by lia. lia.
Qed.

(** A process that still has living descendants is not deleted:
    [ScheduleProcessForDeletion] cleans it up, counts it out of its own
    count and answers false.  The list of processes, every other process
    and the exit kind are as they were. *)
Theorem ScheduleProcessForDeletion_living_descendants process kind exit_kind p r :
  process ≠ NULL →
  processes_ p !! process = Some r →
  1 < process_triangle_count_ r < 2 ^ 31 →
  waiting_for_children process = true →
  ∃ p',
    ScheduleProcessForDeletion process kind exit_kind p
      = Ok (Some (false, exit_kind), p') ∧
    process_list_ p' = process_list_ p ∧
    processes_ p'
      = <[process := set_process_triangle_count (process_triangle_count_ r - 1) r]>
          (processes_ p) ∧
    log_ p' = log_ p ++ [Call Process_Cleanup [process]].
Proof.
  intros Hprocess Hr Hcount Hwaiting.
  rewrite ScheduleProcessForDeletion_unfold, (ASSERT_ok _ Hwaiting).
  rewrite (ScheduleProcessForDeletion_loop_round _ _ _ _ r Hprocess);
    [|by destruct p].
  cbv zeta. rewrite wrap_int_id by lia.
  rewrite ASSERT_ok by (apply Z.leb_le; lia).
  destruct (Z.ltb_spec 0 (process_triangle_count_ r - 1)); [|lia].
  eexists. split; [reflexivity|]. by destruct p.
Qed.

(** A process without parent and without living descendants is deleted:
    [ScheduleProcessForDeletion] answers true, the process is gone from the
    list and from the processes, and the exit kind of the program is the
    exit signal of its links. *)
Theorem ScheduleProcessForDeletion_main_process process kind exit_kind p r :
  process ≠ NULL →
  processes_ p !! process = Some r →
  parent_ r = NULL →
  process_triangle_count_ r = 1 →
  waiting_for_children process = true →
  ∃ p',
    ScheduleProcessForDeletion process kind exit_kind p
      = Ok (Some (true, exit_signal process), p') ∧
    process_list_ p' = filter (fun x => x ≠ process) (process_list_ p) ∧
    (process ∉ process_list_ p') ∧
    processes_ p' = delete process (processes_ p) ∧
    log_ p' = log_ p ++ [Call Process_Cleanup [process];
                         Call Process_delete [process]].
Proof.
  intros Hprocess Hr Hparent Hcount Hwaiting.
  rewrite ScheduleProcessForDeletion_unfold, (ASSERT_ok _ Hwaiting).
  rewrite (ScheduleProcessForDeletion_loop_round _ _ _ _ r Hprocess);
    [|by destruct p].
  cbv zeta. rewrite Hcount. change (wrap_int (1 - 1)) with 0.
  rewrite ASSERT_ok by done. change (0 <? 0) with false. cbv iota.
  rewrite Hparent, ScheduleProcessForDeletion_loop_NULL.
  destruct (decide (NULL = NULL)); [|done].
  eexists. split; [reflexivity|]. destruct p; simpl.
  split_and!; try done.
  - by intros [? ?]%list_elem_of_filter.
  - by rewrite <- app_assoc.
Qed.

End ProcessDeletion.

Section SpawnAndDelete.
Import Program.
Context `{Build, ProcessViews, ProcessAllocator}.

Lemma filter_ne_notin (x : Z) (l : list Z) :
  x ∉ l → filter (fun y => y ≠ x) l = l.
Proof.
  induction l as [|y l IH]; intros Hx; [done|].
  apply not_elem_of_cons in Hx as [Hy Hl].
  rewrite list.filter_cons_True by done. by rewrite IH.
Qed.

(** [SpawnProcess] without a failing allocation, for a parent that is a
    process. *)
Lemma SpawnProcess_child parent p rp :
  parent ≠ NULL →
  processes_ p !! parent = Some rp →
  processes_ p !! operator_new (processes_ p) = None →
  allocation_fails (answers_ (process_heap_ p)) = false →
  ∃ p',
    SpawnProcess parent p = Ok (operator_new (processes_ p), p') ∧
    process_list_ p' = process_list_ p ++ [operator_new (processes_ p)] ∧
    processes_ p'
      = <[parent := set_process_triangle_count
                      (wrap_int (process_triangle_count_ rp + 1)) rp]>
          (<[operator_new (processes_ p) :=
               {| parent_ := parent; process_triangle_count_ := 1;
                  allocation_failed_ := false; process_debug_info_ := None |}]>
             (processes_ p)).
Proof.
  intros Hparent Hrp Hfresh Hfails.
  destruct p as [roots table entry heap [old objects answers] list processes
                   session chain deltas cache info log].
  simpl in *.
  assert (Hne : operator_new processes ≠ parent) by congruence.
  unfold SpawnProcess, Process_new_, Process_SetupExecutionStack_,
    Process_Cleanup_and_delete, AddToProcessList, Process_AllocationFailed,
    update_process, ask, emit, when, assert, lift, modify, get.
  unfold mbind, mret, M_bind, M_ret, Result_bind, Result_ret.
  destruct answers as [|[] [|[] answers]]; try discriminate; simpl;
    repeat (rewrite lookup_insert_eq; simpl);
    rewrite bool_decide_false by done; simpl;
    rewrite (lookup_insert_ne _ _ _ _ Hne), Hrp; simpl;
    rewrite lookup_insert_ne by done; rewrite lookup_insert_eq; simpl;
    rewrite (ASSERT_ok true eq_refl);
    (eexists; split; [reflexivity|]; simpl; split; reflexivity).
Qed.

(** A process that is spawned and, before it has spawned anything itself,
    scheduled for deletion leaves the list of processes and the processes,
    the count of its parent among them, as they were before it was spawned.
    The answer is false: the parent lives on. *)
Theorem SpawnProcess_ScheduleProcessForDeletion parent kind exit_kind p rp :
  parent ≠ NULL →
  processes_ p !! parent = Some rp →
  0 < process_triangle_count_ rp < 2 ^ 31 - 1 →
  processes_ p !! operator_new (processes_ p) = None →
  operator_new (processes_ p) ≠ NULL →
  (operator_new (processes_ p) ∉ process_list_ p) →
  allocation_fails (answers_ (process_heap_ p)) = false →
  waiting_for_children (operator_new (processes_ p)) = true →
  ∃ child p1 p2,
    SpawnProcess parent p = Ok (child, p1) ∧
    (child ∈ process_list_ p1) ∧
    ScheduleProcessForDeletion child kind exit_kind p1
      = Ok (Some (false, exit_kind), p2) ∧
    process_list_ p2 = process_list_ p ∧
    processes_ p2 = processes_ p.
Proof.
  intros Hparent Hrp Hcount Hfresh Hnew Hlist Hfails Hwaiting.
  destruct (SpawnProcess_child parent p rp Hparent Hrp Hfresh Hfails)
    as (p1 & Hspawn & Hlist1 & Hprocesses1).
  set (child := operator_new (processes_ p)) in *.
  assert (Hne : child ≠ parent) by congruence.
  exists child, p1.
  rewrite ScheduleProcessForDeletion_unfold, (ASSERT_ok _ Hwaiting).
  rewrite (ScheduleProcessForDeletion_loop_round _ _ _ _
             {| parent_ := parent; process_triangle_count_ := 1;
                allocation_failed_ := false; process_debug_info_ := None |} Hnew).
  2:{ destruct p1. simpl in *. rewrite Hprocesses1.
      rewrite lookup_insert_ne by done. by rewrite lookup_insert_eq. }
  cbv zeta. simpl parent_. simpl process_triangle_count_.
  change (wrap_int (1 - 1)) with 0.
  rewrite ASSERT_ok by done. change (0 <? 0) with false. cbv iota.
  destruct (decide (parent = NULL)); [done|].
  set (rp1 := set_process_triangle_count
                (wrap_int (process_triangle_count_ rp + 1)) rp) in *.
  assert (Hfuel : ∃ fuel, size (processes_ p1) = S fuel).
  { destruct (size (processes_ p1)) eqn:Hsize; [|by eexists].
    apply map_size_empty_iff in Hsize. rewrite Hprocesses1 in Hsize.
    by apply insert_non_empty in Hsize. }
  destruct Hfuel as [fuel ->].
  rewrite (ScheduleProcessForDeletion_loop_round _ _ _ _ rp1 Hparent).
  2:{ destruct p1. simpl in *. rewrite Hprocesses1.
      rewrite lookup_delete_ne by done. by rewrite lookup_insert_eq. }
  cbv zeta. unfold rp1 at 1 2 3. simpl process_triangle_count_.
  rewrite (wrap_int_id (process_triangle_count_ rp + 1)) by lia.
  replace (process_triangle_count_ rp + 1 - 1)
    with (process_triangle_count_ rp) by lia.
  rewrite wrap_int_id by lia.
  rewrite ASSERT_ok by (apply Z.leb_le; lia).
  destruct (Z.ltb_spec 0 (process_triangle_count_ rp)); [|lia].
  eexists. split; [exact Hspawn|]. split.
  { rewrite Hlist1. apply elem_of_app. right. by left. }
  split; [reflexivity|].
  destruct p1. simpl in *. subst. split.
  - rewrite list.filter_app, filter_ne_notin by done.
    rewrite list.filter_cons_False by (intros Hx; by apply Hx).
    rewrite list.filter_nil. by rewrite app_nil_r.
  - apply map_eq. intros x.
    destruct (decide (x = parent)) as [->|Hx].
    + rewrite lookup_insert_eq, Hrp. f_equal. by destruct rp.
    + rewrite lookup_insert_ne by done.
      destruct (decide (x = child)) as [->|Hx'].
      * by rewrite lookup_delete_eq, Hfresh.
      * rewrite lookup_delete_ne by done. rewrite lookup_insert_ne by done.
        by rewrite lookup_insert_ne.
Qed.

End SpawnAndDelete.

(** ** Shared collections: what alternates *)

Section SharedCollectionCycles.
Import Program.
Context `{Build, Flags}.

(** The processes whose stack limit a run updates, in the order of the
    updates. *)
Definition stack_limit_updates (es : list Event) : list Z :=
  omap (fun e => match e with
                 | Call Process_UpdateStackLimit [process] => Some process
                 | _ => None
                 end) es.

Lemma stack_limit_updates_app es1 es2 :
  stack_limit_updates (es1 ++ es2)
  = stack_limit_updates es1 ++ stack_limit_updates es2.
Proof. apply omap_app. Qed.

Lemma stack_limit_updates_calls callee (processes : list Z) :
  stack_limit_updates ((fun process => Call callee [process]) <$> processes)
  = if decide (callee = Process_UpdateStackLimit) then processes else [].
Proof.
  induction processes as [|process processes IH].
  - by destruct (decide _).
  - rewrite fmap_cons. unfold stack_limit_updates in *.
    cbn [omap list_omap]. rewrite IH.
    destruct (decide (callee = Process_UpdateStackLimit)) as [->|Hne]; [done|].
    by destruct callee.
Qed.

(** Shared collections alternate: a collection compacts exactly when the
    one before it did not, so of two collections in a row one sweeps and
    one compacts.  Each of them leaves the hard limit reset.  The
    collection that sweeps updates the stack limit of every process of the
    list, once and in the order of the list; the collection that compacts
    updates none. *)
Theorem PerformSharedGarbageCollection_alternates p :
  ∃ p' es,
    PerformSharedGarbageCollection p = Ok (tt, p') ∧
    log_ p' = log_ p ++ es ∧
    compacting_ (old_space_ (process_heap_ p'))
      = negb (compacting_ (old_space_ (process_heap_ p))) ∧
    hard_limit_hit_ (old_space_ (process_heap_ p')) = false ∧
    stack_limit_updates es
      = (if compacting_ (old_space_ (process_heap_ p))
         then process_list_ p else []).
Proof.
  unfold PerformSharedGarbageCollection, SweepSharedHeap, CompactSharedHeap,
    IterateSharedHeapRoots, UpdateStackLimits, CleanupPorts, VisitProcesses.
  unfold when, clear_hard_limit_hit, set_compacting.
  destruct (compacting_ (old_space_ (process_heap_ p))) eqn:Hc;
    destruct (debug && validate_heaps);
    unfold mbind, M_bind; cbn;
    repeat (first [rewrite for_each_emit | rewrite Hc]; cbn);
    (eexists _, _; split; [reflexivity|]; split;
     [cbn; rewrite <- !app_assoc; reflexivity|]);
    (split; [reflexivity|]; split; [reflexivity|]);
    rewrite !stack_limit_updates_app, !stack_limit_updates_calls;
    cbn; by rewrite ?app_nil_r.
Qed.

End SharedCollectionCycles.

(** ** Collections on demand *)

Section CollectionsOnDemand.
Import Program.
Context `{Build, Flags}.

(** The calls of a run that start a shared collection, and the calls that
    ask the old space whether it needs one. *)
Definition shared_collections (es : list Event) : nat :=
  List.length (filter (fun e => e = Call Program_PerformSharedGarbageCollection []) es).

Definition needs_queries (es : list Event) : nat :=
  List.length (filter (fun e => e = Call OldSpace_needs_garbage_collection []) es).

Lemma filter_process_calls (e : Event) callee (processes : list Z) :
  (∀ x, e ≠ Call callee [x]) →
  filter (fun e' => e' = e) ((fun process => Call callee [process]) <$> processes)
  = [].
Proof.
  intros Hne. induction processes as [|process processes IH]; [done|].
  rewrite fmap_cons, list.filter_cons_False; [done|].
  intros Heq. by apply (Hne process).
Qed.

Lemma PerformSharedGarbageCollection_counts p :
  ∃ p' es,
    PerformSharedGarbageCollection p = Ok (tt, p') ∧
    log_ p' = log_ p ++ es ∧
    needs_queries es = O ∧ shared_collections es = 1%nat ∧
    answers_ (process_heap_ p') = answers_ (process_heap_ p).
Proof.
  unfold PerformSharedGarbageCollection, SweepSharedHeap, CompactSharedHeap,
    IterateSharedHeapRoots, UpdateStackLimits, CleanupPorts, VisitProcesses.
  unfold when, clear_hard_limit_hit, set_compacting.
  unfold shared_collections, needs_queries.
  destruct (compacting_ (old_space_ (process_heap_ p))) eqn:Hc;
    destruct (debug && validate_heaps);
    unfold mbind, M_bind; cbn;
    repeat (first [rewrite for_each_emit | rewrite Hc]; cbn);
    (eexists _, _; split; [reflexivity|]; split;
     [cbn; rewrite <- ?app_assoc; reflexivity|]);
    rewrite ?list.filter_app, ?filter_process_calls by done;
    cbn; done.
Qed.

Lemma CollectOldSpace_counts p :
  ∃ p' es,
    CollectOldSpace p = Ok (tt, p') ∧
    log_ p' = log_ p ++ es ∧
    needs_queries es = O ∧ shared_collections es = 1%nat ∧
    answers_ (process_heap_ p') = answers_ (process_heap_ p).
Proof.
  unfold CollectOldSpace, ValidateHeapsAreConsistent, when.
  unfold shared_collections, needs_queries in *.
  destruct validate_heaps; destruct print_heap_statistics;
    unfold mbind, M_bind; cbn -[PerformSharedGarbageCollection];
    match goal with
    | |- context [PerformSharedGarbageCollection ?q] =>
        destruct (PerformSharedGarbageCollection_counts q)
          as (p1 & es1 & -> & Hlog1 & Hq1 & Hc1 & Ha1)
    end;
    unfold shared_collections, needs_queries in *;
    cbn in *;
    (eexists _, _; split; [reflexivity|]; cbn; rewrite Hlog1; split;
     [rewrite <- ?app_assoc; reflexivity|]);
    rewrite ?list.filter_app, ?length_app, ?Hq1, ?Hc1; cbn;
    rewrite ?Ha1; done.
Qed.

(** [CollectOldSpaceIfNeeded] when forced starts one shared collection
    without asking the old space; when not forced it asks once and starts a
    shared collection exactly when the old space says that it needs one
    (an old space that gives no answer needs none). *)
Theorem CollectOldSpaceIfNeeded_decides force p :
  ∃ p' es,
    CollectOldSpaceIfNeeded force p = Ok (tt, p') ∧
    log_ p' = log_ p ++ es ∧
    needs_queries es = (if force then 0 else 1)%nat ∧
    shared_collections es
      = (if force || default false (head (answers_ (process_heap_ p)))
         then 1 else 0)%nat ∧
    answers_ (process_heap_ p')
      = (if force then answers_ (process_heap_ p)
         else tail (answers_ (process_heap_ p))).
Proof.
  unfold CollectOldSpaceIfNeeded, ask, when.
  destruct force;
    destruct (answers_ (process_heap_ p)) as [|[] answers] eqn:Ha;
    destruct (debug && validate_heaps);
    unfold mbind, M_bind; cbn -[CollectOldSpace]; rewrite ?Ha;
    cbn -[CollectOldSpace];
    try match goal with
    | |- context [CollectOldSpace ?q] =>
        destruct (CollectOldSpace_counts q)
          as (p1 & es1 & -> & Hlog1 & Hq1 & Hc1 & Ha1)
    end;
    unfold shared_collections, needs_queries in *;
    cbn in *;
    (eexists _, _; split; [reflexivity|]; cbn; rewrite ?Hlog1; split;
     [rewrite <- ?app_assoc; reflexivity|]);
    rewrite ?list.filter_app, ?length_app, ?Hq1, ?Hc1; cbn;
    rewrite ?Ha1, ?Ha; done.
Qed.

End CollectionsOnDemand.

(** ** Program collections and the chain of stacks *)

Section ChainedStacks.
Import DebugInfo Program.
Context `{Build, Flags, Headers}.

Lemma fails_after {A B} (m : M A) (k : A → M B) p :
  (∃ S, performs_at phase_of p m S) →
  (∀ a p', core p' = core p → k a p' = AssertionFailure) →
  (m ≫= k) p = AssertionFailure.
Proof.
  intros (S & a & p' & es & Hrun & Hcore & _) Hk.
  unfold mbind, M_bind. rewrite Hrun. by apply Hk.
Qed.

Lemma fails_first {A B} (m : M A) (k : A → M B) p :
  m p = AssertionFailure → (m ≫= k) p = AssertionFailure.
Proof. intros Hm. unfold mbind, M_bind. by rewrite Hm. Qed.

(** A program collection must find no chain of stacks left over: in a
    debug build [CollectGarbage] on a program whose [stack_chain_] is not
    [NULL] ends in an assertion failure.  The collections of the process
    heap that come first leave the chain as it is, and
    [CollectMutableGarbageAndChainStacks] asserts that there is none. *)
Theorem CollectGarbage_chain_left_over scavenger p :
  debug = true → stack_chain_ p ≠ NULL →
  CollectGarbage scavenger p = AssertionFailure.
Proof.
  intros Hdebug Hchain. unfold CollectGarbage.
  apply fails_after; [eexists; apply performs_ClearCache|].
  intros _ p1 Hcore1. unfold PrepareProgramGC.
  apply fails_first.
  apply fails_after.
  { eexists. apply quiet_when, quiet_ValidateHeapsAreConsistent. }
  intros _ p2 Hcore2.
  apply fails_after;
    [eexists; apply performs_PerformSharedGarbageCollection|].
  intros _ p3 Hcore3.
  apply fails_after; [eexists; apply performs_CollectNewSpace|].
  intros _ p4 Hcore4.
  apply fails_first.
  assert (Hchain4 : stack_chain_ p4 ≠ NULL).
  { rewrite (core_stack_chain p4 p3 Hcore4), (core_stack_chain p3 p2 Hcore3),
      (core_stack_chain p2 p1 Hcore2), (core_stack_chain p1 p Hcore1).
    done. }
  unfold CollectMutableGarbageAndChainStacks, emit, modify, get, assert, lift,
    ASSERT.
  unfold mbind at 1 2 3, M_bind. simpl. rewrite Hdebug.
  by rewrite bool_decide_false.
Qed.

End ChainedStacks.

(** ** Cooking and uncooking without a collection in between *)

Section CookAndUncook.
Import DebugInfo Program.
Context `{Build, Flags, Headers}.

Lemma rebase_id functions bcp : rebase functions id bcp = bcp.
Proof.
  unfold rebase. destruct (decide (_ = NULL)); [done|]. simpl. lia.
Qed.

Lemma chain_from_stacks heap l : ∀ a,
  chain_from heap a l → ∀ b, b ∈ l → ∃ s, heap !! b = Some (StackObject s).
Proof.
  induction l as [|x l IH]; intros a Hchain b Hb; [by apply elem_of_nil in Hb|].
  destruct Hchain as [-> (s & Hs & Hrest)].
  apply elem_of_cons in Hb as [->|Hb]; [by exists s|].
  by apply (IH (next_ s)).
Qed.

(** [CookStacks] followed at once by [UncookAndUnchainStacks] gives every
    frame of every chained stack the bytecode pointer it had: each stack
    has the frames of before.  The stacks are unchained, their [next]
    fields zero and [stack_chain_] [NULL], and the deltas are deleted.
    Nothing else of the process heap changes. *)
Theorem CookStacks_UncookAndUnchainStacks p l :
  chain_from (heap_objects_ (process_heap_ p)) (stack_chain_ p) l →
  NoDup l →
  functions_ok (functions_ (heap_ p)) →
  (∀ b s, b ∈ l → heap_objects_ (process_heap_ p) !! b = Some (StackObject s) →
     Forall (frame_ok (functions_ (heap_ p))) (frames_ s)) →
  ∃ p',
    (CookStacks (Z.of_nat (List.length l));; UncookAndUnchainStacks) p
      = Ok (tt, p') ∧
    stack_chain_ p' = NULL ∧
    cooked_stack_deltas_ p' = [] ∧
    (∀ b s, b ∈ l →
       heap_objects_ (process_heap_ p) !! b = Some (StackObject s) →
       heap_objects_ (process_heap_ p') !! b
         = Some (StackObject {| length_ := length_ s; frames_ := frames_ s;
                                next_ := Smi_FromWord 0 |})) ∧
    (∀ k, k ∉ l →
       heap_objects_ (process_heap_ p') !! k
         = heap_objects_ (process_heap_ p) !! k).
Proof.
  intros Hchain Hnd Hfunctions Hframes.
  assert (Hrun : wp (CookStacks (Z.of_nat (List.length l));; UncookAndUnchainStacks)
            (fun _ p' =>
               stack_chain_ p' = NULL ∧ cooked_stack_deltas_ p' = [] ∧
               (∀ b s, b ∈ l →
                  heap_objects_ (process_heap_ p) !! b = Some (StackObject s) →
                  heap_objects_ (process_heap_ p') !! b
                    = Some (StackObject {| length_ := length_ s;
                                           frames_ := frames_ s;
                                           next_ := Smi_FromWord 0 |})) ∧
               (∀ k, k ∉ l →
                  heap_objects_ (process_heap_ p') !! k
                    = heap_objects_ (process_heap_ p) !! k)) p).
  { eapply wp_seq.
    { apply (CookStacks_spec p p [] p l); [apply at_start|done|done]. }
    cbv beta. intros _ p1 (heap1 & deltas & Hat & Hchain1 & Hlen & Hother & Hcooked).
    assert (Huncook : ∀ j b s1, l !! j = Some b →
              heap1 !! b = Some (StackObject s1) →
              ∃ s, heap_objects_ (process_heap_ p) !! b = Some (StackObject s) ∧
                   s1 = set_frames (cooked (functions_ (heap_ p)) s).1 s ∧
                   deltas !! j = Some (cooked (functions_ (heap_ p)) s).2 ∧
                   uncook_frames (frames_ s1) O (cooked (functions_ (heap_ p)) s).2
                   = Ok (frames_ s)).
    { intros j b s1 Hj Hs1.
      assert (Hb : b ∈ l) by (by eapply list_elem_of_lookup_2).
      destruct (chain_from_stacks _ _ _ Hchain b Hb) as [s Hs].
      destruct (Hcooked j b s Hj Hs) as [Hs1' Hds].
      rewrite Hs1 in Hs1'. injection Hs1' as ->.
      exists s. split_and!; try done. simpl.
      pose proof (cook_uncook (functions_ (heap_ p)) id (frames_ s) O
                    (replicate (List.length (frames_ s)) 0) Hfunctions) as Hcu.
      rewrite list_fmap_id in Hcu. unfold cooked. rewrite Hcu.
      - f_equal. rewrite <- (list_fmap_id (frames_ s)) at 2.
        apply list_fmap_ext. intros i x _. apply rebase_id.
      - by split.
      - by apply (Hframes b).
      - simpl. by rewrite length_replicate. }
    eapply wp_mono.
    { apply (UncookAndUnchainStacks_spec p (with_stacks heap1 deltas p)
               [CookStacksPhase] p1 l Hat).
      - by destruct p.
      - done.
      - by destruct p.
      - intros j b s1 Hj Hs1.
        assert (Hs1' : heap1 !! b = Some (StackObject s1)) by (by destruct p).
        destruct (Huncook j b s1 Hj Hs1') as (s & _ & _ & Hds & Hfs).
        eexists _, _. split; [by destruct p|exact Hfs]. }
    cbv beta. intros _ p2 (heap2 & [Hcore _] & Hother2 & Hdone).
    split_and!.
    - rewrite (core_stack_chain _ _ Hcore). by destruct p.
    - rewrite (core_cooked_stack_deltas _ _ Hcore). by destruct p.
    - intros b s Hb Hs.
      rewrite (core_heap_objects _ _ Hcore).
      apply list_elem_of_lookup in Hb as [j Hj].
      destruct (Hcooked j b s Hj Hs) as [Hs1 Hds].
      destruct (Huncook j b _ Hj Hs1) as (s' & Hs' & _ & _ & Hfs).
      assert (s' = s) as -> by congruence.
      simpl in *.
      rewrite (Hdone j b _ _ (frames_ s) Hj Hs1 Hds Hfs). by destruct s.
    - intros k Hk. rewrite (core_heap_objects _ _ Hcore). simpl in *.
      rewrite (Hother2 k Hk). by apply Hother. }
  destruct Hrun as ([] & p' & Hrun & Hfacts). by exists p'.
Qed.

Lemma cook_frames_fst functions frames : ∀ index deltas,
  (cook_frames functions frames index deltas).1
  = (fun bcp => if decide (FunctionFromByteCodePointer functions bcp = NULL)
                then bcp else FunctionFromByteCodePointer functions bcp)
      <$> frames.
Proof.
  induction frames as [|bcp frames IH]; intros index deltas; simpl; [done|].
  destruct (decide (FunctionFromByteCodePointer functions bcp = NULL)); simpl;
    by rewrite IH.
Qed.

(** While the stacks are cooked, no frame holds a pointer into the
    bytecodes of a function: [CookStacks] puts the function itself where
    the bytecode pointer was, for the collection to visit, and leaves the
    frames without function as they are.  There is one list of deltas for
    each chained stack, as long as the stack has frames. *)
Theorem CookStacks_cooked p l :
  chain_from (heap_objects_ (process_heap_ p)) (stack_chain_ p) l →
  NoDup l →
  ∃ p',
    CookStacks (Z.of_nat (List.length l)) p = Ok (tt, p') ∧
    List.length (cooked_stack_deltas_ p') = List.length l ∧
    ∀ j b s, l !! j = Some b →
      heap_objects_ (process_heap_ p) !! b = Some (StackObject s) →
      ∃ deltas,
        cooked_stack_deltas_ p' !! j = Some deltas ∧
        List.length deltas = List.length (frames_ s) ∧
        heap_objects_ (process_heap_ p') !! b
          = Some (StackObject
                    {| length_ := length_ s;
                       frames_ :=
                         (fun bcp =>
                            if decide (FunctionFromByteCodePointer
                                         (functions_ (heap_ p)) bcp = NULL)
                            then bcp
                            else FunctionFromByteCodePointer
                                   (functions_ (heap_ p)) bcp) <$> frames_ s;
                       next_ := next_ s |}).
Proof.
  intros Hchain Hnd.
  destruct (CookStacks_spec p p [] p l (at_start p) Hchain Hnd)
    as ([] & p' & Hrun & heap1 & deltas & [Hcore _] & _ & Hlen & _ & Hcooked).
  exists p'. split; [exact Hrun|].
  rewrite (core_cooked_stack_deltas _ _ Hcore). simpl.
  split; [exact Hlen|].
  intros j b s Hj Hs.
  destruct (Hcooked j b s Hj Hs) as [Hs1 Hds].
  exists (cooked (functions_ (heap_ p)) s).2.
  rewrite (core_heap_objects _ _ Hcore). simpl.
  split; [exact Hds|]. split.
  - unfold cooked. by rewrite cook_frames_length, length_replicate.
  - rewrite Hs1. unfold cooked, set_frames. by rewrite cook_frames_fst.
Qed.

End CookAndUncook.

(** ** Re-boxing: heaps that are portable already *)

Section PortableHeaps.
Import Program.
Context `{Build, Platform, Headers}.

Lemma BigSmiFixer_visit_portable large_integer_class s v q :
  memory_ (heap_ q) !! s = Some v → oversized v = false →
  BigSmiFixer_visit large_integer_class s q = Ok (tt, q).
Proof.
  intros Hv Hover.
  assert (Hload : load s q = Ok (v, q)).
  { unfold load, get, lift. unfold mbind, M_bind. simpl. by rewrite Hv. }
  unfold BigSmiFixer_visit. unfold mbind at 1, M_bind. rewrite Hload.
  unfold oversized in Hover.
  destruct (IsSmi v); simpl in *; [|done].
  apply negb_false_iff in Hover. by rewrite Hover.
Qed.

Lemma for_each_unchanged (body : Z → M unit) l q :
  (∀ s, s ∈ l → body s q = Ok (tt, q)) → for_each l body q = Ok (tt, q).
Proof.
  induction l as [|s l IH]; intros Hbody; simpl; [done|].
  unfold mbind, M_bind. rewrite Hbody by (by left).
  apply IH. intros s' Hs'. apply Hbody. by right.
Qed.

Lemma IterateObjects_loop_unchanged (visitor : Z * Z → M unit) objects q :
  (∀ object, object ∈ objects → visitor object q = Ok (tt, q)) →
  IterateObjects_loop objects visitor q = Ok (tt, q).
Proof.
  induction objects as [|object objects IH]; intros Hvisit; simpl; [done|].
  unfold mbind, M_bind. rewrite Hvisit by (by left).
  apply IH. intros o Ho. apply Hvisit. by right.
Qed.

(** On a heap whose slots hold no immediate integer outside the portable
    range, the pass of [SnapshotGC] over the integers allocates nothing and
    writes nothing: it leaves the program exactly as it was. *)
Theorem SnapshotGC_FixOversizedSmis_portable p :
  (∀ s, s ∈ all_slots (heap_ p) →
     ∃ v, memory_ (heap_ p) !! s = Some v ∧ oversized v = false) →
  SnapshotGC_FixOversizedSmis p = Ok (tt, p).
Proof.
  intros Hslots. unfold SnapshotGC_FixOversizedSmis.
  destruct width; [done|].
  set (q := set_heap (set_space (enter_scope (space_ (heap_ p))) (heap_ p)) p).
  assert (Hbody : ∀ large_integer_class,
            Heap_IterateObjects_
              (FindOversizedSmiVisitor_Visit large_integer_class) q
            = Ok (tt, q)).
  { intros large_integer_class. unfold Heap_IterateObjects_, get.
    unfold mbind, M_bind.
    apply IterateObjects_loop_unchanged. intros object Hobject.
    unfold FindOversizedSmiVisitor_Visit, HeapObject_IterateEverything,
      BigSmiFixer_VisitBlock.
    apply for_each_unchanged. intros s Hs.
    destruct (Hslots s) as (v & Hv & Hover).
    { apply list_elem_of_bind. exists object. split; [done|].
      by destruct p. }
    apply (BigSmiFixer_visit_portable _ _ v); [|done]. by destruct p. }
  unfold NoAllocationFailureScope, root, get, modify.
  unfold mbind, M_bind. fold q. rewrite Hbody.
  unfold mret, M_ret. f_equal. f_equal. unfold q.
  destruct p as [? ? ? [[? ? ?] ? ? ?] ? ? ? ? ? ? ? ? ?]. done.
Qed.

End PortableHeaps.

(** ** The statistics of the program heap *)

Section StatisticsProperties.
Import Statistics.

Lemma wrap_int_succ z : 0 ≤ z < 2 ^ 31 - 1 → wrap_int (z + 1) = z + 1.
Proof.
  intros Hz. unfold wrap_int. rewrite Z.mod_small by lia. lia.
Qed.

Definition counts_ok (n : Z) (v : StatisticsVisitor) : Prop :=
  object_count_ v = n ∧
  0 ≤ class_count_ v ∧ 0 ≤ array_count_ v ∧ 0 ≤ string_count_ v ∧
  0 ≤ function_count_ v ∧
  class_count_ v + array_count_ v + string_count_ v + function_count_ v ≤ n.

Lemma Visit_counts_ok n object v :
  0 ≤ n < 2 ^ 31 - 1 → counts_ok n v → counts_ok (n + 1) (Visit object v).2.
Proof.
  intros Hn (Hobjects & Hc & Ha & Hs & Hf & Hsum).
  unfold Visit, counts_ok.
  destruct (IsClass object); [|destruct (IsArray object);
    [|destruct (IsOneByteString object);
      [|destruct (IsTwoByteString object);
        [|destruct (IsFunction object)]]]]; simpl;
    rewrite Hobjects, ?wrap_int_succ by lia; lia.
Qed.

Lemma IterateObjects_counts_ok objects : ∀ n v,
  0 ≤ n → n + Z.of_nat (List.length objects) < 2 ^ 31 →
  counts_ok n v →
  counts_ok (n + Z.of_nat (List.length objects)) (IterateObjects objects v).
Proof.
  induction objects as [|object objects IH]; intros n v Hn Hlen Hv.
  - simpl. by rewrite Z.add_0_r.
  - unfold IterateObjects. simpl foldl.
    change (foldl _ ?v0 objects) with (IterateObjects objects v0).
    replace (n + Z.of_nat (List.length (object :: objects)))
      with ((n + 1) + Z.of_nat (List.length objects))
      by (simpl List.length; lia).
    apply IH; [lia|simpl List.length in Hlen; lia|].
    apply Visit_counts_ok; [simpl List.length in Hlen; lia|done].
Qed.

(** The visitor of the statistics counts every object once, and in at most
    one of its kinds: after a walk over fewer than 2^31 objects the count
    of objects is their number, and the counts of classes, arrays, strings
    and functions together do not exceed it. *)
Theorem StatisticsVisitor_counts objects :
  Z.of_nat (List.length objects) < 2 ^ 31 →
  let v := IterateObjects objects StatisticsVisitor_new in
  object_count_ v = Z.of_nat (List.length objects) ∧
  0 ≤ class_count_ v ∧ 0 ≤ array_count_ v ∧ 0 ≤ string_count_ v ∧
  0 ≤ function_count_ v ∧
  class_count_ v + array_count_ v + string_count_ v + function_count_ v
    ≤ object_count_ v.
Proof.
  intros Hlen v.
  destruct (IterateObjects_counts_ok objects 0 StatisticsVisitor_new)
    as (Hobjects & Hc & Ha & Hs & Hf & Hsum); [done|lia| |].
  { unfold counts_ok. simpl. lia. }
  fold v in Hobjects, Hc, Ha, Hs, Hf, Hsum.
  rewrite Z.add_0_l in *. split_and!; try done. lia.
Qed.

End StatisticsProperties.

(** ** The strings of the program *)

Section Strings.
Import Program.
Context `{Build, Platform, Headers}.

(** The calls that set the character codes of a string, from index [i]
    on. *)
Fixpoint char_code_calls (result i : Z) (codes : list Z) : list Event :=
  match codes with
  | [] => []
  | c :: codes =>
      Call OneByteString_set_char_code [result; i; c]
        :: char_code_calls result (i + 1) codes
  end.

Lemma set_char_codes_run result codes : ∀ i p,
  set_char_codes result i codes p
    = Ok (tt, set_log (log_ p ++ char_code_calls result i codes) p).
Proof.
  induction codes as [|c codes IH]; intros i p; simpl.
  - rewrite app_nil_r. by destruct p.
  - unfold mbind, M_bind, emit, modify. simpl. rewrite IH. simpl.
    rewrite <- app_assoc. reflexivity.
Qed.

Lemma char_code_calls_lookup result codes : ∀ i j c,
  codes !! j = Some c →
  char_code_calls result i codes !! j
    = Some (Call OneByteString_set_char_code [result; i + Z.of_nat j; c]).
Proof.
  induction codes as [|c0 codes IH]; intros i j c Hj; [done|].
  destruct j as [|j]; simpl in *.
  - injection Hj as ->. by rewrite Z.add_0_r.
  - rewrite (IH (i + 1) j c Hj). do 4 f_equal. lia.
Qed.

Lemma char_code_calls_length result codes : ∀ i,
  List.length (char_code_calls result i codes) = List.length codes.
Proof. induction codes as [|c codes IH]; intros i; simpl; [done|by rewrite IH]. Qed.

Lemma length_list_ascii_of_string (str : string) :
  List.length (list_ascii_of_string str) = String.length str.
Proof. induction str as [|c str IH]; simpl; [done|by rewrite IH]. Qed.

Lemma get_list_ascii_of_string (str : string) : ∀ j c,
  String.get j str = Some c → list_ascii_of_string str !! j = Some c.
Proof.
  induction str as [|c0 str IH]; intros j c Hj; simpl in *; [done|].
  destruct j as [|j]; [done|]. simpl. by apply IH.
Qed.

(** [CreateStringFromAscii] asks the heap for a string of the length of
    the text and then sets the character codes, one call for each character
    of the text, in the order of the text and at the index of the
    character.  When the heap fails it returns the failure and sets no
    character.  Nothing but the space of the program heap and the log
    changes. *)
Theorem CreateStringFromAscii_sets_characters (str : string) p :
  ∃ result p' es,
    CreateStringFromAscii str p = Ok (result, p') ∧
    log_ p' = log_ p
              ++ Call Heap_CreateOneByteStringUninitialized
                   [result; roots_ p one_byte_string_class_;
                    Z.of_nat (String.length str)] :: es ∧
    roots_ p' = roots_ p ∧ memory_ (heap_ p') = memory_ (heap_ p) ∧
    objects_ (heap_ p') = objects_ (heap_ p) ∧
    (IsFailure result = true → es = []) ∧
    (IsFailure result = false →
     List.length es = String.length str ∧
     ∀ j c, String.get j str = Some c →
       es !! j = Some (Call OneByteString_set_char_code
                         [result; Z.of_nat j; Z.of_nat (nat_of_ascii c)])).
Proof.
  unfold CreateStringFromAscii, Heap_create, root, get, emit, modify.
  unfold mbind, M_bind, mret, M_ret. simpl.
  set (size := RoundUp _ _).
  set (object := if decide ((SemiSpace_Allocate size (space_ (heap_ p))).1 = 0)
                 then Failure_retry_after_gc
                 else HeapObject_FromAddress
                        (SemiSpace_Allocate size (space_ (heap_ p))).1).
  destruct (IsFailure object) eqn:Hfailure.
  - eexists object, _, []. split; [reflexivity|]. simpl.
    split_and!; try done. by rewrite Hfailure.
  - rewrite set_char_codes_run. simpl.
    eexists object, _, _. split; [reflexivity|]. simpl.
    split; [rewrite <- app_assoc; reflexivity|].
    split_and!; try done; [by rewrite Hfailure|].
    intros _. split.
    + rewrite char_code_calls_length. unfold char_codes.
      by rewrite length_fmap, length_list_ascii_of_string.
    + intros j c Hj.
      rewrite (char_code_calls_lookup object _ 0 j (Z.of_nat (nat_of_ascii c)));
        [done|].
      unfold char_codes. rewrite list_lookup_fmap.
      by rewrite (get_list_ascii_of_string str j c Hj).
Qed.

End Strings.

(** ** The examples *)

Section Examples.
Import DebugInfo Program Example.
Existing Instances build flags headers platform.

Lemma example_process_heap a o :
  process_heap !! a = Some o →
  (a = S ∧ o = StackObject stack) ∨ (a = C ∧ o = CoroutineObject coroutine).
Proof.
  unfold process_heap. intros Ha.
  apply lookup_insert_Some in Ha as [[<- <-]|[_ Ha]]; [by left|].
  apply lookup_insert_Some in Ha as [[<- <-]|[_ Ha]]; [by right|].
  by rewrite lookup_empty in Ha.
Defined.

Lemma example_visitor_ok : visitor_ok (Visit scavenger).
Proof.
  split; intros v Hv; simpl; rewrite Hv; [done|].
  destruct (v <? 4096); [|done].
  unfold IsSmi in *. apply negb_false_iff in Hv. apply negb_false_iff.
  rewrite Z.bit0_odd in *. rewrite Z.odd_add, Hv. reflexivity.
Defined.

Lemma example_gc_ready : gc_ready scavenger program.
Proof.
  unfold gc_ready. split_and!.
  - reflexivity.
  - intros x ->%list_elem_of_singleton. by eexists.
  - intros f obj Hf. simpl in Hf.
    apply lookup_insert_Some in Hf as [[<- <-]|[_ Hf]];
      [|by rewrite lookup_empty in Hf].
    split; [reflexivity|simpl; lia].
  - intros a s Ha.
    apply example_process_heap in Ha as [[-> [= ->]]|[_ [=]]].
    apply Forall_cons_2; [right; by vm_compute|].
    apply Forall_cons_2; [by left|]. apply Forall_nil_2.
  - apply example_visitor_ok.
  - intros a [o Ha].
    by apply example_process_heap in Ha as [[-> _]|[-> _]].
  - discriminate.
  - split; reflexivity.
Defined.

Lemma CollectGarbage_rebases_bytecode_pointers_witness :
  gc_ready scavenger program ∧
  ∃ p', CollectGarbage scavenger program = Ok (tt, p') ∧
        ∃ s', heap_objects_ (process_heap_ p') !! S = Some (StackObject s') ∧
              frames_ s' !! O = Some (bytecode_address_for (F + 64) 0 + 12).
Proof.
  split; [exact example_gc_ready|].
  destruct (CollectGarbage_rebases_bytecode_pointers scavenger program
              example_gc_ready) as (p' & Hrun & Hframes).
  exists p'. split; [exact Hrun|].
  apply (Hframes S stack O (288 + 12)); [reflexivity|reflexivity|].
  by vm_compute.
Defined.

Lemma example_breakpoints k b :
  breakpoints_ debug_info !! k = Some b →
  (k = 295 ∧ b = one_shot_breakpoint) ∨ (k = 297 ∧ b = step_over_breakpoint).
Proof.
  simpl. intros Hk.
  apply lookup_insert_Some in Hk as [[<- <-]|[_ Hk]]; [by left|].
  apply lookup_insert_Some in Hk as [[<- <-]|[_ Hk]]; [by right|].
  by rewrite lookup_empty in Hk.
Defined.


(** The example program with a process heap whose new space is empty and
    whose old space asks for a collection. *)
Definition idle_program : Program :=
  set_process_heap (set_answers [true; true] (process_heap_ program)) program.

Lemma CollectGarbage_phases_witness :
  gc_ready scavenger program ∧
  (∃ p' es,
     CollectGarbage scavenger program = Ok (tt, p') ∧
     log_ p' = log_ program ++ es ∧
     phases es = [ClearLookupCache; SharedOldSpaceGC; NewSpaceScavenge;
                  ChainStacksPhase; CookStacksPhase; ProgramSpaceScavenge;
                  UncookAndUnchain; BreakpointUpdate; BreakpointUpdate]) ∧
  gc_ready scavenger idle_program ∧
  (∃ p' es,
     CollectGarbage scavenger idle_program = Ok (tt, p') ∧
     log_ p' = log_ idle_program ++ es ∧
     phases es = [ClearLookupCache; SharedOldSpaceGC; SharedOldSpaceGC;
                  ChainStacksPhase; CookStacksPhase; ProgramSpaceScavenge;
                  UncookAndUnchain; BreakpointUpdate; BreakpointUpdate]).
Proof.
  assert (Hidle : gc_ready scavenger idle_program) by exact example_gc_ready.
  split_and!; [exact example_gc_ready| |exact Hidle|].
  - destruct (CollectGarbage_phases scavenger program example_gc_ready)
      as (p' & es & Hrun & Hlog & Hphases & _).
    exists p', es. split; [exact Hrun|]. split; [exact Hlog|exact Hphases].
  - destruct (CollectGarbage_phases scavenger idle_program Hidle)
      as (p' & es & Hrun & Hlog & Hphases & _).
    exists p', es. split; [exact Hrun|]. split; [exact Hlog|exact Hphases].
Defined.

(** C4, as the specification has it, does not hold: the collection of the
    example program ends normally, its phases are not the specified ones,
    the dispatch table is never cleared, and its code slot is as before. *)
Lemma CollectGarbage_specified_order_counterexample :
  ∃ p', CollectGarbage scavenger program = Ok (tt, p') ∧
        phases (log_ p') ≠ specified_order ∧
        (ClearDispatchTableCode ∉ phases (log_ p')) ∧
        (code_ <$> default [] (dispatch_table_ p')) = [7777].
Proof.
  eexists. split; [vm_compute; reflexivity|].
  split_and!.
  - vm_compute. discriminate.
  - vm_compute. intros Hin.
    repeat (apply elem_of_cons in Hin as [Hin|Hin]; [discriminate|]).
    by apply elem_of_nil in Hin.
  - reflexivity.
Qed.

(** C9, as the specification has it, does not hold: the shared collection
    of the example program, which compacts, ends normally and never
    evaluates pointlessness; and the collection after a compacting one
    evaluates it before its walk over the old space, not after. *)
Lemma PerformSharedGarbageCollection_counterexample :
  (∃ p', PerformSharedGarbageCollection program = Ok (tt, p') ∧
         Call OldSpace_EvaluatePointlessness [] ∉ log_ p') ∧
  (∃ p' p'', PerformSharedGarbageCollection program = Ok (tt, p') ∧
             PerformSharedGarbageCollection (set_log [] p') = Ok (tt, p'') ∧
             omap cycle_step_of (log_ p'')
             = [Evaluate; ClearHardLimit; SetCompacting false; Walk]).
Proof.
  split.
  - eexists. split; [vm_compute; reflexivity|].
    vm_compute. intros Hin.
    repeat (apply elem_of_cons in Hin as [Hin|Hin]; [discriminate|]).
    by apply elem_of_nil in Hin.
  - eexists _, _. split; [vm_compute; reflexivity|].
    split; vm_compute; reflexivity.
Qed.

Lemma Initialize_object_placements_witness :
  Instance_kSize = 2 * kWordSize ∧
  0 < top_ (space_ (heap_ program)) ∧
  top_ (space_ (heap_ program)) + 3 * Instance_kSize ≤ limit_ (space_ (heap_ program)) ∧
  ∃ p', Initialize program = Ok (tt, p') ∧
        roots_ p' null_object_ = 513 ∧
        roots_ p' false_object_ = 529 ∧
        roots_ p' true_object_ = 545.
Proof.
  assert (H1 : Instance_kSize = 2 * kWordSize) by reflexivity.
  assert (H2 : 0 < top_ (space_ (heap_ program))) by reflexivity.
  assert (H3 : top_ (space_ (heap_ program)) + 3 * Instance_kSize
               ≤ limit_ (space_ (heap_ program))) by (vm_compute; discriminate).
  split_and!; [exact H1|exact H2|exact H3|].
  destruct (Initialize_object_placements program H1 H2 H3)
    as (p' & Hrun & Hn & _ & _ & Hf & Ht).
  exists p'. split; [exact Hrun|].
  cbv zeta in Hf, Ht. rewrite Ht, Hf, Hn.
  vm_compute. split; [reflexivity|split; reflexivity].
Defined.

Lemma example_ids_unique : ids_unique debug_info.
Proof.
  intros k1 k2 b1 b2 H1 H2 Hid. simpl in *.
  apply lookup_insert_Some in H1 as [[<- <-]|[_ H1]];
    apply lookup_insert_Some in H2 as [[<- <-]|[_ H2]]; try done.
  - apply lookup_insert_Some in H2 as [[<- <-]|[_ H2]]; [done|].
    by rewrite lookup_empty in H2.
  - apply lookup_insert_Some in H1 as [[<- <-]|[_ H1]]; [done|].
    by rewrite lookup_empty in H1.
  - apply lookup_insert_Some in H1 as [[<- <-]|[_ H1]];
      [|by rewrite lookup_empty in H1].
    apply lookup_insert_Some in H2 as [[<- <-]|[_ H2]]; [done|].
    by rewrite lookup_empty in H2.
Defined.

Lemma ShouldBreak_one_shot_witness :
  ids_unique debug_info ∧
  ∃ d', ShouldBreak process_heap 295 4200 debug_info = Ok (true, d') ∧
        breakpoints_ d' !! 295 = None ∧
        ShouldBreak process_heap 295 4200 d' = Ok (false, d').
Proof.
  split; [exact example_ids_unique|].
  destruct (ShouldBreak_one_shot process_heap 295 4200 debug_info
              one_shot_breakpoint example_ids_unique eq_refl eq_refl eq_refl
              eq_refl) as (d' & Hfirst & Hmap & Hsecond).
  exists d'. split; [exact Hfirst|]. split; [|exact Hsecond].
  rewrite Hmap. apply lookup_delete_eq.
Defined.

Lemma ShouldBreak_stack_height_mismatch_witness :
  breakpoints_ debug_info !! 297 = Some step_over_breakpoint ∧
  4200 ≤ Stack_Pointer S (wrap_word (length_ stack - 3)) ∧
  ShouldBreak process_heap 297 4200 debug_info = Ok (false, debug_info) ∧
  Stack_Pointer S (wrap_word (length_ stack - 3)) < 4240 ∧
  @ShouldBreak release_build headers process_heap 297 4240 debug_info
    = Ok (false, debug_info).
Proof.
  assert (Hb : breakpoints_ debug_info !! 297 = Some step_over_breakpoint)
    by reflexivity.
  assert (Hle : 4200 ≤ Stack_Pointer S (wrap_word (length_ stack - 3)))
    by (vm_compute; discriminate).
  assert (Hlt : Stack_Pointer S (wrap_word (length_ stack - 3)) < 4240)
    by reflexivity.
  split_and!; [exact Hb|exact Hle| |exact Hlt|].
  - refine (proj1 (ShouldBreak_stack_height_mismatch process_heap 297 4200
                     debug_info step_over_breakpoint coroutine stack
                     Hb _ eq_refl _ eq_refl) _ (fun _ => Hle));
      vm_compute; discriminate.
  - refine (proj1 (@ShouldBreak_stack_height_mismatch release_build headers
                     process_heap 297 4240
                     debug_info step_over_breakpoint coroutine stack
                     Hb _ eq_refl _ eq_refl) _ _);
      [discriminate|discriminate|vm_compute; discriminate|discriminate].
Defined.

Lemma SetBreakpoint_existing_witness :
  breakpoints_ debug_info !! (bytecode_address_for F 0 + 7)
    = Some one_shot_breakpoint ∧
  breakpoints_ (SetBreakpoint F 7 false NULL 0 debug_info).2
    = breakpoints_ debug_info ∧
  (SetBreakpoint F 7 false NULL 0 debug_info).1 = 0.
Proof.
  assert (Hb : breakpoints_ debug_info !! (bytecode_address_for F 0 + 7)
               = Some one_shot_breakpoint) by reflexivity.
  split; [exact Hb|].
  exact (SetBreakpoint_existing F 7 false NULL 0 debug_info
           one_shot_breakpoint Hb).
Defined.

Lemma example_chunks_ok : chunks_ok.
Proof.
  intros size limit. simpl. unfold RoundUp.
  pose proof (Z.div_mod (limit + 4096 + 4096 - 1) 4096 ltac:(lia)) as Hdiv.
  pose proof (Z.mod_pos_bound (limit + 4096 + 4096 - 1) 4096 ltac:(lia)) as Hmod.
  split_and!; [lia| |lia].
  rewrite Z.even_mul. apply orb_true_r.
Defined.

Lemma example_slots s :
  is_slot (heap_ snapshot_program) s →
  s < top_ (space_ (heap_ snapshot_program)) ∧
  is_Some (memory_ (heap_ snapshot_program) !! s).
Proof.
  intros Hs%elem_of_all_slots. revert s Hs.
  apply (proj1 (list.Forall_forall
                  (fun s => s < top_ (space_ (heap_ snapshot_program)) ∧
                            is_Some (memory_ (heap_ snapshot_program) !! s))
                  (all_slots (heap_ snapshot_program)))).
  apply (bool_decide_unpack _). vm_compute. exact I.
Defined.



Existing Instance process_allocator.

Lemma example_operator_new (processes : gmap Z Process) :
  processes !! operator_new processes = None.
Proof.
  apply (not_elem_of_dom (D := gset Z)).
  exact (is_fresh (dom processes)).
Defined.

Lemma SpawnProcess_allocation_failure_witness :
  allocation_fails (answers_ (process_heap_ starved_program)) = true ∧
  ∃ p', SpawnProcess 9001 starved_program = Ok (NULL, p') ∧
        process_list_ p' = [9001] ∧
        processes_ p' !! 9001 = Some main_process.
Proof.
  split; [reflexivity|].
  destruct (SpawnProcess_allocation_failure 9001 starved_program
              (example_operator_new _)) as (Hfailure & _ & _).
  destruct (Hfailure eq_refl) as (p' & Hrun & Hlist & Hprocesses).
  exists p'. split; [exact Hrun|]. split; [exact Hlist|].
  rewrite Hprocesses. reflexivity.
Defined.

End Examples.

(** ** More examples *)

Section MoreExamples.
Import DebugInfo Program Example.
Existing Instances build flags headers platform process_allocator.

Lemma example_ids_below_counter : ids_below_counter debug_info.
Proof.
  intros k b [[_ ->]|[_ ->]]%example_breakpoints; reflexivity.
Defined.

Lemma DeleteBreakpoint_unknown_id_witness :
  (∀ k b, breakpoints_ debug_info !! k = Some b → id_ b ≠ 7) ∧
  DeleteBreakpoint 7 debug_info = (false, debug_info).
Proof.
  assert (Hnone : ∀ k b, breakpoints_ debug_info !! k = Some b → id_ b ≠ 7).
  { intros k b [[_ ->]|[_ ->]]%example_breakpoints; discriminate. }
  split; [exact Hnone|].
  exact (DeleteBreakpoint_unknown_id 7 debug_info Hnone).
Defined.

Lemma DeleteBreakpoint_erases_one_witness :
  breakpoints_ debug_info !! 297 = Some step_over_breakpoint ∧
  id_ step_over_breakpoint = 1 ∧
  (DeleteBreakpoint 1 debug_info).1 = true ∧
  breakpoints_ (DeleteBreakpoint 1 debug_info).2 !! 297 = None ∧
  breakpoints_ (DeleteBreakpoint 1 debug_info).2 !! 295 = Some one_shot_breakpoint.
Proof.
  assert (Hk : breakpoints_ debug_info !! 297 = Some step_over_breakpoint)
    by reflexivity.
  assert (Hid : id_ step_over_breakpoint = 1) by reflexivity.
  split_and!; [exact Hk|exact Hid|..];
    destruct (DeleteBreakpoint_erases_one 1 debug_info 297 step_over_breakpoint
                Hk Hid) as (k' & b' & _ & _ & Hrun & Hothers & Hgone & Hkey);
    pose proof (Hkey example_ids_unique) as ->.
  - by rewrite Hrun.
  - exact Hgone.
  - rewrite Hothers by discriminate. reflexivity.
Defined.

Lemma SetBreakpoint_DeleteBreakpoint_witness :
  ids_below_counter debug_info ∧
  breakpoints_ debug_info !! (bytecode_address_for F 0 + 20) = None ∧
  let r := SetBreakpoint F 20 true NULL 0 debug_info in
  r.1 = 2 ∧
  (DeleteBreakpoint r.1 r.2).1 = true ∧
  breakpoints_ (DeleteBreakpoint r.1 r.2).2 = breakpoints_ debug_info ∧
  next_breakpoint_id_ (DeleteBreakpoint r.1 r.2).2 = 3.
Proof.
  assert (Hfree : breakpoints_ debug_info !! (bytecode_address_for F 0 + 20) = None)
    by reflexivity.
  split_and!; [exact example_ids_below_counter|exact Hfree|].
  intros r.
  destruct (SetBreakpoint_DeleteBreakpoint F 20 true NULL 0 debug_info
              example_ids_below_counter Hfree) as (Hanswer & Htable & Hcounter).
  split_and!; [reflexivity|exact Hanswer|exact Htable|].
  exact (proj2 Hcounter ltac:(simpl; lia)).
Defined.

Lemma SetBreakpoint_ShouldBreak_witness :
  ids_below_counter debug_info ∧
  breakpoints_ debug_info !! (bytecode_address_for F 0 + 20) = None ∧
  ∃ d', ShouldBreak process_heap 308 0
          (SetBreakpoint F 20 true NULL 0 debug_info).2 = Ok (true, d') ∧
        current_breakpoint_id_ d' = 2 ∧
        breakpoints_ d' = breakpoints_ debug_info.
Proof.
  assert (Hfree : breakpoints_ debug_info !! (bytecode_address_for F 0 + 20) = None)
    by reflexivity.
  split_and!; [exact example_ids_below_counter|exact Hfree|].
  destruct (SetBreakpoint_ShouldBreak process_heap 0 F 20 true 0 debug_info
              example_ids_below_counter Hfree)
    as (d' & Hrun & Hcurrent & _ & Htable).
  exists d'. split_and!; [exact Hrun|exact Hcurrent|exact Htable].
Defined.

(** The table of the example, as the debugger builds it. *)
Definition built_table : DebugInfo :=
  (SetBreakpoint F 9 false C 3
     (SetBreakpoint F 7 true NULL 0 DebugInfo_new).2).2.

Lemma built_ids_unique_witness :
  built built_table ∧
  breakpoints_ built_table !! 295 = Some one_shot_breakpoint ∧
  breakpoints_ built_table !! 297 = Some step_over_breakpoint ∧
  ∀ k b, breakpoints_ built_table !! k = Some b → 0 ≤ id_ b < 2.
Proof.
  assert (Hbuilt : built built_table).
  { apply built_SetBreakpoint; [|reflexivity].
    apply built_SetBreakpoint; [apply built_new|reflexivity]. }
  split_and!; [exact Hbuilt|reflexivity|reflexivity|].
  exact (proj2 (built_ids_unique built_table Hbuilt)).
Defined.

Lemma ShouldBreak_frame_witness :
  ∃ d', ShouldBreak process_heap 295 0 debug_info = Ok (true, d') ∧
        is_at_breakpoint_ d' = true ∧
        breakpoints_ d' !! 295 = None ∧
        is_stepping_ d' = false ∧
        next_breakpoint_id_ d' = 2.
Proof.
  destruct (ShouldBreak process_heap 295 0 debug_info) as [[answer d']| |] eqn:Hrun;
    [|vm_compute in Hrun; discriminate..].
  assert (answer = true) as -> by (vm_compute in Hrun; congruence).
  exists d'. split; [reflexivity|].
  destruct (ShouldBreak_frame process_heap 295 0 debug_info true d' Hrun)
    as (Htrue & _ & Hkept & Hstepping & Hcounter).
  split_and!; [exact (proj2 (Htrue eq_refl))| |exact Hstepping|exact Hcounter].
  vm_compute in Hrun. by injection Hrun as <-.
Defined.

(** A breakpoint at offset 20 in [F] that stays and has no coroutine. *)
Definition persistent_breakpoint : Breakpoint :=
  {| function_ := F; bytecode_index_ := 20; id_ := 2; is_one_shot_ := false;
     coroutine_ := NULL; stack_height_ := 0 |}.

Definition persistent_table : DebugInfo :=
  (SetBreakpoint F 20 false NULL 0 debug_info).2.

Lemma ShouldBreak_persistent_witness :
  breakpoints_ persistent_table !! 308 = Some persistent_breakpoint ∧
  is_one_shot_ persistent_breakpoint = false ∧
  coroutine_ persistent_breakpoint = NULL ∧
  ∃ d', ShouldBreak process_heap 308 0 persistent_table = Ok (true, d') ∧
        breakpoints_ d' = breakpoints_ persistent_table ∧
        current_breakpoint_id_ d' = 2 ∧
        ShouldBreak process_heap 308 64 d' = Ok (true, d').
Proof.
  assert (Hk : breakpoints_ persistent_table !! 308 = Some persistent_breakpoint)
    by reflexivity.
  split_and!; [exact Hk|reflexivity|reflexivity|].
  exact (ShouldBreak_persistent process_heap 308 0 64 persistent_table
           persistent_breakpoint Hk eq_refl eq_refl).
Defined.

Lemma ShouldBreak_stack_height_match_witness :
  breakpoints_ debug_info !! 297 = Some step_over_breakpoint ∧
  coroutine_ step_over_breakpoint ≠ NULL ∧
  process_heap !! coroutine_ step_over_breakpoint = Some (CoroutineObject coroutine) ∧
  stack_ coroutine ≠ NULL ∧
  process_heap !! stack_ coroutine = Some (StackObject stack) ∧
  ∃ d', ShouldBreak process_heap 297
          (Stack_Pointer S (wrap_word (16 - 3))) debug_info = Ok (true, d') ∧
        current_breakpoint_id_ d' = 1 ∧
        breakpoints_ d' = breakpoints_ debug_info.
Proof.
  assert (Hk : breakpoints_ debug_info !! 297 = Some step_over_breakpoint)
    by reflexivity.
  assert (Hc : coroutine_ step_over_breakpoint ≠ NULL) by discriminate.
  assert (Hco : process_heap !! coroutine_ step_over_breakpoint
                = Some (CoroutineObject coroutine)) by reflexivity.
  assert (Hs : stack_ coroutine ≠ NULL) by discriminate.
  assert (Hso : process_heap !! stack_ coroutine = Some (StackObject stack))
    by reflexivity.
  split_and!; [exact Hk|exact Hc|exact Hco|exact Hs|exact Hso|].
  destruct (ShouldBreak_stack_height_match process_heap 297 debug_info
              step_over_breakpoint coroutine stack Hk Hc Hco Hs Hso)
    as (d' & Hrun & Hcurrent & Htable).
  exists d'. split_and!; [exact Hrun|exact Hcurrent|exact (Htable eq_refl)].
Defined.

Lemma UpdateBreakpoints_keeps_witness :
  breakpoints_ debug_info !! 295 = Some one_shot_breakpoint ∧
  (∀ k' b', breakpoints_ debug_info !! k' = Some b' →
     bytecode_address_for (function_ b') 0 + bytecode_index_ b'
       = bytecode_address_for F 0 + 7 →
     k' = 295) ∧
  breakpoints_ (UpdateBreakpoints debug_info) !! 295 = Some one_shot_breakpoint.
Proof.
  assert (Hk : breakpoints_ debug_info !! 295 = Some one_shot_breakpoint)
    by reflexivity.
  assert (Halone : ∀ k' b', breakpoints_ debug_info !! k' = Some b' →
     bytecode_address_for (function_ b') 0 + bytecode_index_ b'
       = bytecode_address_for (function_ one_shot_breakpoint) 0
         + bytecode_index_ one_shot_breakpoint →
     k' = 295).
  { intros k' b' [[-> _]|[_ ->]]%example_breakpoints; [reflexivity|].
    intros Heq. vm_compute in Heq. discriminate. }
  split_and!; [exact Hk|exact Halone|].
  exact (proj1 (UpdateBreakpoints_keeps debug_info 295 one_shot_breakpoint
                  Hk Halone)).
Defined.

Lemma CollectGarbage_keeps_breakpoint_witness :
  gc_ready scavenger program ∧
  debug_info_ program = Some debug_info ∧
  breakpoints_ debug_info !! 295 = Some one_shot_breakpoint ∧
  ∃ p' d',
    CollectGarbage scavenger program = Ok (tt, p') ∧
    debug_info_ p' = Some d' ∧
    breakpoints_ d' !! (295 + 64)
      = Some (Breakpoint_VisitProgramPointers (Visit scavenger) one_shot_breakpoint) ∧
    ∃ d'', ShouldBreak process_heap (295 + 64) 0 d' = Ok (true, d'') ∧
           current_breakpoint_id_ d'' = 0.
Proof.
  assert (Hd : debug_info_ program = Some debug_info) by reflexivity.
  assert (Hk : breakpoints_ debug_info !! 295 = Some one_shot_breakpoint)
    by reflexivity.
  assert (Halone : ∀ key' b', breakpoints_ debug_info !! key' = Some b' →
     bytecode_address_for (Visit scavenger (function_ b')) 0 + bytecode_index_ b'
       = bytecode_address_for (Visit scavenger (function_ one_shot_breakpoint)) 0
         + bytecode_index_ one_shot_breakpoint →
     key' = 295).
  { intros k' b' [[-> _]|[_ ->]]%example_breakpoints; [reflexivity|].
    intros Heq. vm_compute in Heq. discriminate. }
  split_and!; [exact example_gc_ready|exact Hd|exact Hk|].
  destruct (CollectGarbage_keeps_breakpoint scavenger program debug_info 295
              one_shot_breakpoint process_heap 0 example_gc_ready Hd Hk Halone)
    as (p' & d' & Hrun & Hd' & Hmoved & Hbreak).
  exists p', d'. split_and!; [exact Hrun|exact Hd'|exact Hmoved|].
  exact (Hbreak eq_refl).
Defined.

(** A dispatch table of two entries; the second has no code yet.  The
    function at 601 has an intrinsic, no other function has. *)
Definition dispatch_program : Program :=
  set_dispatch_table
    (Some [{| target_ := F; code_ := 7777 |};
           {| target_ := 601; code_ := NULL |};
           {| target_ := 701; code_ := NULL |}])
    program.

Definition intrinsic_of (target : Z) : Z :=
  if decide (target = 601) then 8888 else NULL.

Lemma SetupDispatchTableIntrinsics_fills_witness :
  dispatch_table_ dispatch_program
    = Some [{| target_ := F; code_ := 7777 |};
            {| target_ := 601; code_ := NULL |};
            {| target_ := 701; code_ := NULL |}] ∧
  9999 ≠ NULL ∧
  ∃ printed p' table',
    SetupDispatchTableIntrinsics intrinsic_of 9999 dispatch_program
      = Ok (printed, p') ∧
    dispatch_table_ p' = Some table' ∧
    ∃ entry', table' !! 2%nat = Some entry' ∧ target_ entry' = 701 ∧
              code_ entry' = 9999.
Proof.
  split_and!; [reflexivity|discriminate|].
  destruct (SetupDispatchTableIntrinsics_fills intrinsic_of 9999
              dispatch_program _ eq_refl ltac:(discriminate) ltac:(discriminate))
    as (printed & p' & table' & Hrun & Htable & _ & Hentries).
  exists printed, p', table'. split_and!; [exact Hrun|exact Htable|].
  destruct (Hentries 2%nat {| target_ := 701; code_ := NULL |} eq_refl)
    as (entry' & Hentry & Htarget & _ & _ & Hcode).
  exists entry'. split_and!; [exact Hentry|exact Htarget|exact (Hcode eq_refl)].
Defined.

Lemma SetupDispatchTableIntrinsics_idempotent_witness :
  ∃ printed p',
    SetupDispatchTableIntrinsics intrinsic_of 9999 dispatch_program
      = Ok (printed, p') ∧
    ∃ printed',
      SetupDispatchTableIntrinsics intrinsic_of 9999 p' = Ok (printed', p').
Proof.
  destruct (SetupDispatchTableIntrinsics intrinsic_of 9999 dispatch_program)
    as [[printed p']| |] eqn:Hrun; [|vm_compute in Hrun; discriminate..].
  exists printed, p'. split; [reflexivity|].
  exact (SetupDispatchTableIntrinsics_idempotent intrinsic_of 9999
           dispatch_program printed p' Hrun).
Defined.

Lemma ClearDispatchTableIntrinsics_Setup_witness :
  dispatch_table_ dispatch_program
    = Some [{| target_ := F; code_ := 7777 |};
            {| target_ := 601; code_ := NULL |};
            {| target_ := 701; code_ := NULL |}] ∧
  ∃ printed p',
    (ClearDispatchTableIntrinsics;;
     SetupDispatchTableIntrinsics intrinsic_of 9999) dispatch_program
      = Ok (printed, p') ∧
    dispatch_table_ p'
      = Some [{| target_ := F; code_ := 9999 |};
              {| target_ := 601; code_ := 8888 |};
              {| target_ := 701; code_ := 9999 |}].
Proof.
  split; [reflexivity|].
  destruct (ClearDispatchTableIntrinsics_Setup intrinsic_of 9999
              dispatch_program _ eq_refl ltac:(discriminate))
    as (printed & p' & Hrun & Htable).
  exists printed, p'. split; [exact Hrun|exact Htable].
Defined.

(** Every process waits for its children; the main process ends with an
    uncaught exception, every other process terminates. *)
Definition process_views : ProcessViews :=
  {| waiting_for_children := fun _ => true;
     exit_signal := fun process =>
       if decide (process = 9001) then kUncaughtException else kTerminated |}.
Existing Instance process_views.

(** The main process with a child, the process 9002. *)
Definition child_process : Process :=
  {| parent_ := 9001; process_triangle_count_ := 1;
     allocation_failed_ := false; process_debug_info_ := None |}.

Definition family_program : Program :=
  set_process_list [9001; 9002]
    (set_processes
       (<[9001 := set_process_triangle_count 2 main_process]>
          (<[9002 := child_process]> ∅))
       program).

Lemma ScheduleProcessForDeletion_answer_witness :
  ∃ p',
    ScheduleProcessForDeletion 9002 kKilled kTerminated family_program
      = Ok (Some (false, kTerminated), p') ∧
    (∀ x, x ∈ process_list_ p' → x ∈ process_list_ family_program) ∧
    (∀ x, is_Some (processes_ p' !! x) → is_Some (processes_ family_program !! x)).
Proof.
  destruct (ScheduleProcessForDeletion 9002 kKilled kTerminated family_program)
    as [[result p']| |] eqn:Hrun; [|vm_compute in Hrun; discriminate..].
  destruct (ScheduleProcessForDeletion_answer 9002 kKilled kTerminated
              family_program result p' Hrun)
    as (answer & exit_kind' & -> & Hlist & Hprocesses & _).
  exists p'. split_and!; [|exact Hlist|exact Hprocesses].
  vm_compute in Hrun. injection Hrun as <- <- _. reflexivity.
Defined.

Lemma ScheduleProcessForDeletion_living_descendants_witness :
  processes_ family_program !! 9001 = Some (set_process_triangle_count 2 main_process) ∧
  ∃ p',
    ScheduleProcessForDeletion 9001 kTerminated kKilled family_program
      = Ok (Some (false, kKilled), p') ∧
    process_list_ p' = [9001; 9002] ∧
    log_ p' = [Call Process_Cleanup [9001]].
Proof.
  split; [reflexivity|].
  destruct (ScheduleProcessForDeletion_living_descendants 9001 kTerminated kKilled
              family_program (set_process_triangle_count 2 main_process)
              ltac:(discriminate) eq_refl ltac:(simpl; lia) eq_refl)
    as (p' & Hrun & Hlist & _ & Hlog).
  exists p'. split_and!; [exact Hrun|exact Hlist|exact Hlog].
Defined.

Lemma ScheduleProcessForDeletion_main_process_witness :
  processes_ program !! 9001 = Some main_process ∧
  parent_ main_process = NULL ∧
  process_triangle_count_ main_process = 1 ∧
  ∃ p',
    ScheduleProcessForDeletion 9001 kTerminated kKilled program
      = Ok (Some (true, kUncaughtException), p') ∧
    process_list_ p' = [] ∧
    processes_ p' = delete 9001 (processes_ program).
Proof.
  split_and!; [reflexivity..|].
  destruct (ScheduleProcessForDeletion_main_process 9001 kTerminated kKilled
              program main_process ltac:(discriminate) eq_refl eq_refl eq_refl
              eq_refl)
    as (p' & Hrun & Hlist & _ & Hprocesses & _).
  exists p'. split_and!; [exact Hrun|exact Hlist|exact Hprocesses].
Defined.

Lemma SpawnProcess_ScheduleProcessForDeletion_witness :
  processes_ program !! 9001 = Some main_process ∧
  allocation_fails (answers_ (process_heap_ program)) = false ∧
  ∃ child p1 p2,
    SpawnProcess 9001 program = Ok (child, p1) ∧
    child ∈ process_list_ p1 ∧
    ScheduleProcessForDeletion child kKilled kTerminated p1
      = Ok (Some (false, kTerminated), p2) ∧
    process_list_ p2 = [9001] ∧
    processes_ p2 = processes_ program.
Proof.
  split_and!; [reflexivity|reflexivity|].
  assert (Hfresh : processes_ program !! operator_new (processes_ program) = None).
  { apply (not_elem_of_dom (D := gset Z)).
    exact (is_fresh (dom (processes_ program))). }
  assert (Hchild : operator_new (processes_ program) ≠ NULL)
    by (vm_compute; discriminate).
  assert (Hlist : operator_new (processes_ program) ∉ process_list_ program).
  { intros Hin%list_elem_of_singleton. vm_compute in Hin. discriminate. }
  exact (SpawnProcess_ScheduleProcessForDeletion 9001 kKilled kTerminated
           program main_process ltac:(discriminate) eq_refl ltac:(simpl; lia)
           Hfresh Hchild Hlist eq_refl eq_refl).
Defined.

(** The example program with the stack [S] left in the chain. *)
Definition chained_program : Program := set_stack_chain S program.

Lemma CollectGarbage_chain_left_over_witness :
  debug = true ∧ stack_chain_ chained_program ≠ NULL ∧
  CollectGarbage scavenger chained_program = AssertionFailure.
Proof.
  split_and!; [reflexivity|discriminate|].
  exact (CollectGarbage_chain_left_over scavenger chained_program eq_refl
           ltac:(discriminate)).
Defined.

Lemma example_chain :
  chain_from (heap_objects_ (process_heap_ chained_program))
    (stack_chain_ chained_program) [S].
Proof.
  split; [reflexivity|]. exists stack. split; reflexivity.
Defined.

Lemma CookStacks_UncookAndUnchainStacks_witness :
  chain_from (heap_objects_ (process_heap_ chained_program))
    (stack_chain_ chained_program) [S] ∧
  ∃ p',
    (CookStacks 1;; UncookAndUnchainStacks) chained_program = Ok (tt, p') ∧
    stack_chain_ p' = NULL ∧
    cooked_stack_deltas_ p' = [] ∧
    heap_objects_ (process_heap_ p') !! S
      = Some (StackObject {| length_ := 16; frames_ := [288 + 12; NULL];
                             next_ := Smi_FromWord 0 |}).
Proof.
  split; [exact example_chain|].
  destruct (CookStacks_UncookAndUnchainStacks chained_program [S] example_chain)
    as (p' & Hrun & Hchain & Hdeltas & Hstacks & _).
  - apply NoDup_singleton.
  - intros f obj Hf. simpl in Hf.
    apply lookup_insert_Some in Hf as [[<- <-]|[_ Hf]];
      [|by rewrite lookup_empty in Hf].
    split; [reflexivity|simpl; lia].
  - intros b s ->%list_elem_of_singleton [= <-].
    apply Forall_cons_2; [right; by vm_compute|].
    apply Forall_cons_2; [by left|]. apply Forall_nil_2.
  - exists p'. split_and!; [exact Hrun|exact Hchain|exact Hdeltas|].
    apply (Hstacks S stack); [by apply list_elem_of_singleton|reflexivity].
Defined.

Lemma CookStacks_cooked_witness :
  chain_from (heap_objects_ (process_heap_ chained_program))
    (stack_chain_ chained_program) [S] ∧
  ∃ p',
    CookStacks 1 chained_program = Ok (tt, p') ∧
    List.length (cooked_stack_deltas_ p') = 1%nat ∧
    heap_objects_ (process_heap_ p') !! S
      = Some (StackObject {| length_ := 16; frames_ := [F; NULL]; next_ := 0 |}).
Proof.
  split; [exact example_chain|].
  destruct (CookStacks_cooked chained_program [S] example_chain
              (NoDup_singleton S))
    as (p' & Hrun & Hlength & Hstacks).
  exists p'. split_and!; [exact Hrun|exact Hlength|].
  destruct (Hstacks O S stack eq_refl eq_refl) as (deltas & _ & _ & Hstack).
  exact Hstack.
Defined.

(** A heap of one object with two fields that hold integers every target
    can hold as immediates. *)
Definition portable_program : Program :=
  set_roots (<[large_integer_class_ := 4129]> roots)
    (set_heap
       {| space_ := {| top_ := 512; limit_ := 4096;
                       no_allocation_failure_nesting_ := O |};
          memory_ := <[256 := 4193]> (<[264 := Smi_FromWord 7]>
                       (<[272 := Smi_FromWord (2 ^ 30 - 1)]> ∅));
          objects_ := [(256, 280)];
          functions_ := ∅ |}
       program).

Lemma SnapshotGC_FixOversizedSmis_portable_witness :
  (∀ s, s ∈ all_slots (heap_ portable_program) →
     ∃ v, memory_ (heap_ portable_program) !! s = Some v ∧ oversized v = false) ∧
  SnapshotGC_FixOversizedSmis portable_program = Ok (tt, portable_program).
Proof.
  assert (Hportable : ∀ s, s ∈ all_slots (heap_ portable_program) →
     ∃ v, memory_ (heap_ portable_program) !! s = Some v ∧ oversized v = false).
  { intros s Hs. vm_compute in Hs.
    repeat (apply elem_of_cons in Hs as [->|Hs];
            [eexists; split; reflexivity|]).
    by apply elem_of_nil in Hs. }
  split; [exact Hportable|].
  exact (SnapshotGC_FixOversizedSmis_portable portable_program Hportable).
Defined.

(** A class, a function of 40 bytes of bytecodes, and an instance. *)
Definition class_view : Statistics.HeapObjectView :=
  {| Statistics.Size := 64; Statistics.IsClass := true;
     Statistics.IsArray := false; Statistics.IsOneByteString := false;
     Statistics.IsTwoByteString := false; Statistics.IsFunction := false;
     Statistics.ArraySize := 0; Statistics.StringSize := 0;
     Statistics.FunctionSize := 0; Statistics.bytecode_size := 0 |}.

Definition function_view : Statistics.HeapObjectView :=
  {| Statistics.Size := 72; Statistics.IsClass := false;
     Statistics.IsArray := false; Statistics.IsOneByteString := false;
     Statistics.IsTwoByteString := false; Statistics.IsFunction := true;
     Statistics.ArraySize := 0; Statistics.StringSize := 0;
     Statistics.FunctionSize := 72; Statistics.bytecode_size := 40 |}.

Definition instance_view : Statistics.HeapObjectView :=
  {| Statistics.Size := 16; Statistics.IsClass := false;
     Statistics.IsArray := false; Statistics.IsOneByteString := false;
     Statistics.IsTwoByteString := false; Statistics.IsFunction := false;
     Statistics.ArraySize := 0; Statistics.StringSize := 0;
     Statistics.FunctionSize := 0; Statistics.bytecode_size := 0 |}.

Lemma StatisticsVisitor_counts_witness :
  Statistics.object_count_
    (Statistics.IterateObjects [class_view; function_view; instance_view]
       Statistics.StatisticsVisitor_new) = 3.
Proof.
  exact (proj1 (StatisticsVisitor_counts
                  [class_view; function_view; instance_view]
                  ltac:(simpl; lia))).
Defined.

End MoreExamples.
